(** * Portfolio optimizer service: a shallow embedding and its properties

    The development follows [services/portfolio-optimizer.ts]
    (class [PortfolioOptimizerService]).

    Numbers.  A JavaScript [number] is modelled as a real number: rounding,
    overflow and the non-finite values are outside the model.  A division
    by zero or a square root of a negative number, which the source turns
    into an infinity or a NaN, is therefore outside the model too; the
    results below speak about the runs of the source that compute with
    finite numbers, and a statement that involves an unguarded quotient of
    the source carries the hypothesis that its divisor is not zero.

    Objects.  A JavaScript object used as a dictionary
    ([{ [symbol: string]: number }]) is an association list in insertion
    order, which is the order in which [Object.keys], [Object.values] and
    [Object.entries] enumerate the keys that are not array indices.
    Reading a key that is absent gives [None] ([undefined] in the source),
    which is what the source reads under a key that is not a name
    inherited from [Object.prototype]; [ordinary_key] and
    [Object_prototype_names] below spell out the two conditions.

    Effects.  The only ambient state is the generator behind [Math.random];
    it is threaded explicitly as the list of the draws still to come. *)

From Stdlib Require Import Reals Lra Lia ZArith Zfloor Sorted.
From stdpp Require Import base option list strings.

Local Open Scope R_scope.

(** ** JavaScript primitives used by the service *)

Module Js.

#[global] Instance Rlt_decision : RelDecision Rlt := Rlt_dec.
#[global] Instance Rle_decision : RelDecision Rle := Rle_dec.
#[global] Instance Req_decision : EqDecision R := Req_dec_T.

(** [a < b], [a <= b], [a === b] on numbers. *)
Definition ltb (a b : R) : bool := bool_decide (a < b).
Definition leb (a b : R) : bool := bool_decide (a <= b).
Definition eqb (a b : R) : bool := bool_decide (a = b).

Definition Math_abs : R -> R := Rabs.
Definition Math_sqrt : R -> R := sqrt.
Definition Math_max : R -> R -> R := Rmax.
Definition Math_min : R -> R -> R := Rmin.
Definition Math_exp : R -> R := exp.
Definition Math_log : R -> R := ln.
Definition Math_cos : R -> R := cos.
Definition Math_PI : R := PI.
(** [Math.round] rounds to the nearest integer, halves upwards. *)
Definition Math_round (x : R) : R := IZR (Zfloor (x + 1 / 2)).

(** [xs.reduce((sum, r) => sum + r, 0)] *)
Definition sum (xs : list R) : R := foldl Rplus 0 xs.

(** [Math.min(...xs)] and [Math.max(...xs)]; [None] stands for the
    infinite value returned on an empty argument list. *)
Definition min_list (xs : list R) : option R :=
  match xs with
  | [] => None
  | x :: xs' => Some (foldl Rmin x xs')
  end.
Definition max_list (xs : list R) : option R :=
  match xs with
  | [] => None
  | x :: xs' => Some (foldl Rmax x xs')
  end.

(** Objects keyed by strings, in insertion order. *)
Definition obj : Type := list (string * R).

Fixpoint get (o : obj) (k : string) : option R :=
  match o with
  | [] => None
  | (k', v) :: o' => if decide (k = k') then Some v else get o' k
  end.

(** [o[k] = v]: an existing key keeps its place, a new one goes last. *)
Fixpoint set (o : obj) (k : string) (v : R) : obj :=
  match o with
  | [] => [(k, v)]
  | (k', v') :: o' =>
      if decide (k = k') then (k', v) :: o' else (k', v') :: set o' k v
  end.

Definition keys (o : obj) : list string := o.*1.
Definition values (o : obj) : list R := o.*2.
Definition entries (o : obj) : list (string * R) := o.

(** [xs.sort(cmp)]: the sort of the language is stable; it is modelled as
    the insertion sort that places an element before the first one it
    does not exceed. *)
Fixpoint insert_by {A} (cmp : A -> A -> R) (x : A) (l : list A) : list A :=
  match l with
  | [] => [x]
  | y :: l' => if leb (cmp x y) 0 then x :: y :: l' else y :: insert_by cmp x l'
  end.

Definition sort {A} (cmp : A -> A -> R) (l : list A) : list A :=
  foldr (insert_by cmp) [] l.

(** [for (const x of xs) body] and [for (i = lo; i < hi; i++) body] (over
    [seq lo (hi - lo)]), threading the variables the body assigns. *)
Fixpoint for_of `{MBind M, MRet M} {A S : Type}
    (xs : list A) (body : A -> S -> M S) (s : S) : M S :=
  match xs with
  | [] => mret s
  | x :: xs' => s' ← body x s; for_of xs' body s'
  end.

(** The generator behind [Math.random]: the draws still to come.  A
    computation that draws returns its value and the draws left, or [None]
    when the list runs out. *)
Definition rng : Type := list R.
Definition Rand (A : Type) : Type := rng -> option (A * rng).

#[global] Instance Rand_ret : MRet Rand := fun A a s => Some (a, s).
#[global] Instance Rand_bind : MBind Rand :=
  fun A B f m s => match m s with Some (a, s') => f a s' | None => None end.

Definition lift {A : Type} (o : option A) : Rand A :=
  fun s => match o with Some a => Some (a, s) | None => None end.

(** [let x = 0; while (x === 0) x = Math.random();] *)
Fixpoint random_nonzero (s : rng) : option (R * rng) :=
  match s with
  | [] => None
  | x :: s' => if eqb x 0 then random_nonzero s' else Some (x, s')
  end.

(** [Array.from({ length: n }, () => f())] *)
Fixpoint array_from {A : Type} (n : nat) (f : Rand A) : Rand (list A) :=
  match n with
  | O => mret []
  | S n' => x ← f; xs ← array_from n' f; mret (x :: xs)
  end.

(** Entry [(i, j)] of a matrix stored as an array of rows, and the
    assignment [M[i][j] = v] (inside the bounds of [M]). *)
Definition entry (M : list (list R)) (i j : nat) : option R :=
  row ← M !! i; row !! j.

Definition set_entry (M : list (list R)) (i j : nat) (v : R) : list (list R) :=
  match M !! i with
  | Some row => <[i := <[j := v]> row]> M
  | None => M
  end.

(** [x || 0] on a value read from an object: an absent key and zero are
    both falsy. *)
Definition or_zero (x : option R) : R := default 0 x.

End Js.

Import Js.

(** ** The service *)

Module HistoricalData.
Record t : Type := mk { symbol : string; prices : list R; returns : list R }.
End HistoricalData.

Module Holding.
Record t : Type := mk { symbol : string; quantity : R; averageCost : R }.
End Holding.

Module FrontierPoint.
Record t : Type := mk { risk : R; return_ : R; weights : obj }.
End FrontierPoint.

Module Recommendation.
Record t : Type := mk {
  symbol : string;
  currentWeight : R;
  targetWeight : R;
  action : string;
  amount : R
}.
End Recommendation.

Module RiskMetrics.
Record t : Type := mk {
  expectedReturn : R;
  volatility : R;
  sharpeRatio : R;
  maxDrawdown : R;
  valueAtRisk : R;
  conditionalVaR : R
}.
End RiskMetrics.

Module MonteCarloResults.
Record t : Type := mk {
  scenarios : nat;
  successRate : R;
  expectedFinalValue : R;
  worstCase : R;
  bestCase : R;
  percentile_5 : R;
  percentile_25 : R;
  percentile_75 : R;
  percentile_95 : R
}.
End MonteCarloResults.

Definition MONTE_CARLO_SCENARIOS : nat := 1000.
Definition RISK_FREE_RATE : R := 0.045.
Definition TRADING_DAYS : nat := 252.
Definition HISTORICAL_DAYS : nat := 252.

(** *** Return modeler *)

(** Box-Muller transform over two non-zero uniform draws. *)
Definition normalRandom : Rand R :=
  fun s =>
    '(u, s) ← random_nonzero s;
    '(v, s) ← random_nonzero s;
    Some (Math_sqrt (-2.0 * Math_log u) * Math_cos (2.0 * Math_PI * v), s).

Definition generateRealisticPriceHistory
    (currentPrice annualVolatility annualReturn : R) (days : nat)
  : Rand (list R) :=
  let prices := [currentPrice] in
  let dt := 1 / INR TRADING_DAYS in
  let drift := annualReturn * dt in
  let diffusion := annualVolatility * Math_sqrt dt in
  (* Work backwards from current price *)
  prices ← for_of (seq 1 (days - 1)) (fun i prices =>
    z ← normalRandom;
    let randomShock := z * diffusion in
    p ← lift (prices !! (i - 1)%nat);
    let previousPrice := p / Math_exp (drift + randomShock) in
    (* prices.unshift(previousPrice) *)
    mret (previousPrice :: prices)) prices;
  (* prices.slice(1) *)
  mret (drop 1 prices).

Definition calculateReturns (prices : list R) : list R :=
  zip_with (fun previous current => (current - previous) / previous)
           prices (drop 1 prices).

Definition calculateExpectedReturns (historicalData : list HistoricalData.t)
  : obj :=
  foldl (fun expectedReturns data =>
           let returns := HistoricalData.returns data in
           let meanReturn := sum returns / INR (length returns) in
           set expectedReturns (HistoricalData.symbol data)
               (meanReturn * INR TRADING_DAYS))
        [] historicalData.

(** *** Covariance estimator *)

Definition calculateCovariance (returns1 returns2 : list R) : R :=
  let minLength := Nat.min (length returns1) (length returns2) in
  let r1 := take minLength returns1 in
  let r2 := take minLength returns2 in
  let mean1 := sum r1 / INR (length r1) in
  let mean2 := sum r2 / INR (length r2) in
  (* for (i < r1.length) covariance += (r1[i] - mean1) * (r2[i] - mean2) *)
  let covariance :=
    foldl (fun covariance '(x1, x2) => covariance + (x1 - mean1) * (x2 - mean2))
          0 (zip r1 r2) in
  covariance / (INR (length r1) - 1).

Definition calculateCovarianceMatrix (historicalData : list HistoricalData.t)
  : list (list R) :=
  let covarianceMatrix :=
    map (fun di =>
           map (fun dj => calculateCovariance (HistoricalData.returns di)
                                              (HistoricalData.returns dj))
               historicalData)
        historicalData in
  (* Annualize the covariance matrix *)
  map (map (fun c => c * INR TRADING_DAYS)) covarianceMatrix.

(** The estimator in the words of the specification: both series cut to the
    shared minimum length, the sample covariance with the [N - 1]
    denominator, annualized by the trading-day count. *)
Definition mean (xs : list R) : R := foldr Rplus 0 xs / INR (length xs).

Definition sample_covariance (xs ys : list R) : R :=
  let N := Nat.min (length xs) (length ys) in
  let xs' := take N xs in
  let ys' := take N ys in
  foldr Rplus 0 (zip_with (fun x y => (x - mean xs') * (y - mean ys')) xs' ys')
  / (INR N - 1).

Definition annualized_sample_covariance (xs ys : list R) : R :=
  252 * sample_covariance xs ys.


(** *** Efficient frontier builder *)

Definition calculatePortfolioReturn (weights expectedReturns : obj) : option R :=
  for_of (entries weights) (fun '(symbol, weight) portfolioReturn =>
    r ← get expectedReturns symbol;
    Some (portfolioReturn + weight * r)) 0.

Definition calculatePortfolioVariance
    (weights : obj) (covarianceMatrix : list (list R)) (symbols : list string)
  : option R :=
  for_of (seq 0 (length symbols)) (fun i variance =>
    for_of (seq 0 (length symbols)) (fun j variance =>
      si ← symbols !! i;
      sj ← symbols !! j;
      wi ← get weights si;
      wj ← get weights sj;
      c ← entry covarianceMatrix i j;
      Some (variance + wi * wj * c)) variance) 0.

(** Two-asset analytical solution *)
Definition twoAssetOptimization
    (expectedReturns : obj) (covarianceMatrix : list (list R))
    (symbols : list string) (targetReturn : R) : option obj :=
  s0 ← symbols !! 0%nat;
  s1 ← symbols !! 1%nat;
  r1 ← get expectedReturns s0;
  r2 ← get expectedReturns s1;
  var1 ← entry covarianceMatrix 0 0;
  var2 ← entry covarianceMatrix 1 1;
  cov12 ← entry covarianceMatrix 0 1;
  let A := var2 - cov12 in
  let B := cov12 - var1 in
  let C := var1 + var2 - 2 * cov12 in
  let w1 :=
    if ltb (Math_abs (r1 - r2)) 1e-6
    then A / C                               (* equal expected returns *)
    else (targetReturn - r2) / (r1 - r2) in  (* target return constraint *)
  (* Ensure weights are between 0 and 1 *)
  let w1 := Math_max 0 (Math_min 1 w1) in
  let w2 := 1 - w1 in
  Some (set (set [] s0 w1) s1 w2).

(** Multi-asset heuristic optimization *)
Definition multiAssetHeuristicOptimization
    (expectedReturns : obj) (covarianceMatrix : list (list R))
    (symbols : list string) (targetReturn : R) : option obj :=
  let n := length symbols in
  let weights : obj := [] in
  (* Calculate risk-adjusted scores *)
  scores ← for_of (seq 0 n) (fun i scores =>
    symbol ← symbols !! i;
    r ← get expectedReturns symbol;
    let excessReturn := r - RISK_FREE_RATE in
    variance ← entry covarianceMatrix i i;
    let sharpeRatio :=
      if ltb 0 variance then excessReturn / Math_sqrt variance else 0 in
    Some (scores ++ [Math_max 0 sharpeRatio])) [];
  (* Normalize scores to get initial weights *)
  let totalScore := sum scores in
  weights ←
    (if eqb totalScore 0 then
       for_of (seq 0 n) (fun i weights =>
         symbol ← symbols !! i;
         Some (set weights symbol (1 / INR n))) weights
     else
       for_of (seq 0 n) (fun i weights =>
         symbol ← symbols !! i;
         score ← scores !! i;
         Some (set weights symbol (score / totalScore))) weights);
  (* Adjust for target return *)
  currentReturn ← calculatePortfolioReturn weights expectedReturns;
  if ltb 0.01 (Math_abs (currentReturn - targetReturn)) then
    let adjustment := (targetReturn - currentReturn) / currentReturn in
    weights ← for_of (seq 0 n) (fun i weights =>
      symbol ← symbols !! i;
      r ← get expectedReturns symbol;
      let returnRatio := r / currentReturn in
      w ← get weights symbol;
      Some (set weights symbol (w * (1 + adjustment * returnRatio)))) weights;
    (* Renormalize *)
    let totalWeight := sum (values weights) in
    for_of symbols (fun symbol weights =>
      w ← get weights symbol;
      Some (set weights symbol (w / totalWeight))) weights
  else Some weights.

Definition meanVarianceOptimization
    (expectedReturns : obj) (covarianceMatrix : list (list R))
    (symbols : list string) (targetReturn : R) : option obj :=
  if decide (length symbols = 2%nat) then
    twoAssetOptimization expectedReturns covarianceMatrix symbols targetReturn
  else
    multiAssetHeuristicOptimization expectedReturns covarianceMatrix symbols
                                    targetReturn.

Definition numPortfolios : nat := 100.

Definition generateEfficientFrontier
    (expectedReturns : obj) (covarianceMatrix : list (list R))
    (symbols : list string) : option (list FrontierPoint.t) :=
  let returns := values expectedReturns in
  minReturn ← min_list returns;
  maxReturn ← max_list returns;
  frontier ← for_of (seq 0 (numPortfolios + 1)) (fun i frontier =>
    let targetReturn :=
      minReturn + (INR i / INR numPortfolios) * (maxReturn - minReturn) in
    weights ← meanVarianceOptimization expectedReturns covarianceMatrix
                                       symbols targetReturn;
    portfolioReturn ← calculatePortfolioReturn weights expectedReturns;
    variance ← calculatePortfolioVariance weights covarianceMatrix symbols;
    let portfolioRisk := Math_sqrt variance in
    Some (frontier ++ [FrontierPoint.mk portfolioRisk portfolioReturn weights]))
    [];
  Some (sort (fun a b => FrontierPoint.risk a - FrontierPoint.risk b) frontier).

(** *** Portfolio selector *)

Definition riskLevels (riskTolerance : string) : option R :=
  if decide (riskTolerance = "conservative") then Some 0.12
  else if decide (riskTolerance = "moderate") then Some 0.16
  else if decide (riskTolerance = "aggressive") then Some 0.22
  else if decide (riskTolerance = "very_aggressive") then Some 0.3
  else None.

(** [score > bestScore], where [bestScore] starts at minus infinity
    ([None]). *)
Definition above (score : R) (bestScore : option R) : bool :=
  match bestScore with
  | None => true
  | Some b => ltb b score
  end.

Definition portfolio_score (targetRisk : R) (portfolio : FrontierPoint.t) : R :=
  let sharpeRatio :=
    (FrontierPoint.return_ portfolio - RISK_FREE_RATE)
    / FrontierPoint.risk portfolio in
  let riskPenalty :=
    Math_max 0 (FrontierPoint.risk portfolio - targetRisk) * 10 in
  sharpeRatio - riskPenalty.

(** The parameters [expectedReturns], [covarianceMatrix] and [symbols] of
    the source are not used by its body and are left out. *)
Definition findOptimalPortfolio
    (efficientFrontier : list FrontierPoint.t) (riskTolerance : string)
  : option obj :=
  let targetRisk :=
    match riskLevels riskTolerance with Some v => v | None => 0.16 end in
  let '(bestPortfolio, bestScore) :=
    foldl (fun '(bestPortfolio, bestScore) portfolio =>
             if leb (FrontierPoint.risk portfolio) (targetRisk * 1.1) then
               let score := portfolio_score targetRisk portfolio in
               if above score bestScore
               then (Some portfolio, Some score)
               else (bestPortfolio, bestScore)
             else (bestPortfolio, bestScore))
          (efficientFrontier !! 0%nat, None) efficientFrontier in
  (* bestPortfolio.weights: a TypeError when the frontier is empty *)
  FrontierPoint.weights <$> bestPortfolio.

(** *** Rebalance advisor *)

Definition calculateCurrentWeights (holdings : list Holding.t) (totalValue : R)
  : obj :=
  foldl (fun weights holding =>
           let value := Holding.quantity holding * Holding.averageCost holding in
           set weights (Holding.symbol holding) (value / totalValue))
        [] holdings.

Definition generateRebalanceRecommendations
    (currentWeights optimalWeights : obj) (totalValue : R)
    (symbols : list string) : list Recommendation.t :=
  let recommendations :=
    foldl (fun recommendations symbol =>
             let currentWeight := or_zero (get currentWeights symbol) in
             let targetWeight := or_zero (get optimalWeights symbol) in
             let difference := targetWeight - currentWeight in
             if ltb 0.01 (Math_abs difference) then
               let action := if ltb 0 difference then "BUY" else "SELL" in
               let amount := Math_abs (difference * totalValue) in
               recommendations ++
               [Recommendation.mk symbol
                  (Math_round (currentWeight * 10000) / 100)
                  (Math_round (targetWeight * 10000) / 100)
                  action
                  (Math_round (amount * 100) / 100)]
             else recommendations)
          [] symbols in
  sort (fun a b =>
          Math_abs (Recommendation.targetWeight b - Recommendation.currentWeight b)
          - Math_abs (Recommendation.targetWeight a - Recommendation.currentWeight a))
       recommendations.

(** *** Monte Carlo simulator *)

Definition choleskyDecomposition (matrix : list (list R))
  : option (list (list R)) :=
  let n := length matrix in
  let L := replicate n (replicate n 0) in
  for_of (seq 0 n) (fun i L =>
    for_of (seq 0 (S i)) (fun j L =>
      if decide (i = j) then
        sum ← for_of (seq 0 j) (fun k sum =>
          lik ← entry L i k;
          Some (sum + lik * lik)) 0;
        mii ← entry matrix i i;
        Some (set_entry L i j (Math_sqrt (Math_max 0 (mii - sum))))
      else
        sum ← for_of (seq 0 j) (fun k sum =>
          lik ← entry L i k;
          ljk ← entry L j k;
          Some (sum + lik * ljk)) 0;
        ljj ← entry L j j;
        if eqb ljj 0 then Some (set_entry L i j 0)
        else
          mij ← entry matrix i j;
          Some (set_entry L i j ((mij - sum) / ljj))) L) L.

Definition generateCorrelatedReturnsCholesky
    (symbols : list string) (expectedReturns : obj)
    (choleskyMatrix : list (list R)) : Rand (list R) :=
  let n := length symbols in
  independentNormals ← array_from n normalRandom;
  let correlatedReturns := replicate n 0 in
  lift (for_of (seq 0 n) (fun i correlatedReturns =>
    (* Apply Cholesky transformation *)
    correlatedReturns ← for_of (seq 0 (S i)) (fun j correlatedReturns =>
      c ← correlatedReturns !! i;
      l ← entry choleskyMatrix i j;
      z ← independentNormals !! j;
      Some (<[i := c + l * z]> correlatedReturns)) correlatedReturns;
    (* Convert to daily return with expected return and volatility *)
    symbol ← symbols !! i;
    r ← get expectedReturns symbol;
    let dailyExpectedReturn := r / INR TRADING_DAYS in
    lii ← entry choleskyMatrix i i;
    let dailyVolatility := Math_sqrt (lii / INR TRADING_DAYS) in
    c ← correlatedReturns !! i;
    Some (<[i := dailyExpectedReturn + c * dailyVolatility]> correlatedReturns))
    correlatedReturns).

(** [results[Math.floor(results.length * p)]] *)
Definition percentile (results : list R) (p : R) : option R :=
  results !! Z.to_nat (Zfloor (INR (length results) * p)).

(** The body of the day loop of the simulation: one day of correlated
    returns, weighted and compounded into the portfolio value. *)
Definition simulateDay
    (weights expectedReturns : obj) (choleskyMatrix : list (list R))
    (symbols : list string) (portfolioValue : R) : Rand R :=
  correlatedReturns ←
    generateCorrelatedReturnsCholesky symbols expectedReturns choleskyMatrix;
  dailyReturn ← lift (for_of (seq 0 (length symbols)) (fun i dailyReturn =>
    symbol ← symbols !! i;
    w ← get weights symbol;
    c ← correlatedReturns !! i;
    Some (dailyReturn + w * c)) 0);
  mret (portfolioValue * (1 + dailyReturn)).

Definition runAdvancedMonteCarloSimulation
    (weights expectedReturns : obj) (covarianceMatrix : list (list R))
    (initialValue : R) (symbols : list string) : Rand MonteCarloResults.t :=
  choleskyMatrix ← lift (choleskyDecomposition covarianceMatrix);
  results ← for_of (seq 0 MONTE_CARLO_SCENARIOS) (fun scenario results =>
    (* Simulate daily returns for one year *)
    portfolioValue ← for_of (seq 0 TRADING_DAYS) (fun day portfolioValue =>
      simulateDay weights expectedReturns choleskyMatrix symbols
                  portfolioValue) initialValue;
    mret (results ++ [portfolioValue])) [];
  let results := sort (fun a b => a - b) results in
  let expectedFinalValue := sum results / INR (length results) in
  let successRate :=
    INR (length (filter (fun val => initialValue < val) results))
    / INR (length results) in
  lift (
    p5 ← percentile results 0.05;
    p25 ← percentile results 0.25;
    p75 ← percentile results 0.75;
    p95 ← percentile results 0.95;
    Some (MonteCarloResults.mk MONTE_CARLO_SCENARIOS successRate
            expectedFinalValue p5 p95 p5 p25 p75 p95)).

(** The [i]-th component of [L] applied to the vector [z] (the entries on
    and below the diagonal, as the source sums them). *)
Definition correlated_shock (L : list (list R)) (z : list R) (i : nat)
  : option R :=
  for_of (seq 0 (S i)) (fun j shock =>
    l ← entry L i j;
    zj ← z !! j;
    Some (shock + l * zj)) 0.

(** The number of draws that the rejection loop of [normalRandom] can use. *)
Definition nonzero_draws (s : list R) : nat :=
  length (filter (fun x => x <> 0) s).

(** *** Risk metrics calculator *)

(** Approximate inverse normal CDF *)
Definition getZScore (confidenceLevel : R) : R :=
  let p := confidenceLevel in
  let c0 := 2.515517 in
  let c1 := 0.802853 in
  let c2 := 0.010328 in
  let d1 := 1.432788 in
  let d2 := 0.189269 in
  let d3 := 0.001308 in
  let t := Math_sqrt (-2 * Math_log p) in
  - (t - (c0 + c1 * t + c2 * t * t) / (1 + d1 * t + d2 * t * t + d3 * t * t * t)).

Definition calculateVaR (expectedReturn volatility confidenceLevel : R) : R :=
  let zScore := getZScore confidenceLevel in
  expectedReturn + zScore * volatility.

Definition calculateConditionalVaR
    (expectedReturn volatility confidenceLevel : R) : R :=
  let zScore := getZScore confidenceLevel in
  let phi := (1 / Math_sqrt (2 * Math_PI)) * Math_exp (-0.5 * zScore * zScore) in
  expectedReturn - (phi / confidenceLevel) * volatility.

(** Maximum drawdown by historical simulation.  With no historical data at
    all [Math.min()] is infinite and the replay loop of the source never
    ends: [None]. *)
Definition calculateMaxDrawdown
    (weights : obj) (historicalData : list HistoricalData.t) : option R :=
  let symbols := keys weights in
  match map (fun data => length (HistoricalData.returns data)) historicalData with
  | [] => None
  | len :: lens =>
      let minLength := foldl Nat.min len lens in
      if (minLength <? 20)%nat then Some 0 (* Not enough data *)
      else
        (* Calculate portfolio returns over time *)
        portfolioReturns ← for_of (seq 0 minLength) (fun i portfolioReturns =>
          dailyReturn ← for_of symbols (fun symbol dailyReturn =>
            match list_find (fun data => HistoricalData.symbol data = symbol)
                            historicalData with
            | Some (dataIndex, data) =>
                match HistoricalData.returns data !! i with
                | Some r =>
                    w ← get weights symbol;
                    Some (dailyReturn + w * r)
                | None => Some dailyReturn
                end
            | None => Some dailyReturn
            end) 0;
          Some (portfolioReturns ++ [dailyReturn])) [];
        (* Calculate cumulative returns and drawdowns *)
        let '(cumulativeValue, maxValue, maxDrawdown) :=
          foldl (fun '(cumulativeValue, maxValue, maxDrawdown) dailyReturn =>
                   let cumulativeValue := cumulativeValue * (1 + dailyReturn) in
                   let maxValue := Math_max maxValue cumulativeValue in
                   let drawdown := (maxValue - cumulativeValue) / maxValue in
                   let maxDrawdown := Math_max maxDrawdown drawdown in
                   (cumulativeValue, maxValue, maxDrawdown))
                (1, 1, 0) portfolioReturns in
        Some maxDrawdown
  end.

Definition calculateAdvancedRiskMetrics
    (weights expectedReturns : obj) (covarianceMatrix : list (list R))
    (historicalData : list HistoricalData.t) : option RiskMetrics.t :=
  let symbols := keys weights in
  expectedReturn ← calculatePortfolioReturn weights expectedReturns;
  variance ← calculatePortfolioVariance weights covarianceMatrix symbols;
  let volatility := Math_sqrt variance in
  let sharpeRatio :=
    if ltb 0 volatility
    then (expectedReturn - RISK_FREE_RATE) / volatility
    else 0 in
  maxDrawdown ← calculateMaxDrawdown weights historicalData;
  let valueAtRisk := calculateVaR expectedReturn volatility 0.05 in
  let conditionalVaR := calculateConditionalVaR expectedReturn volatility 0.05 in
  Some (RiskMetrics.mk
          (Math_round (expectedReturn * 10000) / 100)
          (Math_round (volatility * 10000) / 100)
          (Math_round (sharpeRatio * 100) / 100)
          (Math_round (maxDrawdown * 10000) / 100)
          (Math_round (Math_abs valueAtRisk * 10000) / 100)
          (Math_round (Math_abs conditionalVaR * 10000) / 100)).

(** A generator that delivers the two draws [u], [v] [k] times over, and
    then the draws [s]. *)
Fixpoint draws (k : nat) (u v : R) (s : rng) : rng :=
  match k with
  | O => s
  | S k' => u :: v :: draws k' u v s
  end.

(** A computation whose result depends only on the draws it consumes: they
    form a prefix of the draws available, and after the same prefix the
    computation returns the same value, whatever follows. *)
Definition reads_only_its_draws {A : Type} (m : Rand A) : Prop :=
  forall (s : rng) (a : A) (s' : rng),
    m s = Some (a, s') ->
    exists used, s = used ++ s' /\ forall t, m (used ++ t) = Some (a, t).

(** *** Keys of an object *)

(** The names that every object inherits from [Object.prototype].  Reading
    one of them from an object that has no property of its own under that
    name gives the inherited member and not [undefined], and assigning a
    number to [__proto__] creates no property: on these names the
    association list is not the object of the source. *)
Definition Object_prototype_names : list string :=
  ["constructor"; "hasOwnProperty"; "isPrototypeOf"; "propertyIsEnumerable";
   "toLocaleString"; "toString"; "valueOf"; "__proto__";
   "__defineGetter__"; "__defineSetter__"; "__lookupGetter__";
   "__lookupSetter__"]%string.

(** A non-empty string of decimal digits.  The array indices, which
    [Object.keys], [Object.values] and [Object.entries] enumerate first and
    in ascending order whatever the order of insertion, are among these
    strings. *)
Definition is_digit (c : Ascii.ascii) : bool :=
  (48 <=? Ascii.nat_of_ascii c)%nat && (Ascii.nat_of_ascii c <=? 57)%nat.

Fixpoint digits_only (s : string) : bool :=
  match s with
  | EmptyString => true
  | String c s' => is_digit c && digits_only s'
  end.

Definition integer_like (s : string) : bool :=
  match s with
  | EmptyString => false
  | _ => digits_only s
  end.

(** A key on which the association list is the object of the source, for
    reading, for writing and for the order of enumeration. *)
Definition ordinary_key (k : string) : bool :=
  negb (integer_like k) && bool_decide (k ∉ Object_prototype_names).

(** *** Further functions of the service *)

(** [table[symbol] || fallback]: an absent key and a zero entry both give
    the fallback.  The tables below are those of the source for the symbols
    outside [Object_prototype_names]. *)
Definition or_default (fallback : R) (x : option R) : R :=
  match x with
  | Some v => if eqb v 0 then fallback else v
  | None => fallback
  end.

Definition volatilityMap : obj :=
  [("AAPL"%string, 0.25); ("MSFT"%string, 0.22); ("GOOGL"%string, 0.28);
   ("GOOG"%string, 0.28); ("AMZN"%string, 0.32); ("TSLA"%string, 0.45);
   ("META"%string, 0.35); ("NVDA"%string, 0.4); ("SPY"%string, 0.16);
   ("QQQ"%string, 0.2); ("VTI"%string, 0.15); ("IWM"%string, 0.22);
   ("BND"%string, 0.03); ("GLD"%string, 0.18)].

Definition getHistoricalVolatility (symbol : string) : R :=
  or_default 0.25 (get volatilityMap symbol).

Definition returnMap : obj :=
  [("AAPL"%string, 0.15); ("MSFT"%string, 0.14); ("GOOGL"%string, 0.12);
   ("GOOG"%string, 0.12); ("AMZN"%string, 0.16); ("TSLA"%string, 0.2);
   ("META"%string, 0.1); ("NVDA"%string, 0.25); ("SPY"%string, 0.1);
   ("QQQ"%string, 0.12); ("VTI"%string, 0.1); ("IWM"%string, 0.09);
   ("BND"%string, 0.03); ("GLD"%string, 0.05)].

Definition getHistoricalReturn (symbol : string) : R :=
  or_default 0.1 (get returnMap symbol).

(** Fallback data of a symbol (the [dates] of the source are not
    modelled). *)
Definition generateRealisticHistoricalData (symbol : string)
  : Rand HistoricalData.t :=
  let volatility := getHistoricalVolatility symbol in
  let annualReturn := getHistoricalReturn symbol in
  let basePrice := 100 in
  prices ← generateRealisticPriceHistory basePrice volatility annualReturn
                                         HISTORICAL_DAYS;
  let returns := calculateReturns prices in
  mret (HistoricalData.mk symbol prices returns).

(** The price collaborator: [getSingleStockPrice symbol] is the price of the
    quote, or [None] when the call throws or rejects. *)
Section MarketData.

Variable getSingleStockPrice : string -> option R.

(** The inner [None] is the error thrown by the source. *)
Definition fetchHistoricalPrices (symbol : string) : Rand (option (list R)) :=
  match getSingleStockPrice symbol with
  | Some currentPrice =>
      let volatility := getHistoricalVolatility symbol in
      let drift := getHistoricalReturn symbol in
      prices ← generateRealisticPriceHistory currentPrice volatility drift
                                             HISTORICAL_DAYS;
      mret (Some prices)
  | None => mret None
  end.

Definition getRealHistoricalData (symbols : list string)
  : Rand (list HistoricalData.t) :=
  for_of symbols (fun symbol historicalData =>
    fetched ← fetchHistoricalPrices symbol;
    match fetched with
    | Some prices =>
        let returns := calculateReturns prices in
        mret (historicalData ++ [HistoricalData.mk symbol prices returns])
    | None =>
        (* Fallback to improved simulated data *)
        fallbackData ← generateRealisticHistoricalData symbol;
        mret (historicalData ++ [fallbackData])
    end) [].

End MarketData.

Definition calculateCorrelation (returns1 returns2 : list R) : R :=
  let minLength := Nat.min (length returns1) (length returns2) in
  let r1 := take minLength returns1 in
  let r2 := take minLength returns2 in
  let mean1 := sum r1 / INR (length r1) in
  let mean2 := sum r2 / INR (length r2) in
  let '(numerator, sum1, sum2) :=
    foldl (fun '(numerator, sum1, sum2) '(x1, x2) =>
             let diff1 := x1 - mean1 in
             let diff2 := x2 - mean2 in
             (numerator + diff1 * diff2,
              sum1 + diff1 * diff1,
              sum2 + diff2 * diff2))
          (0, 0, 0) (zip r1 r2) in
  let denominator := Math_sqrt (sum1 * sum2) in
  if eqb denominator 0 then 0 else numerator / denominator.

Definition calculateCorrelationMatrix (historicalData : list HistoricalData.t)
  : list (list R) :=
  imap (fun i di =>
          imap (fun j dj =>
                  if decide (i = j) then 1
                  else calculateCorrelation (HistoricalData.returns di)
                                            (HistoricalData.returns dj))
               historicalData)
       historicalData.

(** *** The optimization as a whole *)

Module OptimizationResult.
Record t : Type := mk {
  optimalWeights : obj;
  efficientFrontier : list FrontierPoint.t;
  riskMetrics : RiskMetrics.t;
  monteCarloResults : MonteCarloResults.t;
  rebalanceRecommendations : list Recommendation.t
}.
End OptimizationResult.

(** Main optimization function.  The correlation matrix is computed and not
    used, as in the source. *)
Definition optimizePortfolio
    (getSingleStockPrice : string -> option R)
    (holdings : list Holding.t) (totalValue : R) (riskTolerance : string)
  : Rand OptimizationResult.t :=
  let symbols := map Holding.symbol holdings in
  (* Step 1: Get REAL historical data for all holdings *)
  historicalData ← getRealHistoricalData getSingleStockPrice symbols;
  (* Step 2: Calculate correlation matrix and expected returns *)
  let correlationMatrix := calculateCorrelationMatrix historicalData in
  let expectedReturns := calculateExpectedReturns historicalData in
  let covarianceMatrix := calculateCovarianceMatrix historicalData in
  (* Step 3: Generate efficient frontier *)
  efficientFrontier ←
    lift (generateEfficientFrontier expectedReturns covarianceMatrix symbols);
  (* Step 4: Find optimal portfolio based on risk tolerance *)
  optimalWeights ← lift (findOptimalPortfolio efficientFrontier riskTolerance);
  (* Step 5: Calculate current portfolio weights *)
  let currentWeights := calculateCurrentWeights holdings totalValue in
  (* Step 6: Run Monte Carlo simulation *)
  monteCarloResults ←
    runAdvancedMonteCarloSimulation optimalWeights expectedReturns
                                    covarianceMatrix totalValue symbols;
  (* Step 7: Calculate advanced risk metrics *)
  riskMetrics ←
    lift (calculateAdvancedRiskMetrics optimalWeights expectedReturns
                                       covarianceMatrix historicalData);
  (* Step 8: Generate rebalancing recommendations *)
  let rebalanceRecommendations :=
    generateRebalanceRecommendations currentWeights optimalWeights totalValue
                                     symbols in
  mret (OptimizationResult.mk optimalWeights efficientFrontier riskMetrics
                              monteCarloResults rebalanceRecommendations).

(** *** Matrices in the statements *)

(** [M[i][j]] read as a number, [0] outside the matrix. *)
Definition at_ (M : list (list R)) (i j : nat) : R := default 0 (entry M i j).

(** The sum of [L[i][k] * L[j][k]] over [k < m]. *)
Definition dot (L : list (list R)) (i j m : nat) : R :=
  foldl (fun acc k => acc + at_ L i k * at_ L j k) 0 (seq 0 m).

(** An [n] by [n] matrix. *)
Definition square (n : nat) (M : list (list R)) : Prop :=
  length M = n /\ forall i row, M !! i = Some row -> length row = n.


(** *** Series in the statements *)

(** The series of [N] points whose point [t] is the sum of [w_i * x_i[t]]
    over the series [x_i] and their weights [w_i]. *)
Definition weighted_series (N : nat) (w : list R) (series : list (list R))
  : list R :=
  foldr (fun '(wi, xi) acc => zip_with Rplus (map (Rmult wi) xi) acc)
        (replicate N 0) (zip w series).

(** * Properties *)

(** ** Auxiliary facts on the primitives *)

Lemma ltb_true (a b : R) : a < b -> ltb a b = true.
Proof. intros H. unfold ltb. by apply bool_decide_eq_true. Qed.

Lemma ltb_false (a b : R) : b <= a -> ltb a b = false.
Proof. intros H. unfold ltb. apply bool_decide_eq_false. lra. Qed.

Lemma leb_true (a b : R) : a <= b -> leb a b = true.
Proof. intros H. unfold leb. by apply bool_decide_eq_true. Qed.

Lemma leb_false (a b : R) : b < a -> leb a b = false.
Proof. intros H. unfold leb. apply bool_decide_eq_false. lra. Qed.

Lemma eqb_true (a b : R) : a = b -> eqb a b = true.
Proof. intros H. unfold eqb. by apply bool_decide_eq_true. Qed.

Lemma eqb_false (a b : R) : a <> b -> eqb a b = false.
Proof. intros H. unfold eqb. by apply bool_decide_eq_false. Qed.

Lemma Math_round_IZR (z : Z) : Math_round (IZR z) = IZR z.
Proof.
  unfold Math_round. f_equal. apply Zfloor_eq. lra.
Qed.

Lemma Math_round_between (z : Z) (x : R) :
  IZR z - 1 / 2 <= x < IZR z + 1 / 2 -> Math_round x = IZR z.
Proof.
  intros H. unfold Math_round. f_equal. apply Zfloor_eq. lra.
Qed.

Lemma foldl_min_le (a : nat) (l : list nat) :
  (foldl Nat.min a l <= a)%nat /\ Forall (fun x => (foldl Nat.min a l <= x)%nat) l.
Proof.
  revert a. induction l as [|x l IH]; intros a; simpl.
  - split; [lia | constructor].
  - destruct (IH (Nat.min a x)) as [H1 H2]. split; [lia|].
    constructor; [lia | exact H2].
Qed.

(** ** Maximum drawdown on a sparse history *)

(** C10.  When the shortest return series of the historical data has fewer
    than 20 entries, the max-drawdown calculation answers exactly 0,
    whatever the weights and whatever the returns that are available. *)
Theorem calculateMaxDrawdown_sparse_history
    (weights : obj) (historicalData : list HistoricalData.t) :
  Exists (fun data => (length (HistoricalData.returns data) < 20)%nat)
         historicalData ->
  calculateMaxDrawdown weights historicalData = Some 0.
Proof.
  intros Hshort. unfold calculateMaxDrawdown.
  destruct historicalData as [|d ds]; [by apply Exists_nil in Hshort|].
  cbn [map].
  set (len := length (HistoricalData.returns d)).
  set (lens := map _ ds).
  destruct (foldl_min_le len lens) as [Hhd Htl].
  assert (Hlt : (foldl Nat.min len lens < 20)%nat).
  { apply Exists_cons in Hshort as [Hd | Hds]; [subst len; lia|].
    apply Exists_exists in Hds as (d' & Hin & Hd').
    rewrite Forall_forall in Htl.
    assert (Hmem : length (HistoricalData.returns d') ∈ lens).
    { subst lens. apply list_elem_of_fmap. by exists d'. }
    specialize (Htl _ Hmem). lia. }
  apply Nat.ltb_lt in Hlt. by rewrite Hlt.
Qed.

(** A portfolio whose single asset lost half its value on the one day on
    record still reports a zero drawdown. *)
Lemma calculateMaxDrawdown_sparse_history_witness :
  calculateMaxDrawdown [("AAPL"%string, 1)]
    [HistoricalData.mk "AAPL" [100; 50] [-0.5]] = Some 0.
Proof.
  apply calculateMaxDrawdown_sparse_history.
  apply Exists_cons_hd. simpl. lia.
Defined.

(** ** Evaluation on concrete inputs *)

Arguments ltb : simpl never.
Arguments leb : simpl never.
Arguments eqb : simpl never.

Ltac js_step :=
  match goal with
  | |- context [decide (?a = ?b)] =>
      first [ rewrite (decide_True (P := a = b)) by reflexivity
            | rewrite (decide_False (P := a = b)) by (discriminate || lia) ]
  | |- context [ltb ?a ?b] =>
      first [ rewrite (ltb_true a b) by lra | rewrite (ltb_false a b) by lra ]
  | |- context [leb ?a ?b] =>
      first [ rewrite (leb_true a b) by lra | rewrite (leb_false a b) by lra ]
  | |- context [eqb ?a ?b] =>
      first [ rewrite (eqb_true a b) by lra | rewrite (eqb_false a b) by lra ]
  end.

Ltac js_eval := cbn; repeat (js_step; cbn).

Lemma sqrt_of_square (x y : R) : 0 <= y -> x = y * y -> sqrt x = y.
Proof. intros Hy ->. by apply sqrt_square. Qed.

(** ** Sharpe ratio of the risk metrics *)

(** C9 (as amended).  Whenever the three ingredients of the risk metrics
    are available, the calculator returns a record whose [sharpeRatio] is
    exactly 0 when the portfolio volatility [sqrt(w' S w)] is 0, and is the
    quotient [(expectedReturn - riskFreeRate) / volatility] rounded to two
    decimals when the volatility is positive. *)
Theorem calculateAdvancedRiskMetrics_sharpeRatio
    (weights expectedReturns : obj) (covarianceMatrix : list (list R))
    (historicalData : list HistoricalData.t)
    (expectedReturn variance maxDrawdown : R) :
  calculatePortfolioReturn weights expectedReturns = Some expectedReturn ->
  calculatePortfolioVariance weights covarianceMatrix (keys weights)
    = Some variance ->
  calculateMaxDrawdown weights historicalData = Some maxDrawdown ->
  exists m,
    calculateAdvancedRiskMetrics weights expectedReturns covarianceMatrix
                                 historicalData = Some m
    /\ (Math_sqrt variance = 0 -> RiskMetrics.sharpeRatio m = 0)
    /\ (0 < Math_sqrt variance ->
        RiskMetrics.sharpeRatio m =
        Math_round ((expectedReturn - RISK_FREE_RATE) / Math_sqrt variance * 100)
        / 100).
Proof.
  intros Hret Hvar Hdd. unfold calculateAdvancedRiskMetrics.
  rewrite Hret, Hvar, Hdd. cbn. eexists. split; [reflexivity|]. cbn. split.
  - intros Hzero. rewrite Hzero, ltb_false by lra.
    replace (0 * 100) with (IZR 0) by lra. rewrite Math_round_IZR. lra.
  - intros Hpos. by rewrite ltb_true.
Qed.

Lemma calculateAdvancedRiskMetrics_sharpeRatio_witness :
  exists m,
    calculateAdvancedRiskMetrics [("BND"%string, 1)] [("BND"%string, 0.03)]
      [[0]] [HistoricalData.mk "BND" [100; 100] [0]] = Some m
    /\ (Math_sqrt (0 + 1 * 1 * 0) = 0 -> RiskMetrics.sharpeRatio m = 0)
    /\ (0 < Math_sqrt (0 + 1 * 1 * 0) ->
        RiskMetrics.sharpeRatio m =
        Math_round ((0 + 1 * 0.03 - RISK_FREE_RATE) / Math_sqrt (0 + 1 * 1 * 0) * 100)
        / 100).
Proof.
  apply (calculateAdvancedRiskMetrics_sharpeRatio
           [("BND"%string, 1)] [("BND"%string, 0.03)] [[0]]
           [HistoricalData.mk "BND" [100; 100] [0]]
           (0 + 1 * 0.03) (0 + 1 * 1 * 0) 0).
  - js_eval. reflexivity.
  - js_eval. reflexivity.
  - reflexivity.
Defined.

(** Read without the rounding, the specification's equation for a positive
    volatility fails: with one asset of expected return 10% and variance
    0.04 the volatility is 0.2, the quotient is 0.275 and the record
    reports 0.28. *)
Lemma sharpeRatio_is_rounded :
  exists m,
    calculateAdvancedRiskMetrics [("AAPL"%string, 1)] [("AAPL"%string, 0.1)]
      [[0.04]] [HistoricalData.mk "AAPL" [100; 100] [0]] = Some m
    /\ calculatePortfolioReturn [("AAPL"%string, 1)] [("AAPL"%string, 0.1)]
       = Some 0.1
    /\ calculatePortfolioVariance [("AAPL"%string, 1)] [[0.04]] ["AAPL"%string]
       = Some 0.04
    /\ 0 < Math_sqrt 0.04
    /\ RiskMetrics.sharpeRatio m = 0.28
    /\ RiskMetrics.sharpeRatio m <> (0.1 - RISK_FREE_RATE) / Math_sqrt 0.04.
Proof.
  assert (Hs : Math_sqrt 0.04 = 0.2).
  { apply sqrt_of_square; lra. }
  assert (Hr : calculatePortfolioReturn [("AAPL"%string, 1)]
                 [("AAPL"%string, 0.1)] = Some 0.1).
  { js_eval. f_equal. lra. }
  assert (Hv : calculatePortfolioVariance [("AAPL"%string, 1)] [[0.04]]
                 ["AAPL"%string] = Some 0.04).
  { js_eval. f_equal. lra. }
  unfold calculateAdvancedRiskMetrics. cbn [keys fmap list_fmap fst].
  rewrite Hr, Hv. cbn. rewrite Hs. rewrite ltb_true by lra.
  eexists. split; [reflexivity|]. cbn. unfold RISK_FREE_RATE.
  assert (Hround : Math_round ((0.1 - 0.045) / 0.2 * 100) = 28).
  { apply (Math_round_between 28). lra. }
  rewrite Hround. repeat split; try lra.
Qed.

(** ** Covariance estimator *)

Section Covariance.

Implicit Types xs ys : list R.

Lemma foldl_Rplus_shift (a : R) xs : foldl Rplus a xs = a + foldr Rplus 0 xs.
Proof.
  revert a. induction xs as [|x xs IH]; intros a; simpl; [lra|].
  rewrite IH. lra.
Qed.

Lemma sum_foldr xs : sum xs = foldr Rplus 0 xs.
Proof. unfold sum. rewrite foldl_Rplus_shift. lra. Qed.

Lemma foldl_products_shift (f : R -> R -> R) (a : R) xs ys :
  foldl (fun acc '(x, y) => acc + f x y) a (zip xs ys)
  = a + foldr Rplus 0 (zip_with f xs ys).
Proof.
  revert a ys. induction xs as [|x xs IH]; intros a [|y ys]; simpl; try lra.
  rewrite IH. lra.
Qed.

(** The source computes the estimator of the specification. *)
Lemma calculateCovariance_sample xs ys :
  calculateCovariance xs ys = sample_covariance xs ys.
Proof.
  unfold calculateCovariance, sample_covariance, mean.
  rewrite (foldl_products_shift (fun x y => (x - _) * (y - _))).
  rewrite !sum_foldr.
  rewrite !length_take, (Nat.min_l (_ `min` _) (length xs)) by lia.
  rewrite (Nat.min_l (_ `min` _) (length ys)) by lia.
  lra.
Qed.

Lemma zip_with_products_comm (a b : R) xs ys :
  zip_with (fun x y => (x - a) * (y - b)) xs ys
  = zip_with (fun y x => (y - b) * (x - a)) ys xs.
Proof.
  revert ys. induction xs as [|x xs IH]; intros [|y ys]; simpl; try done.
  rewrite IH. f_equal. lra.
Qed.

Lemma sample_covariance_sym xs ys :
  sample_covariance xs ys = sample_covariance ys xs.
Proof.
  unfold sample_covariance. rewrite (Nat.min_comm (length ys)).
  by rewrite zip_with_products_comm.
Qed.

Lemma sum_squares_nonneg (a : R) xs :
  0 <= foldr Rplus 0 (zip_with (fun x y => (x - a) * (y - a)) xs xs).
Proof.
  induction xs as [|x xs IH]; simpl; [lra|].
  pose proof (Rle_0_sqr (x - a)) as Hsq. unfold Rsqr in Hsq. lra.
Qed.

Lemma sample_variance_nonneg xs :
  (2 <= length xs)%nat -> 0 <= sample_covariance xs xs.
Proof.
  intros Hlen. unfold sample_covariance.
  rewrite Nat.min_id.
  apply Rmult_le_pos; [apply sum_squares_nonneg|].
  apply Rlt_le, Rinv_0_lt_compat.
  apply le_INR in Hlen. simpl in Hlen. lra.
Qed.

Lemma calculateCovarianceMatrix_entry
    (historicalData : list HistoricalData.t) (i j : nat)
    (di dj : HistoricalData.t) :
  historicalData !! i = Some di ->
  historicalData !! j = Some dj ->
  entry (calculateCovarianceMatrix historicalData) i j
  = Some (calculateCovariance (HistoricalData.returns di)
                              (HistoricalData.returns dj)
          * INR TRADING_DAYS).
Proof.
  intros Hi Hj. unfold entry, calculateCovarianceMatrix.
  rewrite !list_lookup_fmap, Hi. cbn.
  by rewrite !list_lookup_fmap, Hj.
Qed.

End Covariance.

Lemma INR_TRADING_DAYS : INR TRADING_DAYS = 252.
Proof. unfold TRADING_DAYS. rewrite INR_IZR_INZ. reflexivity. Qed.

(** C6.  For return series of length at least 2, entry [(i, j)] of the
    matrix is the sample covariance ([N - 1] denominator) of the two series
    cut to their shared minimum length, multiplied by 252; the matrix is
    square, symmetric, and its diagonal (the annualized sample variances)
    is non-negative.  A single asset gives the 1x1 case. *)
Theorem calculateCovarianceMatrix_symmetric_nonneg_diagonal
    (historicalData : list HistoricalData.t) :
  Forall (fun data => (2 <= length (HistoricalData.returns data))%nat)
         historicalData ->
  let M := calculateCovarianceMatrix historicalData in
  length M = length historicalData
  /\ Forall (fun row => length row = length historicalData) M
  /\ forall i j di dj,
       historicalData !! i = Some di ->
       historicalData !! j = Some dj ->
       exists mij mji mii,
         entry M i j = Some mij
         /\ entry M j i = Some mji
         /\ entry M i i = Some mii
         /\ mij = annualized_sample_covariance (HistoricalData.returns di)
                                               (HistoricalData.returns dj)
         /\ mii = annualized_sample_covariance (HistoricalData.returns di)
                                               (HistoricalData.returns di)
         /\ mij = mji
         /\ 0 <= mii.
Proof.
  intros Hlen M. split; [|split].
  - subst M. unfold calculateCovarianceMatrix. by rewrite !length_map.
  - subst M. unfold calculateCovarianceMatrix.
    rewrite Forall_forall. intros row Hrow.
    apply list_elem_of_fmap in Hrow as (row' & -> & Hrow').
    apply list_elem_of_fmap in Hrow' as (d & -> & _).
    by rewrite !length_map.
  - intros i j di dj Hi Hj. subst M.
    do 3 eexists.
    rewrite (calculateCovarianceMatrix_entry _ i j di dj Hi Hj).
    rewrite (calculateCovarianceMatrix_entry _ j i dj di Hj Hi).
    rewrite (calculateCovarianceMatrix_entry _ i i di di Hi Hi).
    rewrite INR_TRADING_DAYS, !calculateCovariance_sample.
    unfold annualized_sample_covariance.
    repeat split; try reflexivity; try lra.
    + rewrite (sample_covariance_sym (HistoricalData.returns dj)). lra.
    + assert (Hdi : (2 <= length (HistoricalData.returns di))%nat).
      { rewrite Forall_forall in Hlen. apply Hlen.
        by eapply list_elem_of_lookup_2. }
      pose proof (sample_variance_nonneg _ Hdi). lra.
Qed.

(** The single-asset case: a 1x1 matrix. *)
Lemma calculateCovarianceMatrix_symmetric_nonneg_diagonal_witness :
  let historicalData := [HistoricalData.mk "AAPL" [100; 101; 99] [0.01; -0.02]] in
  let M := calculateCovarianceMatrix historicalData in
  length M = 1%nat
  /\ Forall (fun row => length row = 1%nat) M
  /\ forall i j di dj,
       historicalData !! i = Some di ->
       historicalData !! j = Some dj ->
       exists mij mji mii,
         entry M i j = Some mij
         /\ entry M j i = Some mji
         /\ entry M i i = Some mii
         /\ mij = annualized_sample_covariance (HistoricalData.returns di)
                                               (HistoricalData.returns dj)
         /\ mii = annualized_sample_covariance (HistoricalData.returns di)
                                               (HistoricalData.returns di)
         /\ mij = mji
         /\ 0 <= mii.
Proof.
  apply (calculateCovarianceMatrix_symmetric_nonneg_diagonal
           [HistoricalData.mk "AAPL" [100; 101; 99] [0.01; -0.02]]).
  repeat constructor.
Defined.

(** ** Portfolio selector *)

Section Selector.

Variable targetRisk : R.

Let qualifies (p : FrontierPoint.t) : Prop :=
  FrontierPoint.risk p <= targetRisk * 1.1.

(** The body of the scan of [findOptimalPortfolio]. *)
Let scan : option FrontierPoint.t * option R -> FrontierPoint.t ->
           option FrontierPoint.t * option R :=
  fun '(bestPortfolio, bestScore) portfolio =>
  if leb (FrontierPoint.risk portfolio) (targetRisk * 1.1) then
    let score := portfolio_score targetRisk portfolio in
    if above score bestScore
    then (Some portfolio, Some score)
    else (bestPortfolio, bestScore)
  else (bestPortfolio, bestScore).

(** What the scan knows after the points [seen]: either nothing qualified
    and the candidate is still the initial one, or the candidate is a
    qualifying point of best score so far. *)
Let scanned (init : option FrontierPoint.t) (seen : list FrontierPoint.t)
    (st : option FrontierPoint.t * option R) : Prop :=
  match st.2 with
  | None => st.1 = init /\ forall p, p ∈ seen -> ~ qualifies p
  | Some s =>
      exists b, st.1 = Some b /\ b ∈ seen /\ qualifies b
                /\ s = portfolio_score targetRisk b
                /\ forall p, p ∈ seen -> qualifies p ->
                             portfolio_score targetRisk p
                             <= portfolio_score targetRisk b
  end.

Lemma scan_preserves init seen st p :
  scanned init seen st -> scanned init (seen ++ [p]) (scan st p).
Proof.
  destruct st as [bp [s|]]; unfold scanned, scan, above, leb, ltb; cbn.
  - intros (b & -> & Hb & Hq & -> & Hmax).
    repeat case_bool_decide; cbn.
    + exists p. repeat split; [rewrite elem_of_app, list_elem_of_singleton; by right|done|].
      intros q Hq'. rewrite elem_of_app, list_elem_of_singleton in Hq'.
      destruct Hq' as [Hq'| ->]; [|lra].
      intros Hqq. specialize (Hmax q Hq' Hqq). lra.
    + exists b. repeat split; [rewrite elem_of_app; by left|done|].
      intros q Hq'. rewrite elem_of_app, list_elem_of_singleton in Hq'.
      destruct Hq' as [Hq'| ->]; [by apply Hmax|]. intros _. lra.
    + exists b. repeat split; [rewrite elem_of_app; by left|done|].
      intros q Hq'. rewrite elem_of_app, list_elem_of_singleton in Hq'.
      destruct Hq' as [Hq'| ->]; [by apply Hmax|]. intros Hqq.
      by unfold qualifies in Hqq.
  - intros [-> Hnone]. case_bool_decide; cbn.
    + exists p. repeat split; [rewrite elem_of_app, list_elem_of_singleton; by right|done|].
      intros q Hq'. rewrite elem_of_app, list_elem_of_singleton in Hq'.
      destruct Hq' as [Hq'| ->]; [|lra].
      intros Hqq. by destruct (Hnone q Hq').
    + split; [done|].
      intros q Hq'. rewrite elem_of_app, list_elem_of_singleton in Hq'.
      destruct Hq' as [Hq'| ->]; [by apply Hnone|]. done.
Qed.

Lemma scan_all init l : forall seen st,
  scanned init seen st -> scanned init (seen ++ l) (foldl scan st l).
Proof.
  induction l as [|p l IH]; intros seen st Hst; cbn.
  - by rewrite app_nil_r.
  - replace (seen ++ p :: l) with ((seen ++ [p]) ++ l) by by rewrite <- app_assoc.
    apply IH. by apply scan_preserves.
Qed.

Lemma findOptimalPortfolio_scan (frontier : list FrontierPoint.t)
    (riskTolerance : string) :
  match riskLevels riskTolerance with Some v => v | None => 0.16 end
  = targetRisk ->
  exists st,
    scanned (frontier !! 0%nat) frontier st
    /\ findOptimalPortfolio frontier riskTolerance
       = FrontierPoint.weights <$> st.1.
Proof.
  intros Htarget. unfold findOptimalPortfolio. rewrite Htarget.
  exists (foldl scan (frontier !! 0%nat, None) frontier). split.
  - apply (scan_all _ frontier [] (frontier !! 0%nat, None)).
    unfold scanned; cbn. split; [done|]. intros p Hp. inversion Hp.
  - change ((let '(bestPortfolio, _) :=
               foldl scan (frontier !! 0%nat, None) frontier in
             FrontierPoint.weights <$> bestPortfolio)
            = FrontierPoint.weights
                <$> (foldl scan (frontier !! 0%nat, None) frontier).1).
    by destruct (foldl scan _ frontier).
Qed.

End Selector.

Lemma ascending_head_least {A : Type} (key : A -> R) (l : list A) (x : A) :
  (forall k p q, l !! k = Some p -> l !! S k = Some q -> key p <= key q) ->
  l !! 0%nat = Some x ->
  forall p, p ∈ l -> key x <= key p.
Proof.
  revert x. induction l as [|y l IH]; intros x Hasc Hx p Hp; [done|].
  cbn in Hx. injection Hx as ->.
  apply elem_of_cons in Hp as [-> | Hp]; [lra|].
  destruct l as [|z l]; [inversion Hp|].
  assert (Hxz : key x <= key z) by exact (Hasc 0%nat x z eq_refl eq_refl).
  assert (Hzp : key z <= key p).
  { apply (IH z); [|done|done].
    intros k p' q' Hp' Hq'. exact (Hasc (S k) p' q' Hp' Hq'). }
  lra.
Qed.

(** C5.  The four risk-tolerance levels map to the target volatilities
    0.12, 0.16, 0.22 and 0.30.  On a non-empty frontier (with non-zero
    risks, so that the Sharpe quotient is defined) the selector returns the
    weights of a frontier point [best]: when some point has
    [risk <= target * 1.1], [best] is such a point and no such point has a
    higher score [(return - riskFreeRate) / risk - max(0, risk - target) * 10];
    when none has, [best] is the first frontier point, the one of lowest
    risk on a frontier sorted ascending by risk. *)
Theorem findOptimalPortfolio_selects
    (efficientFrontier : list FrontierPoint.t)
    (riskTolerance : string) (targetRisk : R) :
  (riskTolerance, targetRisk) ∈
    [("conservative"%string, 0.12); ("moderate"%string, 0.16);
     ("aggressive"%string, 0.22); ("very_aggressive"%string, 0.30)] ->
  efficientFrontier <> [] ->
  Forall (fun p => FrontierPoint.risk p <> 0) efficientFrontier ->
  let qualifies p := FrontierPoint.risk p <= targetRisk * 1.1 in
  let score p :=
    (FrontierPoint.return_ p - RISK_FREE_RATE) / FrontierPoint.risk p
    - Rmax 0 (FrontierPoint.risk p - targetRisk) * 10 in
  exists best,
    best ∈ efficientFrontier
    /\ findOptimalPortfolio efficientFrontier riskTolerance
       = Some (FrontierPoint.weights best)
    /\ ((exists p, p ∈ efficientFrontier /\ qualifies p) ->
        qualifies best
        /\ forall p, p ∈ efficientFrontier -> qualifies p ->
                     score p <= score best)
    /\ ((forall p, p ∈ efficientFrontier -> ~ qualifies p) ->
        efficientFrontier !! 0%nat = Some best
        /\ ((forall k p q, efficientFrontier !! k = Some p ->
                           efficientFrontier !! S k = Some q ->
                           FrontierPoint.risk p <= FrontierPoint.risk q) ->
            forall p, p ∈ efficientFrontier ->
                      FrontierPoint.risk best <= FrontierPoint.risk p)).
Proof.
  intros Hlevel Hne _ qualifies score.
  assert (Htarget :
    match riskLevels riskTolerance with Some v => v | None => 0.16 end
    = targetRisk).
  { repeat (apply elem_of_cons in Hlevel as [[= -> ->] | Hlevel]);
      [| | | | inversion Hlevel];
      unfold riskLevels; js_eval; lra. }
  destruct (findOptimalPortfolio_scan targetRisk efficientFrontier
              riskTolerance Htarget) as ([bp [s|]] & Hscan & ->).
  - destruct Hscan as (b & Hbp & Hb & Hq & _ & Hmax). cbn in Hbp. subst bp.
    exists b. split; [done|]. split; [done|]. split.
    + intros _. split; [done|]. intros p Hp Hqp. exact (Hmax p Hp Hqp).
    + intros Hnone. by destruct (Hnone b Hb).
  - destruct Hscan as [Hbp Hnone]. cbn in Hbp. subst bp.
    destruct efficientFrontier as [|first rest] eqn:Hf; [done|]. cbn.
    exists first. split; [by left|]. split; [done|]. split.
    + intros (p & Hp & Hq). by destruct (Hnone p Hp).
    + intros _. split; [done|]. intros Hasc p Hp.
      by apply (ascending_head_least FrontierPoint.risk (first :: rest)).
Qed.

Lemma findOptimalPortfolio_selects_witness :
  exists best,
    best ∈ [FrontierPoint.mk 0.10 0.08 [("BND"%string, 1)];
            FrontierPoint.mk 0.20 0.12 [("SPY"%string, 1)]]
    /\ findOptimalPortfolio
         [FrontierPoint.mk 0.10 0.08 [("BND"%string, 1)];
          FrontierPoint.mk 0.20 0.12 [("SPY"%string, 1)]] "moderate"
       = Some (FrontierPoint.weights best).
Proof.
  destruct (findOptimalPortfolio_selects
              [FrontierPoint.mk 0.10 0.08 [("BND"%string, 1)];
               FrontierPoint.mk 0.20 0.12 [("SPY"%string, 1)]]
              "moderate" 0.16) as (best & Hin & Hbest & _).
  - apply elem_of_cons. right. apply elem_of_cons. left. reflexivity.
  - discriminate.
  - repeat constructor; cbn; lra.
  - exists best. split; assumption.
Defined.

(** ** The sort of the language *)

Section Sort.

Context {A : Type} (cmp : A -> A -> R).

Lemma insert_by_Permutation (x : A) (l : list A) :
  insert_by cmp x l ≡ₚ x :: l.
Proof.
  induction l as [|y l IH]; cbn; [done|].
  destruct (leb (cmp x y) 0); [done|].
  rewrite IH. apply Permutation_swap.
Qed.

Lemma sort_Permutation (l : list A) : sort cmp l ≡ₚ l.
Proof.
  induction l as [|x l IH]; cbn; [done|].
  fold (sort cmp l). by rewrite insert_by_Permutation, IH.
Qed.

(** A comparator that orders any two elements one way or the other. *)
Hypothesis cmp_total : forall a b, cmp a b <= 0 \/ cmp b a <= 0.

Lemma insert_by_Sorted (x : A) (l : list A) :
  Sorted (fun a b => cmp a b <= 0) l ->
  Sorted (fun a b => cmp a b <= 0) (insert_by cmp x l).
Proof.
  induction l as [|y l IH]; intros Hl; cbn.
  - repeat constructor.
  - unfold leb. case_bool_decide as Hxy.
    + constructor; [done|]. by constructor.
    + apply Sorted_inv in Hl as [Hl Hy].
      constructor; [by apply IH|].
      destruct l as [|z l]; cbn.
      * constructor. destruct (cmp_total x y); [done|lra].
      * unfold leb. case_bool_decide.
        -- constructor. destruct (cmp_total x y); [done|lra].
        -- constructor. by apply HdRel_inv in Hy.
Qed.

Lemma sort_Sorted (l : list A) : Sorted (fun a b => cmp a b <= 0) (sort cmp l).
Proof.
  induction l as [|x l IH]; cbn; [constructor|].
  by apply insert_by_Sorted.
Qed.



End Sort.

(** ** Objects *)

Lemma get_set (o : obj) (k k' : string) (v : R) :
  get (set o k v) k' = if decide (k' = k) then Some v else get o k'.
Proof.
  induction o as [|[k0 v0] o IH]; cbn.
  - by destruct (decide (k' = k)).
  - destruct (decide (k = k0)) as [->|Hk]; cbn.
    + by destruct (decide (k' = k0)).
    + destruct (decide (k' = k0)) as [->|Hk'].
      * by rewrite decide_False by done.
      * exact IH.
Qed.

(** More evaluation steps: absolute values and roundings of constants. *)
Ltac js_abs :=
  match goal with
  | |- context [Rabs ?x] =>
      first [ rewrite (Rabs_pos_eq x) by lra | rewrite (Rabs_left1 x) by lra ]
  end.


(** ** Rebalance advisor *)

Section Rebalance.

Variables (currentWeights optimalWeights : obj) (totalValue : R).







End Rebalance.




(** ** Computations that draw random numbers *)

Lemma rand_bind_Some {A B : Type} (m : Rand A) (f : A -> Rand B)
    (s s' : rng) (a : A) :
  m s = Some (a, s') -> (a ← m; f a) s = f a s'.
Proof. intros H. unfold mbind, Rand_bind. by rewrite H. Qed.

Lemma rand_bind_inv {A B : Type} (m : Rand A) (f : A -> Rand B)
    (s s'' : rng) (b : B) :
  (a ← m; f a) s = Some (b, s'') ->
  exists a s', m s = Some (a, s') /\ f a s' = Some (b, s'').
Proof.
  unfold mbind, Rand_bind. destruct (m s) as [[a s']|]; [|done].
  intros H. by exists a, s'.
Qed.

Lemma nonzero_draws_replicate (n : nat) (x : R) :
  x <> 0 -> nonzero_draws (replicate n x) = n.
Proof.
  intros Hx. unfold nonzero_draws. induction n as [|n IH]; [done|].
  cbn [replicate]. rewrite filter_cons, decide_True by done.
  cbn [length]. by rewrite IH.
Qed.

Lemma random_nonzero_Some (s : rng) :
  (1 <= nonzero_draws s)%nat ->
  exists x s', random_nonzero s = Some (x, s')
               /\ nonzero_draws s' = (nonzero_draws s - 1)%nat.
Proof.
  unfold nonzero_draws. induction s as [|x s IH]; [cbn; lia|].
  cbn [random_nonzero]. rewrite filter_cons. unfold eqb.
  case_bool_decide as Hx.
  - rewrite decide_False by (intros ?; done). exact IH.
  - rewrite decide_True by done. cbn. intros _. exists x, s. split; [done|lia].
Qed.

Lemma normalRandom_Some (s : rng) :
  (2 <= nonzero_draws s)%nat ->
  exists z s', normalRandom s = Some (z, s')
               /\ nonzero_draws s' = (nonzero_draws s - 2)%nat.
Proof.
  intros Hs. unfold normalRandom.
  destruct (random_nonzero_Some s) as (u & s1 & -> & H1); [lia|]. cbn.
  destruct (random_nonzero_Some s1) as (v & s2 & -> & H2); [lia|]. cbn.
  do 2 eexists. split; [reflexivity|lia].
Qed.

(** ** Return modeler *)

Section PriceHistory.

Variables (currentPrice drift diffusion : R).

Let step (i : nat) (prices : list R) : Rand (list R) :=
  z ← normalRandom;
  let randomShock := z * diffusion in
  p ← lift (prices !! (i - 1)%nat);
  let previousPrice := p / Math_exp (drift + randomShock) in
  mret (previousPrice :: prices).

Lemma price_loop (k : nat) : forall (i : nat) (prices : list R) (s : rng),
  length prices = i -> (1 <= i)%nat -> last prices = Some currentPrice ->
  (2 * k <= nonzero_draws s)%nat ->
  exists prices' s',
    for_of (seq i k) step prices s = Some (prices', s')
    /\ length prices' = (i + k)%nat
    /\ last prices' = Some currentPrice.
Proof.
  induction k as [|k IH]; intros i prices s Hlen Hi Hlast Hs; cbn.
  - exists prices, s. repeat split; [lia|done].
  - destruct (normalRandom_Some s) as (z & s1 & Hz & Hs1); [lia|].
    destruct (lookup_lt_is_Some_2 prices (i - 1)) as [p Hp]; [lia|].
    destruct (IH (S i) (p / Math_exp (drift + z * diffusion) :: prices) s1)
      as (prices' & s' & Hloop & Hlen' & Hlast'); [cbn; lia|lia| |lia|].
    { destruct prices; [done|]. by rewrite last_cons_cons. }
    exists prices', s'. repeat split; [|lia|done].
    erewrite rand_bind_Some; [exact Hloop|].
    unfold step. erewrite rand_bind_Some by exact Hz.
    rewrite Hp. reflexivity.
Qed.

End PriceHistory.

(** C4 (what the code does).  Given enough non-zero draws, the generated
    series has [days - 1] points, and for [days >= 2] its last point is the
    current price.  With [days = HISTORICAL_DAYS = 252] that is 251 points,
    one short of the fixed length. *)
Theorem generateRealisticPriceHistory_length
    (currentPrice annualVolatility annualReturn : R) (days : nat) (s : rng) :
  (2 * (days - 1) <= nonzero_draws s)%nat ->
  exists prices s',
    generateRealisticPriceHistory currentPrice annualVolatility annualReturn
                                  days s = Some (prices, s')
    /\ length prices = (days - 1)%nat
    /\ ((2 <= days)%nat -> last prices = Some currentPrice).
Proof.
  intros Hs. unfold generateRealisticPriceHistory.
  destruct (price_loop currentPrice
              (annualReturn * (1 / INR TRADING_DAYS))
              (annualVolatility * Math_sqrt (1 / INR TRADING_DAYS))
              (days - 1) 1 [currentPrice] s)
    as (prices & s' & Hloop & Hlen & Hlast); [done|lia|done|done|].
  exists (drop 1 prices), s'. split; [|split].
  - erewrite rand_bind_Some by exact Hloop. reflexivity.
  - rewrite length_drop. lia.
  - intros Hdays. destruct prices as [|p0 [|p1 prices]]; cbn in Hlen; try lia.
    cbn. by rewrite last_cons_cons in Hlast.
Qed.

Lemma generateRealisticPriceHistory_length_witness :
  exists prices s',
    generateRealisticPriceHistory 100 0.25 0.1 HISTORICAL_DAYS
                                  (replicate 502 0.5) = Some (prices, s')
    /\ length prices = 251%nat
    /\ length prices <> HISTORICAL_DAYS
    /\ last prices = Some 100.
Proof.
  destruct (generateRealisticPriceHistory_length 100 0.25 0.1 HISTORICAL_DAYS
              (replicate 502 0.5)) as (prices & s' & Hrun & Hlen & Hlast).
  - rewrite nonzero_draws_replicate by lra. unfold HISTORICAL_DAYS. lia.
  - exists prices, s'. unfold HISTORICAL_DAYS in *. cbn in Hlen.
    repeat split; [done|done|lia|apply Hlast; lia].
Defined.

(** ** Loops *)

Section Loops.

Context {A S : Type}.

(** A loop whose body always succeeds and maintains an invariant (on the
    elements already visited and the state) succeeds and establishes it. *)
Lemma for_of_invariant (I : list A -> S -> Prop)
    (body : A -> S -> option S) (xs : list A) (s0 : S) :
  I [] s0 ->
  (forall seen x rest s,
      xs = seen ++ x :: rest -> I seen s ->
      exists s', body x s = Some s' /\ I (seen ++ [x]) s') ->
  exists s', for_of xs body s0 = Some s' /\ I xs s'.
Proof.
  intros Hinit Hstep.
  assert (Hgen : forall rest seen s,
             xs = seen ++ rest -> I seen s ->
             exists s', for_of rest body s = Some s' /\ I xs s').
  { induction rest as [|x rest IH]; intros seen s Hxs Hs; cbn.
    - rewrite app_nil_r in Hxs. subst seen. by exists s.
    - destruct (Hstep seen x rest s Hxs Hs) as (s1 & -> & Hs1). cbn.
      apply (IH (seen ++ [x])); [|done]. by rewrite <- app_assoc. }
  by apply (Hgen xs []).
Qed.

End Loops.

Lemma seq_split_index (n : nat) (seen rest : list nat) (i : nat) :
  seq 0 n = seen ++ i :: rest -> i = length seen /\ (i < n)%nat.
Proof.
  intros Hseq.
  assert (Hi : seq 0 n !! length seen = Some i).
  { rewrite Hseq. by rewrite list_lookup_middle. }
  apply lookup_seq in Hi. lia.
Qed.

(** ** Keys of an object *)

Lemma elem_of_keys_set (o : obj) (k k' : string) (v : R) :
  k' ∈ keys (set o k v) <-> k' = k \/ k' ∈ keys o.
Proof.
  unfold keys. induction o as [|[k0 v0] o IH]; cbn.
  - rewrite list_elem_of_singleton. split; [by left|].
    intros [H|H]; [done|inversion H].
  - destruct (decide (k = k0)) as [->|Hk]; cbn.
    + rewrite elem_of_cons. tauto.
    + rewrite !elem_of_cons, IH. tauto.
Qed.

Lemma get_is_Some (o : obj) (k : string) : is_Some (get o k) <-> k ∈ keys o.
Proof.
  unfold keys. induction o as [|[k0 v0] o IH]; cbn.
  - split; [by intros [? ?]|intros H; inversion H].
  - rewrite elem_of_cons. destruct (decide (k = k0)) as [->|Hk].
    + split; [by left|by eexists].
    + rewrite IH. split; [by right|by intros [?|?]].
Qed.

(** ** Efficient frontier builder: the optimizers return *)

Section FrontierTotal.

Variables (expectedReturns : obj) (covarianceMatrix : list (list R))
          (symbols : list string).

Hypothesis returns_known :
  forall symbol, symbol ∈ symbols -> symbol ∈ keys expectedReturns.
Hypothesis covariance_square :
  forall i j, (i < length symbols)%nat -> (j < length symbols)%nat ->
              is_Some (entry covarianceMatrix i j).

(** A weights object over exactly the symbols. *)
Let covers (weights : obj) : Prop :=
  forall symbol, symbol ∈ keys weights <-> symbol ∈ symbols.

Lemma calculatePortfolioReturn_Some (weights : obj) :
  (forall symbol, symbol ∈ keys weights -> symbol ∈ symbols) ->
  is_Some (calculatePortfolioReturn weights expectedReturns).
Proof.
  intros Hkeys. unfold calculatePortfolioReturn, entries.
  destruct (for_of_invariant (fun _ _ => True)
              (fun '(symbol, weight) portfolioReturn =>
                 r ← get expectedReturns symbol;
                 Some (portfolioReturn + weight * r)) weights 0)
    as (r & Hr & _); [done| |by exists r].
  intros seen [symbol weight] rest acc Hw _.
  assert (Hin : symbol ∈ keys weights).
  { rewrite Hw. unfold keys. rewrite fmap_app, elem_of_app. right. by left. }
  apply Hkeys, returns_known, get_is_Some in Hin as [r Hr].
  rewrite Hr. cbn. by eexists.
Qed.

Lemma calculatePortfolioVariance_Some (weights : obj) :
  (forall symbol, symbol ∈ symbols -> symbol ∈ keys weights) ->
  is_Some (calculatePortfolioVariance weights covarianceMatrix symbols).
Proof.
  intros Hkeys. unfold calculatePortfolioVariance.
  match goal with
  | |- is_Some (for_of ?xs ?body ?s0) =>
      destruct (for_of_invariant (fun _ _ => True) body xs s0)
        as (v & Hv & _); [done| |by exists v]
  end.
  intros seen i rest acc Hi _.
  apply seq_split_index in Hi as [_ Hi].
  match goal with
  | |- exists s', for_of ?xs ?body ?s0 = Some s' /\ _ =>
      destruct (for_of_invariant (fun _ _ => True) body xs s0)
        as (v & Hv & _); [done| |by exists v]
  end.
  intros seen' j rest' acc' Hj _.
  apply seq_split_index in Hj as [_ Hj].
  destruct (lookup_lt_is_Some_2 symbols i Hi) as [si Hsi].
  destruct (lookup_lt_is_Some_2 symbols j Hj) as [sj Hsj].
  rewrite Hsi, Hsj. cbn.
  destruct (proj2 (get_is_Some weights si)) as [wi ->];
    [by eapply Hkeys, list_elem_of_lookup_2|].
  destruct (proj2 (get_is_Some weights sj)) as [wj ->];
    [by eapply Hkeys, list_elem_of_lookup_2|].
  destruct (covariance_square i j Hi Hj) as [c ->]. cbn. by eexists.
Qed.

Lemma twoAssetOptimization_Some (targetReturn : R) :
  length symbols = 2%nat ->
  exists weights,
    twoAssetOptimization expectedReturns covarianceMatrix symbols targetReturn
    = Some weights /\ covers weights.
Proof.
  intros Hlen. destruct symbols as [|s0 [|s1 [|]]] eqn:Hsym; try done.
  unfold twoAssetOptimization. cbn [lookup list_lookup mbind option_bind].
  destruct (proj2 (get_is_Some expectedReturns s0)) as [r1 ->];
    [apply returns_known; by left|].
  destruct (proj2 (get_is_Some expectedReturns s1)) as [r2 ->];
    [apply returns_known; right; by left|].
  destruct (covariance_square 0 0) as [var1 ->]; [cbn; lia..|].
  destruct (covariance_square 1 1) as [var2 ->]; [cbn; lia..|].
  destruct (covariance_square 0 1) as [cov12 ->]; [cbn; lia..|].
  cbn [mbind option_bind].
  eexists. split; [reflexivity|].
  intros symbol. rewrite !elem_of_keys_set, !elem_of_cons.
  split.
  - intros [->|[->|H]]; [by right; left|by left|inversion H].
  - intros [->|[->|H]]; [by right; left|by left|inversion H].
Qed.

Lemma covers_set (weights : obj) (symbol : string) (v : R) :
  covers weights -> symbol ∈ symbols -> covers (set weights symbol v).
Proof.
  intros Hcov Hin k. rewrite elem_of_keys_set. split.
  - intros [->|Hk]; [done|by apply Hcov].
  - intros Hk. right. by apply Hcov.
Qed.

Lemma multiAssetHeuristicOptimization_Some (targetReturn : R) :
  exists weights,
    multiAssetHeuristicOptimization expectedReturns covarianceMatrix symbols
                                    targetReturn
    = Some weights /\ covers weights.
Proof.
  unfold multiAssetHeuristicOptimization.
  (* the scores *)
  match goal with
  | |- context [for_of ?xs ?body ?s0] =>
      destruct (for_of_invariant
                  (fun (seen : list nat) (scores : list R) =>
                     length scores = length seen) body xs s0)
        as (scores & -> & Hscores)
  end; [done| |].
  { intros seen i rest scores Hi Hlen.
    apply seq_split_index in Hi as [_ Hi].
    destruct (lookup_lt_is_Some_2 symbols i Hi) as [symbol Hsym].
    rewrite Hsym. cbn [mbind option_bind].
    destruct (proj2 (get_is_Some expectedReturns symbol)) as [r ->];
      [by eapply returns_known, list_elem_of_lookup_2|].
    cbn [mbind option_bind].
    destruct (covariance_square i i Hi Hi) as [variance ->].
    cbn [mbind option_bind]. eexists. split; [reflexivity|].
    rewrite !length_app. cbn. lia. }
  rewrite length_seq in Hscores. cbn [mbind option_bind].
  (* the initial weights *)
  pose (I := fun (seen : list nat) (weights : obj) =>
               (forall k, k ∈ keys weights -> k ∈ symbols)
               /\ (forall i s, i ∈ seen -> symbols !! i = Some s ->
                               s ∈ keys weights)).
  assert (Hinit : exists weights,
             (if eqb (sum scores) 0 then
                for_of (seq 0 (length symbols)) (fun i weights =>
                  symbol ← symbols !! i;
                  Some (set weights symbol (1 / INR (length symbols)))) []
              else
                for_of (seq 0 (length symbols)) (fun i weights =>
                  symbol ← symbols !! i;
                  score ← scores !! i;
                  Some (set weights symbol (score / sum scores))) [])
             = Some weights /\ covers weights).
  { assert (Hfinal : forall weights, I (seq 0 (length symbols)) weights ->
                                     covers weights).
    { intros weights [Hsub Hsup] k. split; [apply Hsub|].
      intros Hk. apply list_elem_of_lookup_1 in Hk as [i Hi].
      apply (Hsup i); [|done]. apply elem_of_seq.
      apply lookup_lt_Some in Hi. lia. }
    destruct (eqb (sum scores) 0).
    - match goal with
      | |- context [for_of ?xs ?body ?s0] =>
          destruct (for_of_invariant I body xs s0) as (weights & -> & Hw)
      end; [split; [intros k Hk | intros i s Hi]; inversion_clear 1 || inversion Hk; inversion Hi| |by eauto].
      intros seen i rest weights Hi [Hsub Hsup].
      apply seq_split_index in Hi as [_ Hi].
      destruct (lookup_lt_is_Some_2 symbols i Hi) as [symbol Hsym].
      rewrite Hsym. cbn [mbind option_bind]. eexists. split; [reflexivity|].
      split.
      + intros k. rewrite elem_of_keys_set. intros [->|Hk]; [|by apply Hsub].
        by eapply list_elem_of_lookup_2.
      + intros j s. rewrite elem_of_app, list_elem_of_singleton, elem_of_keys_set.
        intros [Hj | ->] Hs; [right; by eapply Hsup|].
        left. congruence.
    - match goal with
      | |- context [for_of ?xs ?body ?s0] =>
          destruct (for_of_invariant I body xs s0) as (weights & -> & Hw)
      end; [split; [intros k Hk | intros i s Hi]; inversion_clear 1 || inversion Hk; inversion Hi| |by eauto].
      intros seen i rest weights Hi [Hsub Hsup].
      apply seq_split_index in Hi as [_ Hi].
      destruct (lookup_lt_is_Some_2 symbols i Hi) as [symbol Hsym].
      rewrite Hsym. cbn [mbind option_bind].
      destruct (lookup_lt_is_Some_2 scores i) as [score ->]; [lia|].
      cbn [mbind option_bind]. eexists. split; [reflexivity|].
      split.
      + intros k. rewrite elem_of_keys_set. intros [->|Hk]; [|by apply Hsub].
        by eapply list_elem_of_lookup_2.
      + intros j s. rewrite elem_of_app, list_elem_of_singleton, elem_of_keys_set.
        intros [Hj | ->] Hs; [right; by eapply Hsup|].
        left. congruence. }
  destruct Hinit as (weights & -> & Hcov). cbn [mbind option_bind].
  destruct (calculatePortfolioReturn_Some weights) as [currentReturn ->];
    [intros k; apply Hcov|].
  cbn [mbind option_bind].
  destruct (ltb 0.01 _); [|by exists weights].
  (* the nudge towards the target return *)
  match goal with
  | |- context [for_of ?xs ?body ?s0] =>
      destruct (for_of_invariant (fun _ weights => covers weights) body xs s0)
        as (weights' & -> & Hcov')
  end; [done| |].
  { intros seen i rest w Hi Hw.
    apply seq_split_index in Hi as [_ Hi].
    destruct (lookup_lt_is_Some_2 symbols i Hi) as [symbol Hsym].
    assert (Hin : symbol ∈ symbols) by by eapply list_elem_of_lookup_2.
    rewrite Hsym. cbn [mbind option_bind].
    destruct (proj2 (get_is_Some expectedReturns symbol)) as [r ->];
      [by apply returns_known|].
    cbn [mbind option_bind].
    destruct (proj2 (get_is_Some w symbol)) as [x ->]; [by apply Hw|].
    cbn [mbind option_bind]. eexists. split; [reflexivity|].
    by apply covers_set. }
  cbn [mbind option_bind].
  (* the renormalization *)
  match goal with
  | |- context [for_of ?xs ?body ?s0] =>
      destruct (for_of_invariant (fun _ weights => covers weights) body xs s0)
        as (weights'' & -> & Hcov'')
  end; [done| |by eauto].
  intros seen symbol rest w Hsym Hw.
  assert (Hin : symbol ∈ symbols).
  { rewrite Hsym, elem_of_app. right. by left. }
  destruct (proj2 (get_is_Some w symbol)) as [x ->]; [by apply Hw|].
  cbn [mbind option_bind]. eexists. split; [reflexivity|].
  by apply covers_set.
Qed.

Lemma meanVarianceOptimization_Some (targetReturn : R) :
  exists weights,
    meanVarianceOptimization expectedReturns covarianceMatrix symbols
                             targetReturn
    = Some weights /\ covers weights.
Proof.
  unfold meanVarianceOptimization. destruct (decide (length symbols = 2%nat)).
  - by apply twoAssetOptimization_Some.
  - apply multiAssetHeuristicOptimization_Some.
Qed.

End FrontierTotal.

(** ** Efficient frontier builder: the points of the frontier *)

(** The points of the frontier before the final sort: point [i] carries the
    weights of the optimizer for the [i]-th target return, and its risk is
    the square root of the variance of these weights. *)
Lemma generateEfficientFrontier_points
    (expectedReturns : obj) (covarianceMatrix : list (list R))
    (symbols : list string) (minReturn maxReturn : R) :
  min_list (values expectedReturns) = Some minReturn ->
  max_list (values expectedReturns) = Some maxReturn ->
  (forall symbol, symbol ∈ symbols -> symbol ∈ keys expectedReturns) ->
  (forall i j, (i < length symbols)%nat -> (j < length symbols)%nat ->
               is_Some (entry covarianceMatrix i j)) ->
  exists points,
    generateEfficientFrontier expectedReturns covarianceMatrix symbols
    = Some (sort (fun a b => FrontierPoint.risk a - FrontierPoint.risk b)
                 points)
    /\ Forall2
         (fun i p =>
            exists variance,
              meanVarianceOptimization expectedReturns covarianceMatrix symbols
                (minReturn
                 + INR i / INR numPortfolios * (maxReturn - minReturn))
              = Some (FrontierPoint.weights p)
              /\ calculatePortfolioVariance (FrontierPoint.weights p)
                                            covarianceMatrix symbols
                 = Some variance
              /\ FrontierPoint.risk p = Math_sqrt variance)
         (seq 0 (numPortfolios + 1)) points.
Proof.
  intros Hmin Hmax Hret Hcov. unfold generateEfficientFrontier.
  rewrite Hmin, Hmax. cbn [mbind option_bind].
  match goal with
  | |- context [Forall2 ?Q _ _] => set (Q0 := Q)
  end.
  match goal with
  | |- context [for_of ?xs ?body ?s0] =>
      destruct (for_of_invariant
                  (fun (seen : list nat) (frontier : list FrontierPoint.t) =>
                     Forall2 Q0 seen frontier)
                  body xs s0)
        as (frontier & -> & HQ)
  end; [constructor| |by eauto].
  intros seen i rest frontier _ HQ.
  destruct (meanVarianceOptimization_Some expectedReturns covarianceMatrix
              symbols Hret Hcov
              (minReturn
               + INR i / INR numPortfolios * (maxReturn - minReturn)))
    as (weights & Hw & Hkeys).
  rewrite Hw. cbn [mbind option_bind].
  destruct (calculatePortfolioReturn_Some expectedReturns symbols Hret
              weights) as [portfolioReturn ->]; [intros s; apply Hkeys|].
  cbn [mbind option_bind].
  destruct (calculatePortfolioVariance_Some covarianceMatrix symbols Hcov
              weights) as [variance Hvar]; [intros s; apply Hkeys|].
  rewrite Hvar. cbn [mbind option_bind]. eexists. split; [reflexivity|].
  apply Forall2_app; [done|]. constructor; [|constructor].
  exists variance. by repeat split.
Qed.

(** ** Weights of the two-asset solution *)

Lemma clip_unit_interval (x : R) : 0 <= Math_max 0 (Math_min 1 x) <= 1.
Proof.
  unfold Math_max, Math_min, Rmax, Rmin.
  repeat (destruct (Rle_dec _ _)); lra.
Qed.

(** The two-asset path clips: both weights lie in [0,1] and sum to 1. *)
Lemma twoAssetOptimization_weights_in_unit_interval
    (expectedReturns : obj) (covarianceMatrix : list (list R))
    (s0 s1 : string) (targetReturn : R) (weights : obj) :
  s0 <> s1 ->
  twoAssetOptimization expectedReturns covarianceMatrix [s0; s1] targetReturn
  = Some weights ->
  exists w1 w2,
    weights = [(s0, w1); (s1, w2)]
    /\ 0 <= w1 <= 1 /\ 0 <= w2 <= 1 /\ w1 + w2 = 1.
Proof.
  intros Hne. unfold twoAssetOptimization.
  cbn [lookup list_lookup mbind option_bind].
  destruct (get expectedReturns s0) as [r1|]; [|done].
  destruct (get expectedReturns s1) as [r2|]; [|done].
  cbn [mbind option_bind].
  destruct (entry covarianceMatrix 0 0) as [var1|]; [|done].
  destruct (entry covarianceMatrix 1 1) as [var2|]; [|done].
  destruct (entry covarianceMatrix 0 1) as [cov12|]; [|done].
  cbn [mbind option_bind].
  intros [= <-]. do 2 eexists. split.
  - cbn [set]. by rewrite decide_False by done.
  - match goal with
    | |- context [Math_max 0 (Math_min 1 ?x)] =>
        pose proof (clip_unit_interval x)
    end.
    lra.
Qed.

(** ** Weights of the multi-asset heuristic *)

Ltac js_sqrt y :=
  match goal with
  | |- context [sqrt ?x] => rewrite (sqrt_of_square x y) by lra
  end.

Ltac js_max :=
  match goal with
  | |- context [Rmax ?a ?b] =>
      first [ rewrite (Rmax_right a b) by lra | rewrite (Rmax_left a b) by lra ]
  end.

(** Three assets with volatilities 40%, 20%, 3% and expected returns 25%,
    10%, 3%; the target is the lowest of the three returns. *)
Lemma multiAssetHeuristicOptimization_example :
  exists wNVDA wSPY wBND,
    multiAssetHeuristicOptimization
      [("NVDA"%string, 0.25); ("SPY"%string, 0.10); ("BND"%string, 0.03)]
      [[0.16; 0; 0]; [0; 0.04; 0]; [0; 0; 0.0009]]
      ["NVDA"%string; "SPY"%string; "BND"%string] 0.03
    = Some [("NVDA"%string, wNVDA); ("SPY"%string, wSPY); ("BND"%string, wBND)]
    /\ wNVDA < -0.3 /\ 1.3 < wSPY /\ wBND = 0.
Proof.
  do 3 eexists. split.
  - unfold multiAssetHeuristicOptimization.
    js_eval. unfold Math_sqrt, Math_max, RISK_FREE_RATE.
    js_sqrt 0.4. js_sqrt 0.2. js_sqrt 0.03. repeat js_max.
    js_eval. unfold sum. cbn. js_eval.
    unfold calculatePortfolioReturn. js_eval.
    unfold Math_abs. repeat js_abs. js_eval.
    reflexivity.
  - repeat split; lra.
Qed.

(** C1 (what the code does on the multi-asset path).  For these three
    assets the frontier returned by the builder contains a point whose
    weights are negative for one asset and above 1 for another: the
    heuristic renormalizes the sum but never clips the weights. *)
Theorem generateEfficientFrontier_weight_outside_unit_interval :
  exists efficientFrontier p wNVDA wSPY,
    generateEfficientFrontier
      [("NVDA"%string, 0.25); ("SPY"%string, 0.10); ("BND"%string, 0.03)]
      [[0.16; 0; 0]; [0; 0.04; 0]; [0; 0; 0.0009]]
      ["NVDA"%string; "SPY"%string; "BND"%string]
    = Some efficientFrontier
    /\ p ∈ efficientFrontier
    /\ get (FrontierPoint.weights p) "NVDA" = Some wNVDA /\ wNVDA < 0
    /\ get (FrontierPoint.weights p) "SPY" = Some wSPY /\ 1 < wSPY.
Proof.
  set (expectedReturns :=
         [("NVDA"%string, 0.25); ("SPY"%string, 0.10); ("BND"%string, 0.03)]).
  set (covarianceMatrix := [[0.16; 0; 0]; [0; 0.04; 0]; [0; 0; 0.0009]]).
  set (symbols := ["NVDA"%string; "SPY"%string; "BND"%string]).
  assert (Hmin : min_list (values expectedReturns) = Some 0.03).
  { cbn. f_equal. unfold Rmin. repeat (destruct (Rle_dec _ _); try lra). }
  destruct (generateEfficientFrontier_points expectedReturns covarianceMatrix
              symbols 0.03 _ Hmin eq_refl)
    as (points & Hrun & Hpoints).
  { intros symbol Hin. exact Hin. }
  { intros i j Hi Hj. cbn in Hi, Hj.
    destruct i as [|[|[|i]]]; [| | |lia];
      (destruct j as [|[|[|j]]]; [| | |lia]); by eexists. }
  destruct points as [|p0 points]; [inversion Hpoints|].
  apply Forall2_cons_1 in Hpoints as [(variance & Hweights & _) _].
  destruct multiAssetHeuristicOptimization_example
    as (wNVDA & wSPY & wBND & Hexample & HNVDA & HSPY & _).
  replace (0.03 + INR 0 / INR numPortfolios * _) with 0.03 in Hweights
    by (cbn [INR]; lra).
  unfold meanVarianceOptimization in Hweights.
  rewrite decide_False in Hweights by (cbn; lia).
  fold expectedReturns covarianceMatrix symbols in Hexample.
  rewrite Hexample in Hweights. injection Hweights as Hweights.
  eexists _, p0, wNVDA, wSPY. split; [exact Hrun|].
  split; [rewrite sort_Permutation; by left|].
  rewrite <- Hweights. repeat split; try reflexivity; lra.
Qed.

(** ** Monte Carlo simulator: one day *)

#[local] Arguments INR : simpl never.

Lemma for_of_app {A S : Type} (body : A -> S -> option S) (xs ys : list A)
    (s : S) :
  for_of (xs ++ ys) body s = s' ← for_of xs body s; for_of ys body s'.
Proof.
  revert s. induction xs as [|x xs IH]; intros s; cbn; [done|].
  destruct (body x s) as [s1|]; cbn; [apply IH|done].
Qed.

Lemma array_from_length {A : Type} (f : Rand A) (n : nat) :
  forall s xs s', array_from n f s = Some (xs, s') -> length xs = n.
Proof.
  induction n as [|n IH]; intros s xs s'; cbn.
  - by intros [= <- _].
  - intros H. apply rand_bind_inv in H as (x & s1 & _ & H).
    apply rand_bind_inv in H as (xs' & s2 & Hxs & H).
    injection H as <- _. cbn. f_equal. by eapply IH.
Qed.

Lemma lift_Some {A : Type} (o : option A) (a : A) (s : rng) :
  o = Some a -> lift o s = Some (a, s).
Proof. by intros ->. Qed.

Section CorrelatedReturns.

Variables (symbols : list string) (expectedReturns : obj)
          (choleskyMatrix : list (list R)).

Hypothesis returns_known :
  forall symbol, symbol ∈ symbols -> symbol ∈ keys expectedReturns.
Hypothesis cholesky_lower :
  forall i j, (j <= i < length symbols)%nat ->
              is_Some (entry choleskyMatrix i j).

(** The value the source leaves at index [i]. *)
Let daily (z : list R) (i : nat) (c : R) : Prop :=
  exists symbol r lii shock,
    symbols !! i = Some symbol
    /\ get expectedReturns symbol = Some r
    /\ entry choleskyMatrix i i = Some lii
    /\ correlated_shock choleskyMatrix z i = Some shock
    /\ c = r / INR TRADING_DAYS + shock * Math_sqrt (lii / INR TRADING_DAYS).

Lemma generateCorrelatedReturnsCholesky_daily (s s' : rng) (z : list R) :
  array_from (length symbols) normalRandom s = Some (z, s') ->
  exists correlatedReturns,
    generateCorrelatedReturnsCholesky symbols expectedReturns choleskyMatrix s
    = Some (correlatedReturns, s')
    /\ length correlatedReturns = length symbols
    /\ forall i, (i < length symbols)%nat ->
         exists c, correlatedReturns !! i = Some c /\ daily z i c.
Proof.
  intros Hz. pose proof (array_from_length _ _ _ _ _ Hz) as Hzlen.
  unfold generateCorrelatedReturnsCholesky.
  erewrite rand_bind_Some by exact Hz.
  set (n := length symbols) in *.
  match goal with
  | |- context [for_of ?xs ?body ?s0] =>
      destruct (for_of_invariant
                  (fun (seen : list nat) (cr : list R) =>
                     length cr = n
                     /\ (forall i, i ∈ seen ->
                           exists c, cr !! i = Some c /\ daily z i c)
                     /\ (forall i, i ∉ seen -> (i < n)%nat ->
                           cr !! i = Some 0))
                  body xs s0)
        as (cr & Hcr & Hlen & Hdone & _)
  end.
  - split; [by rewrite length_replicate|]. split.
    + intros i Hi. inversion Hi.
    + intros i _ Hi. by apply lookup_replicate_2.
  - intros seen i rest cr Hi (Hlen & Hdone & Htodo).
    pose proof Hi as Hi'. apply seq_split_index in Hi' as [Hiseen Hin].
    assert (Hfresh : i ∉ seen).
    { intros Hmem. apply list_elem_of_lookup_1 in Hmem as [k Hk].
      assert (Hk' : seq 0 n !! k = Some i).
      { rewrite Hi. by apply lookup_app_l_Some. }
      apply lookup_seq in Hk' as [-> _].
      apply lookup_lt_Some in Hk. lia. }
    (* the inner loop accumulates the shock at index i *)
    match goal with
    | |- context [for_of (seq 0 (S i)) ?body cr] =>
        destruct (for_of_invariant
                    (fun (seen' : list nat) (cr' : list R) =>
                       length cr' = n
                       /\ (forall k, k <> i -> cr' !! k = cr !! k)
                       /\ exists shock,
                            for_of seen' (fun j shock =>
                              l ← entry choleskyMatrix i j;
                              zj ← z !! j;
                              Some (shock + l * zj)) 0 = Some shock
                            /\ cr' !! i = Some shock)
                    body (seq 0 (S i)) cr)
          as (cr' & -> & Hlen' & Hsame & shock & Hshock & Hcri)
    end.
    + split; [done|]. split; [done|]. exists 0. split; [done|].
      by apply Htodo.
    + intros seen' j rest' cr' Hj (Hlen' & Hsame & shock & Hshock & Hcri).
      apply seq_split_index in Hj as [_ Hj].
      rewrite Hcri. cbn [mbind option_bind].
      destruct (cholesky_lower i j) as [l Hl]; [lia|]. rewrite Hl.
      cbn [mbind option_bind].
      destruct (lookup_lt_is_Some_2 z j) as [zj Hzj]; [lia|]. rewrite Hzj.
      cbn [mbind option_bind]. eexists. split; [reflexivity|].
      split; [by rewrite length_insert|]. split.
      * intros k Hk. rewrite list_lookup_insert_ne by done. by apply Hsame.
      * exists (shock + l * zj). split.
        -- rewrite for_of_app, Hshock. cbn. by rewrite Hl, Hzj.
        -- apply list_lookup_insert_eq. lia.
    + cbn [mbind option_bind].
      destruct (lookup_lt_is_Some_2 symbols i Hin) as [symbol Hsym].
      rewrite Hsym. cbn [mbind option_bind].
      destruct (proj2 (get_is_Some expectedReturns symbol)) as [r Hr];
        [by eapply returns_known, list_elem_of_lookup_2|].
      rewrite Hr. cbn [mbind option_bind].
      destruct (cholesky_lower i i) as [lii Hlii]; [lia|]. rewrite Hlii.
      cbn [mbind option_bind]. rewrite Hcri. cbn [mbind option_bind].
      eexists. split; [reflexivity|].
      split; [by rewrite length_insert|]. split.
      * intros k. rewrite elem_of_app, list_elem_of_singleton.
        intros [Hk | ->].
        -- destruct (Hdone k Hk) as (c & Hc & Hdaily). exists c. split; [|done].
           rewrite list_lookup_insert_ne by (intros ->; done).
           rewrite Hsame by (intros ->; done). done.
        -- eexists. split; [apply list_lookup_insert_eq; lia|].
           exists symbol, r, lii, shock. by repeat split.
      * intros k Hk Hkn. rewrite not_elem_of_app, list_elem_of_singleton in Hk.
        destruct Hk as [Hk Hki].
        rewrite list_lookup_insert_ne by done. rewrite Hsame by done.
        by apply Htodo.
  - exists cr. split; [by rewrite (lift_Some _ cr)|]. split; [done|].
    intros i Hi. apply Hdone. apply elem_of_seq. lia.
Qed.

End CorrelatedReturns.

(** ** Monte Carlo simulator: a generator that repeats itself *)

Lemma normalRandom_pair (u v : R) (s : rng) :
  u <> 0 -> v <> 0 ->
  normalRandom (u :: v :: s)
  = Some (Math_sqrt (-2.0 * Math_log u) * Math_cos (2.0 * Math_PI * v), s).
Proof.
  intros Hu Hv. unfold normalRandom. cbn [random_nonzero].
  rewrite (eqb_false u 0) by done. cbn [mbind option_bind].
  cbn [random_nonzero]. by rewrite (eqb_false v 0) by done.
Qed.

Lemma normalRandom_zero (s : rng) :
  normalRandom (1 / 2 :: 1 / 4 :: s) = Some (0, s).
Proof.
  rewrite normalRandom_pair by lra. do 2 f_equal.
  unfold Math_cos, Math_PI.
  replace (2.0 * PI * (1 / 4)) with (PI / 2) by lra.
  rewrite cos_PI2. lra.
Qed.

Lemma ln_2_bounds : / 2 < ln 2 < 1.
Proof.
  split; [exact ln_lt_2|].
  rewrite <- (ln_exp 1). apply ln_increasing; [lra|].
  pose proof (exp_ineq1 1). lra.
Qed.

Lemma sqrt_2_ln_2_bounds : 1 < sqrt (2 * ln 2) < 2.
Proof.
  pose proof ln_2_bounds as [Hlo Hhi]. split.
  - assert (H : sqrt 1 < sqrt (2 * ln 2)) by (apply sqrt_lt_1; lra).
    by rewrite sqrt_1 in H.
  - assert (H : sqrt (2 * ln 2) < sqrt 4) by (apply sqrt_lt_1; lra).
    by rewrite (sqrt_of_square 4 2) in H by lra.
Qed.

(** Two draws of 1/2 give the normal variate [- sqrt (2 ln 2)], about
    -1.18. *)
Lemma normalRandom_half (s : rng) :
  normalRandom (1 / 2 :: 1 / 2 :: s) = Some (- sqrt (2 * ln 2), s).
Proof.
  rewrite normalRandom_pair by lra. do 2 f_equal.
  unfold Math_cos, Math_PI, Math_log, Math_sqrt.
  replace (2.0 * PI * (1 / 2)) with PI by lra.
  replace (1 / 2) with (/ 2) by lra. rewrite ln_Rinv by lra.
  replace (-2.0 * - ln 2) with (2 * ln 2) by lra.
  rewrite cos_PI. lra.
Qed.

Section OneAsset.

Variables (a : string) (w r l u v z : R).
Hypothesis normal_z : forall s, normalRandom (u :: v :: s) = Some (z, s).

Let d : R := 0 + w * (r / INR TRADING_DAYS
                      + (0 + l * z) * Math_sqrt (l / INR TRADING_DAYS)).

Lemma simulateDay_one_asset (portfolioValue : R) (k : nat) (s : rng) :
  simulateDay [(a, w)] [(a, r)] [[l]] [a] portfolioValue (draws (S k) u v s)
  = Some (portfolioValue * (1 + d), draws k u v s).
Proof.
  unfold simulateDay, generateCorrelatedReturnsCholesky.
  cbn [length array_from draws].
  unfold mbind at 1. unfold Rand_bind at 1.
  unfold mbind at 1. unfold Rand_bind at 1.
  unfold mbind at 1. unfold Rand_bind at 1.
  rewrite normal_z.  cbn. rewrite !decide_True by done. cbn. reflexivity.
Qed.


Lemma simulate_days (days : nat) :
  forall (first : nat) (portfolioValue : R) (k : nat) (s : rng),
    for_of (seq first days) (fun day portfolioValue =>
      simulateDay [(a, w)] [(a, r)] [[l]] [a] portfolioValue)
      portfolioValue (draws (days + k) u v s)
    = Some (portfolioValue * (1 + d) ^ days, draws k u v s).
Proof.
  induction days as [|days IH]; intros first portfolioValue k s.
  - cbn [seq for_of draws pow plus]. by rewrite Rmult_1_r.
  - cbn [seq for_of]. change (S days + k)%nat with (S (days + k)).
    erewrite rand_bind_Some by apply simulateDay_one_asset.
    rewrite IH. do 2 f_equal. cbn [pow]. by rewrite Rmult_assoc.
Qed.

Lemma simulate_scenarios (initialValue : R) (scenarios : nat) :
  forall (first : nat) (results : list R) (k : nat) (s : rng),
    for_of (seq first scenarios) (fun scenario results =>
      portfolioValue ← for_of (seq 0 TRADING_DAYS) (fun day portfolioValue =>
        simulateDay [(a, w)] [(a, r)] [[l]] [a] portfolioValue) initialValue;
      mret (results ++ [portfolioValue]))
      results (draws (scenarios * TRADING_DAYS + k) u v s)
    = Some (results
            ++ replicate scenarios (initialValue * (1 + d) ^ TRADING_DAYS),
            draws k u v s).
Proof.
  induction scenarios as [|scenarios IH]; intros first results k s.
  - cbn [seq for_of replicate]. by rewrite app_nil_r.
  - cbn [seq for_of replicate].
    replace (S scenarios * TRADING_DAYS + k)%nat
      with (TRADING_DAYS + (scenarios * TRADING_DAYS + k))%nat by lia.
    erewrite rand_bind_Some; cycle 1.
    { erewrite rand_bind_Some by apply simulate_days. reflexivity. }
    rewrite IH. by rewrite <- app_assoc.
Qed.

End OneAsset.

Lemma sort_replicate (n : nat) (x : R) :
  sort (fun a b => a - b) (replicate n x) = replicate n x.
Proof.
  induction n as [|n IH]; [done|].
  cbn [replicate sort foldr]. fold (sort (fun a b => a - b) (replicate n x)).
  rewrite IH. destruct n as [|n]; [done|].
  cbn [replicate insert_by]. by rewrite leb_true by lra.
Qed.

Lemma percentile_replicate (x p : R) (i : Z) :
  IZR i <= 1000 * p < IZR i + 1 -> (0 <= i < 1000)%Z ->
  percentile (replicate 1000 x) p = Some x.
Proof.
  intros Hp Hi. unfold percentile. rewrite length_replicate.
  replace (INR 1000) with 1000 by (rewrite INR_IZR_INZ; reflexivity).
  rewrite (Zfloor_eq i) by done.
  apply lookup_replicate_2. lia.
Qed.

(** One asset, and a generator that delivers the same two non-zero draws
    over and over: every scenario ends on the same value, which is every
    percentile. *)
Lemma simulation_on_repeated_draws
    (a : string) (w r c l initialValue u v z : R) (s : rng) :
  choleskyDecomposition [[c]] = Some [[l]] ->
  (forall s, normalRandom (u :: v :: s) = Some (z, s)) ->
  let final :=
    initialValue
    * (1 + (0 + w * (r / INR TRADING_DAYS
                     + (0 + l * z) * Math_sqrt (l / INR TRADING_DAYS))))
      ^ TRADING_DAYS in
  exists m,
    runAdvancedMonteCarloSimulation [(a, w)] [(a, r)] [[c]] initialValue [a]
      (draws (MONTE_CARLO_SCENARIOS * TRADING_DAYS) u v s)
    = Some (m, s)
    /\ MonteCarloResults.percentile_5 m = final
    /\ MonteCarloResults.percentile_25 m = final
    /\ MonteCarloResults.percentile_75 m = final
    /\ MonteCarloResults.percentile_95 m = final.
Proof.
  intros Hchol Hz final. unfold runAdvancedMonteCarloSimulation.
  rewrite Hchol.
  erewrite rand_bind_Some by reflexivity.
  erewrite rand_bind_Some; cycle 1.
  { replace (MONTE_CARLO_SCENARIOS * TRADING_DAYS)%nat
      with (MONTE_CARLO_SCENARIOS * TRADING_DAYS + 0)%nat by lia.
    apply (simulate_scenarios a w r l u v z Hz). }
  cbn [app draws]. fold final. unfold MONTE_CARLO_SCENARIOS.
  rewrite !sort_replicate.
  rewrite (percentile_replicate final 0.05 50) by (lra || lia).
  rewrite (percentile_replicate final 0.25 250) by (lra || lia).
  rewrite (percentile_replicate final 0.75 750) by (lra || lia).
  rewrite (percentile_replicate final 0.95 950) by (lra || lia).
  cbn [mbind option_bind lift]. eexists. split; [reflexivity|]. by cbn.
Qed.

(** ** Monte Carlo simulator: dependence on the draws *)

Section Draws.

Lemma reads_only_ret {A : Type} (a : A) : reads_only_its_draws (mret a).
Proof.
  intros s a' s' [= <- <-]. exists []. split; [done|]. by intros t.
Qed.

Lemma reads_only_lift {A : Type} (o : option A) : reads_only_its_draws (lift o).
Proof.
  intros s a s' H. unfold lift in *. destruct o as [x|]; [|done].
  injection H as <- <-. exists []. split; [done|]. by intros t.
Qed.

Lemma reads_only_bind {A B : Type} (m : Rand A) (f : A -> Rand B) :
  reads_only_its_draws m -> (forall a, reads_only_its_draws (f a)) ->
  reads_only_its_draws (a ← m; f a).
Proof.
  intros Hm Hf s b s'' H.
  apply rand_bind_inv in H as (a & s' & Hms & Hfs).
  destruct (Hm s a s' Hms) as (used1 & -> & Hm').
  destruct (Hf a s' b s'' Hfs) as (used2 & -> & Hf').
  exists (used1 ++ used2). split; [by rewrite app_assoc|].
  intros t. rewrite <- app_assoc.
  erewrite rand_bind_Some by apply Hm'. apply Hf'.
Qed.

Lemma reads_only_random_nonzero : reads_only_its_draws random_nonzero.
Proof.
  intros s. induction s as [|x s IH]; intros a s' H; [done|].
  cbn [random_nonzero] in H. destruct (eqb x 0) eqn:Hx.
  - destruct (IH a s' H) as (used & -> & Hused).
    exists (x :: used). split; [done|]. intros t. cbn. by rewrite Hx.
  - injection H as <- <-. exists [x]. split; [done|]. intros t. cbn.
    by rewrite Hx.
Qed.

Lemma reads_only_normalRandom : reads_only_its_draws normalRandom.
Proof.
  intros s z s' H. unfold normalRandom in H.
  destruct (random_nonzero s) as [[u s1]|] eqn:Hu; [|done]. cbn in H.
  destruct (random_nonzero s1) as [[v s2]|] eqn:Hv; [|done]. cbn in H.
  injection H as <- <-.
  destruct (reads_only_random_nonzero s u s1 Hu) as (used1 & -> & H1).
  destruct (reads_only_random_nonzero s1 v s2 Hv) as (used2 & -> & H2).
  exists (used1 ++ used2). split; [by rewrite app_assoc|].
  intros t. unfold normalRandom. rewrite <- app_assoc, H1. cbn.
  by rewrite H2.
Qed.

Lemma reads_only_array_from {A : Type} (n : nat) (f : Rand A) :
  reads_only_its_draws f -> reads_only_its_draws (array_from n f).
Proof.
  intros Hf. induction n as [|n IH]; cbn [array_from].
  - apply reads_only_ret.
  - apply reads_only_bind; [done|]. intros x.
    apply reads_only_bind; [done|]. intros xs. apply reads_only_ret.
Qed.

Lemma reads_only_for_of {A S : Type} (xs : list A) (body : A -> S -> Rand S) :
  (forall x s, reads_only_its_draws (body x s)) ->
  forall s0, reads_only_its_draws (for_of xs body s0).
Proof.
  intros Hbody. induction xs as [|x xs IH]; intros s0; cbn [for_of].
  - apply reads_only_ret.
  - apply reads_only_bind; [apply Hbody|]. intros s1. apply IH.
Qed.

End Draws.

Lemma reads_only_simulateDay
    (weights expectedReturns : obj) (choleskyMatrix : list (list R))
    (symbols : list string) (portfolioValue : R) :
  reads_only_its_draws
    (simulateDay weights expectedReturns choleskyMatrix symbols portfolioValue).
Proof.
  unfold simulateDay. apply reads_only_bind.
  - unfold generateCorrelatedReturnsCholesky. apply reads_only_bind.
    + apply reads_only_array_from, reads_only_normalRandom.
    + intros z. apply reads_only_lift.
  - intros cr. apply reads_only_bind; [apply reads_only_lift|].
    intros dr. apply reads_only_ret.
Qed.

(** C2 (as amended).  The simulator draws from the ambient generator; its
    whole result, percentiles included, is determined by the inputs and by
    the draws it consumes: they are a prefix of the draws available, and any
    run on the same inputs that is given the same prefix returns the same
    result, whatever draws follow. *)
Theorem runAdvancedMonteCarloSimulation_depends_on_draws
    (weights expectedReturns : obj) (covarianceMatrix : list (list R))
    (initialValue : R) (symbols : list string)
    (s : rng) (m : MonteCarloResults.t) (s' : rng) :
  runAdvancedMonteCarloSimulation weights expectedReturns covarianceMatrix
                                  initialValue symbols s = Some (m, s') ->
  exists used,
    s = used ++ s'
    /\ forall t,
         runAdvancedMonteCarloSimulation weights expectedReturns
           covarianceMatrix initialValue symbols (used ++ t) = Some (m, t).
Proof.
  revert s m s'.
  change (reads_only_its_draws
            (runAdvancedMonteCarloSimulation weights expectedReturns
               covarianceMatrix initialValue symbols)).
  unfold runAdvancedMonteCarloSimulation.
  apply reads_only_bind; [apply reads_only_lift|]. intros choleskyMatrix.
  apply reads_only_bind.
  - apply reads_only_for_of. intros scenario results.
    apply reads_only_bind.
    + apply reads_only_for_of. intros day portfolioValue.
      apply reads_only_simulateDay.
    + intros portfolioValue. apply reads_only_ret.
  - intros results. apply reads_only_lift.
Qed.

Lemma choleskyDecomposition_one_asset :
  choleskyDecomposition [[0.04]] = Some [[0.2]].
Proof.
  unfold choleskyDecomposition. js_eval. unfold set_entry. cbn.
  unfold Math_sqrt, Math_max. do 3 f_equal.
  rewrite Rmax_right by lra. apply sqrt_of_square; lra.
Qed.

Lemma sqrt_daily_bounds : 0.02 < sqrt (0.2 / 252) < 0.03.
Proof.
  split.
  - rewrite <- (sqrt_of_square 0.0004 0.02) by lra. apply sqrt_lt_1; lra.
  - rewrite <- (sqrt_of_square 0.0009 0.03) by lra. apply sqrt_lt_1; lra.
Qed.

(** A run on one asset with a generator that repeats the draws 1/2, 1/4. *)
Lemma runAdvancedMonteCarloSimulation_depends_on_draws_witness :
  exists m used,
    draws (MONTE_CARLO_SCENARIOS * TRADING_DAYS) (1 / 2) (1 / 4) []
    = used ++ []
    /\ forall t,
         runAdvancedMonteCarloSimulation
           [("SPY"%string, 1)] [("SPY"%string, 0.1)] [[0.04]] 100000
           ["SPY"%string] (used ++ t) = Some (m, t).
Proof.
  destruct (simulation_on_repeated_draws "SPY" 1 0.1 0.04 0.2 100000
              (1 / 2) (1 / 4) 0 [] choleskyDecomposition_one_asset
              normalRandom_zero) as (m & Hrun & _).
  exists m.
  exact (runAdvancedMonteCarloSimulation_depends_on_draws _ _ _ _ _ _ _ _ Hrun).
Defined.

(** Reproducibility from a seed fails: the simulator takes no random source
    and no seed, and two runs on identical inputs report different
    percentiles when [Math.random] delivers different draws (here a
    generator that repeats 1/2, 1/4, and one that repeats 1/2, 1/2). *)
Lemma simulation_differs_between_runs :
  exists m1 m2,
    runAdvancedMonteCarloSimulation
      [("SPY"%string, 1)] [("SPY"%string, 0.1)] [[0.04]] 100000 ["SPY"%string]
      (draws (MONTE_CARLO_SCENARIOS * TRADING_DAYS) (1 / 2) (1 / 4) [])
    = Some (m1, [])
    /\ runAdvancedMonteCarloSimulation
         [("SPY"%string, 1)] [("SPY"%string, 0.1)] [[0.04]] 100000
         ["SPY"%string]
         (draws (MONTE_CARLO_SCENARIOS * TRADING_DAYS) (1 / 2) (1 / 2) [])
       = Some (m2, [])
    /\ MonteCarloResults.percentile_5 m1 <> MonteCarloResults.percentile_5 m2.
Proof.
  destruct (simulation_on_repeated_draws "SPY" 1 0.1 0.04 0.2 100000
              (1 / 2) (1 / 4) 0 [] choleskyDecomposition_one_asset
              normalRandom_zero) as (m1 & Hrun1 & Hp1 & _).
  destruct (simulation_on_repeated_draws "SPY" 1 0.1 0.04 0.2 100000
              (1 / 2) (1 / 2) (- sqrt (2 * ln 2)) []
              choleskyDecomposition_one_asset
              normalRandom_half) as (m2 & Hrun2 & Hp2 & _).
  exists m1, m2. split; [done|]. split; [done|].
  rewrite Hp1, Hp2, INR_TRADING_DAYS. unfold Math_sqrt.
  pose proof sqrt_daily_bounds as [Hlo Hhi].
  pose proof sqrt_2_ln_2_bounds as [Hglo Hghi].
  set (x := sqrt (0.2 / 252)) in *. set (g := sqrt (2 * ln 2)) in *.
  assert (Hgx : 0.02 < g * x < 0.06) by nra.
  assert (H1 : 1 <= (1 + (0 + 1 * (0.1 / 252 + (0 + 0.2 * 0) * x)))
                    ^ TRADING_DAYS).
  { apply pow_R1_Rle. lra. }
  assert (H2 : 0 <= (1 + (0 + 1 * (0.1 / 252 + (0 + 0.2 * - g) * x)))
                    ^ TRADING_DAYS < 1).
  { apply pow_lt_1_compat; [lra|]. unfold TRADING_DAYS. lia. }
  lra.
Qed.

(** ** Monte Carlo simulator: the scale of the daily shock *)

(** C3 (what the code does).  One asset of variance 0.04 (volatility 20%)
    and expected return 10%, on a day whose two draws are 1/2 and 1/2
    (normal variate [z], about -1.18): the Cholesky factor is 0.2, the
    correlated shock is [0.2 * z], and the daily return is
    [0.1/252 + 0.2 * z * sqrt(0.2/252)].  The shock is scaled by the square
    root of the diagonal of the Cholesky factor over 252, not by the
    per-day volatility [sqrt(0.04/252)] of the covariance diagonal. *)
Theorem generateCorrelatedReturnsCholesky_scales_by_cholesky_diagonal :
  exists L z dailyReturn,
    choleskyDecomposition [[0.04]] = Some L
    /\ normalRandom [1 / 2; 1 / 2] = Some (z, [])
    /\ generateCorrelatedReturnsCholesky ["SPY"%string] [("SPY"%string, 0.1)] L
         [1 / 2; 1 / 2]
       = Some ([dailyReturn], [])
    /\ correlated_shock L [z] 0 = Some (0 + 0.2 * z)
    /\ dailyReturn = 0.1 / 252 + (0 + 0.2 * z) * sqrt (0.2 / 252)
    /\ dailyReturn <> 0.1 / 252 + (0 + 0.2 * z) * sqrt (0.04 / 252).
Proof.
  exists [[0.2]], (- sqrt (2 * ln 2)). eexists.
  split; [apply choleskyDecomposition_one_asset|].
  split; [apply normalRandom_half|].
  split; [|split; [|split]].
  - unfold generateCorrelatedReturnsCholesky. cbn [length array_from].
    unfold mbind at 1. unfold Rand_bind at 1.
    unfold mbind at 1. unfold Rand_bind at 1.
    rewrite normalRandom_half. cbn. rewrite !decide_True by done. cbn.
    reflexivity.
  - reflexivity.
  - rewrite INR_TRADING_DAYS. unfold Math_sqrt. reflexivity.
  - rewrite INR_TRADING_DAYS. unfold Math_sqrt.
    pose proof sqrt_daily_bounds as [Hlo Hhi].
    pose proof sqrt_2_ln_2_bounds as [Hglo Hghi].
    assert (Hs : sqrt (0.04 / 252) < 0.02).
    { rewrite <- (sqrt_of_square 0.0004 0.02) by lra. apply sqrt_lt_1; lra. }
    set (x1 := sqrt (0.2 / 252)) in *. set (x2 := sqrt (0.04 / 252)) in *.
    set (g := sqrt (2 * ln 2)) in *. nra.
Qed.

(** * Further properties of the service *)

(** ** Returns of a price series *)

Lemma calculateReturns_length (prices : list R) :
  length (calculateReturns prices) = (length prices - 1)%nat.
Proof.
  unfold calculateReturns. rewrite length_zip_with, length_drop. lia.
Qed.

Lemma calculateReturns_lookup (prices : list R) (i : nat) (p q : R) :
  prices !! i = Some p -> prices !! S i = Some q ->
  calculateReturns prices !! i = Some ((q - p) / p).
Proof.
  intros Hp Hq. unfold calculateReturns.
  rewrite lookup_zip_with, Hp. cbn.
  rewrite lookup_drop. cbn. by rewrite Hq.
Qed.

(** X1.  A series of [n] non-zero prices has [n - 1] returns, and each
    return compounds a price into the next one:
    [prices[i] * (1 + returns[i]) = prices[i + 1]]. *)
Theorem calculateReturns_compound (prices : list R) :
  Forall (fun p => p <> 0) prices ->
  length (calculateReturns prices) = (length prices - 1)%nat
  /\ forall i p q,
       prices !! i = Some p -> prices !! S i = Some q ->
       exists r, calculateReturns prices !! i = Some r /\ p * (1 + r) = q.
Proof.
  intros Hnz. split; [apply calculateReturns_length|].
  intros i p q Hp Hq. eexists. split; [by apply calculateReturns_lookup|].
  assert (Hp0 : p <> 0).
  { rewrite Forall_forall in Hnz. by eapply Hnz, list_elem_of_lookup_2. }
  field. exact Hp0.
Qed.

Lemma calculateReturns_compound_witness :
  length (calculateReturns [100; 110; 99]) = 2%nat
  /\ forall i p q,
       [100; 110; 99] !! i = Some p -> [100; 110; 99] !! S i = Some q ->
       exists r, calculateReturns [100; 110; 99] !! i = Some r
                 /\ p * (1 + r) = q.
Proof.
  apply (calculateReturns_compound [100; 110; 99]).
  repeat (apply Forall_cons; split; [lra|]). apply Forall_nil_2.
Defined.

(** ** Synthetic price history *)

Section PriceHistoryShape.

Variables (currentPrice drift diffusion : R).

(** The price made from the current price and the variate [z]. *)
Let shocked (z : R) : R := currentPrice / Math_exp (drift + z * diffusion).

Let step (i : nat) (prices : list R) : Rand (list R) :=
  z ← normalRandom;
  let randomShock := z * diffusion in
  p ← lift (prices !! (i - 1)%nat);
  let previousPrice := p / Math_exp (drift + randomShock) in
  mret (previousPrice :: prices).

(** The loop draws the variates that [k] successive calls of [normalRandom]
    return, and puts the price made from each of them in front. *)
Lemma price_loop_variates (k : nat) :
  forall (i : nat) (front : list R) (s : rng),
  length front = (i - 1)%nat -> (1 <= i)%nat ->
  (2 * k <= nonzero_draws s)%nat ->
  exists zs s',
    array_from k normalRandom s = Some (zs, s')
    /\ for_of (seq i k) step (front ++ [currentPrice]) s
       = Some (reverse (shocked <$> zs) ++ front ++ [currentPrice], s')
    /\ length zs = k
    /\ nonzero_draws s' = (nonzero_draws s - 2 * k)%nat.
Proof.
  induction k as [|k IH]; intros i front s Hlen Hi Hs.
  - exists [], s. cbn. repeat split; lia.
  - destruct (normalRandom_Some s) as (z & s1 & Hz & Hs1); [lia|].
    assert (Hp : (front ++ [currentPrice]) !! (i - 1)%nat = Some currentPrice).
    { rewrite lookup_app_r by lia. by rewrite Hlen, Nat.sub_diag. }
    destruct (IH (S i) (shocked z :: front) s1)
      as (zs & s' & Hzs & Hloop & Hlen' & Hs'); [cbn; lia|lia|lia|].
    exists (z :: zs), s'. repeat split; [| |cbn; lia|lia].
    + cbn [array_from]. erewrite rand_bind_Some by exact Hz.
      erewrite rand_bind_Some by exact Hzs. reflexivity.
    + cbn [seq for_of]. erewrite rand_bind_Some.
      * rewrite Hloop. rewrite fmap_cons, reverse_cons, <- app_assoc. reflexivity.
      * unfold step. erewrite rand_bind_Some by exact Hz.
        rewrite Hp. reflexivity.
Qed.

End PriceHistoryShape.

Lemma generateRealisticPriceHistory_variates
    (currentPrice annualVolatility annualReturn : R) (days : nat) (s : rng) :
  (2 <= days)%nat ->
  (2 * (days - 1) <= nonzero_draws s)%nat ->
  exists zs s',
    array_from (days - 1) normalRandom s = Some (zs, s')
    /\ generateRealisticPriceHistory currentPrice annualVolatility annualReturn
                                     days s
       = Some (reverse (fmap (fun z =>
                           currentPrice
                           / Math_exp (annualReturn * (1 / INR TRADING_DAYS)
                                       + z * (annualVolatility
                                              * Math_sqrt
                                                  (1 / INR TRADING_DAYS))))
                        (take (days - 2) zs))
               ++ [currentPrice], s')
    /\ length zs = (days - 1)%nat
    /\ nonzero_draws s' = (nonzero_draws s - 2 * (days - 1))%nat.
Proof.
  intros Hdays Hs. unfold generateRealisticPriceHistory.
  destruct (price_loop_variates currentPrice
              (annualReturn * (1 / INR TRADING_DAYS))
              (annualVolatility * Math_sqrt (1 / INR TRADING_DAYS))
              (days - 1) 1 [] s)
    as (zs & s' & Hzs & Hloop & Hlen & Hs'); [done|lia|done|].
  cbn [app] in Hloop.
  exists zs, s'. split; [done|]. split; [|done].
  erewrite rand_bind_Some by exact Hloop.
  destruct (days - 1)%nat as [|k] eqn:Hk; [lia|].
  replace (days - 2)%nat with k by lia.
  assert (Hlast : is_Some (zs !! k)) by (apply lookup_lt_is_Some_2; lia).
  destruct Hlast as [z Hz].
  rewrite <- (take_drop k zs) at 1.
  rewrite (drop_S _ _ _ Hz), (drop_ge zs (S k)) by lia.
  rewrite fmap_app, reverse_app. reflexivity.
Qed.

Lemma generateRealisticPriceHistory_shape
    (currentPrice annualVolatility annualReturn : R) (days : nat) (s : rng) :
  (2 <= days)%nat ->
  (2 * (days - 1) <= nonzero_draws s)%nat ->
  exists earlier s',
    generateRealisticPriceHistory currentPrice annualVolatility annualReturn
                                  days s
    = Some (earlier ++ [currentPrice], s')
    /\ length earlier = (days - 2)%nat
    /\ Forall (fun p =>
                 exists z,
                   p = currentPrice
                       / Math_exp (annualReturn * (1 / INR TRADING_DAYS)
                                   + z * (annualVolatility
                                          * Math_sqrt (1 / INR TRADING_DAYS))))
              earlier
    /\ nonzero_draws s' = (nonzero_draws s - 2 * (days - 1))%nat.
Proof.
  intros Hdays Hs.
  destruct (generateRealisticPriceHistory_variates currentPrice
              annualVolatility annualReturn days s Hdays Hs)
    as (zs & s' & Hzs & Hrun & Hlen & Hs').
  eexists _, s'. split; [exact Hrun|]. split; [|split; [|done]].
  - rewrite length_reverse, length_fmap, length_take. lia.
  - rewrite Forall_forall. intros p Hp.
    rewrite elem_of_reverse in Hp. apply list_elem_of_fmap in Hp as (z & -> & _).
    by exists z.
Qed.

(** X2.  Given enough non-zero draws, the generated series is made from the
    [days - 1] variates that successive calls of [normalRandom] return: the
    price [k] places before the current price is the current price divided
    by the exponential of the drift and of the [k]-th variate alone, so
    that the shocks do not accumulate along the series; the variate drawn
    last is not used; and all prices are positive when the current price
    is. *)
Theorem generateRealisticPriceHistory_prices
    (currentPrice annualVolatility annualReturn : R) (days : nat) (s : rng) :
  (2 <= days)%nat ->
  (2 * (days - 1) <= nonzero_draws s)%nat ->
  exists zs s' prices,
    array_from (days - 1) normalRandom s = Some (zs, s')
    /\ generateRealisticPriceHistory currentPrice annualVolatility annualReturn
                                     days s
       = Some (prices, s')
    /\ prices
       = reverse (fmap (fun z =>
                     currentPrice
                     / Math_exp (annualReturn * (1 / INR TRADING_DAYS)
                                 + z * (annualVolatility
                                        * Math_sqrt (1 / INR TRADING_DAYS))))
                  (take (days - 2) zs))
         ++ [currentPrice]
    /\ (0 < currentPrice -> Forall (fun p => 0 < p) prices).
Proof.
  intros Hdays Hs.
  destruct (generateRealisticPriceHistory_variates currentPrice
              annualVolatility annualReturn days s Hdays Hs)
    as (zs & s' & Hzs & Hrun & _ & _).
  eexists zs, s', _. split; [done|]. split; [exact Hrun|].
  split; [reflexivity|].
  intros Hpos. apply Forall_app. split.
  - rewrite Forall_forall. intros p Hp.
    rewrite elem_of_reverse in Hp. apply list_elem_of_fmap in Hp as (z & -> & _).
    apply Rdiv_lt_0_compat; [done|apply exp_pos].
  - by apply Forall_singleton.
Qed.

Lemma generateRealisticPriceHistory_prices_witness :
  exists zs s' prices,
    array_from 251 normalRandom (replicate 502 0.5) = Some (zs, s')
    /\ generateRealisticPriceHistory 100 0.25 0.1 HISTORICAL_DAYS
                                     (replicate 502 0.5)
       = Some (prices, s')
    /\ prices
       = reverse (fmap (fun z =>
                     100 / Math_exp (0.1 * (1 / INR TRADING_DAYS)
                                     + z * (0.25
                                            * Math_sqrt
                                                (1 / INR TRADING_DAYS))))
                  (take 250 zs))
         ++ [100]
    /\ Forall (fun p => 0 < p) prices.
Proof.
  destruct (generateRealisticPriceHistory_prices 100 0.25 0.1 HISTORICAL_DAYS
              (replicate 502 0.5))
    as (zs & s' & prices & Hzs & Hrun & Hprices & Hpos).
  - unfold HISTORICAL_DAYS. lia.
  - rewrite nonzero_draws_replicate by lra. unfold HISTORICAL_DAYS. lia.
  - exists zs, s', prices. repeat split; [done..|].
    apply Hpos. lra.
Defined.

(** ** Volatility and drift assumptions *)

Lemma or_default_bounds (fallback lo hi : R) (o : obj) (symbol : string) :
  0 < lo -> lo <= fallback <= hi ->
  Forall (fun '(_, v) => lo <= v <= hi) o ->
  lo <= or_default fallback (get o symbol) <= hi.
Proof.
  intros Hlo Hfb Ho. unfold or_default.
  destruct (get o symbol) as [v|] eqn:Hget; [|done].
  unfold eqb. case_bool_decide; [done|].
  induction o as [|[k v'] o IH]; [done|].
  apply Forall_cons in Ho as [Hv Ho]. cbn in Hget.
  destruct (decide (symbol = k)); [by injection Hget as <-|by apply IH].
Qed.

Lemma get_None (o : obj) (k : string) : k ∉ keys o -> get o k = None.
Proof.
  intros Hk. destruct (get o k) as [v|] eqn:Hget; [|done].
  destruct Hk. apply get_is_Some. by exists v.
Qed.

(** X3.  A symbol that is not a name inherited from [Object.prototype] gets
    a volatility between 3% and 45% and a drift between 3% and 25%; outside
    the 14 symbols of the tables it gets 25% and 10%. *)
Theorem historical_assumptions_bounds (symbol : string) :
  symbol ∉ Object_prototype_names ->
  0.03 <= getHistoricalVolatility symbol <= 0.45
  /\ 0.03 <= getHistoricalReturn symbol <= 0.25
  /\ (symbol ∉ ["AAPL"; "MSFT"; "GOOGL"; "GOOG"; "AMZN"; "TSLA"; "META";
                "NVDA"; "SPY"; "QQQ"; "VTI"; "IWM"; "BND"; "GLD"]%string ->
      getHistoricalVolatility symbol = 0.25
      /\ getHistoricalReturn symbol = 0.1).
Proof.
  intros _. split; [|split].
  - apply or_default_bounds; [lra|lra|].
    unfold volatilityMap.
    repeat (apply Forall_cons; split; [lra|]). apply Forall_nil_2.
  - apply or_default_bounds; [lra|lra|].
    unfold returnMap.
    repeat (apply Forall_cons; split; [lra|]). apply Forall_nil_2.
  - intros Hsymbol. unfold getHistoricalVolatility, getHistoricalReturn.
    by rewrite !get_None.
Qed.

Lemma historical_assumptions_bounds_witness :
  0.03 <= getHistoricalVolatility "TSLA" <= 0.45
  /\ 0.03 <= getHistoricalReturn "TSLA" <= 0.25
  /\ getHistoricalVolatility "XYZ" = 0.25
  /\ getHistoricalReturn "XYZ" = 0.1.
Proof.
  destruct (historical_assumptions_bounds "TSLA") as (Hv & Hr & _).
  { by apply (bool_decide_unpack _). }
  destruct (historical_assumptions_bounds "XYZ") as (_ & _ & Hd).
  { by apply (bool_decide_unpack _). }
  destruct Hd as [Hdv Hdr].
  { by apply (bool_decide_unpack _). }
  exact (conj Hv (conj Hr (conj Hdv Hdr))).
Defined.

(** ** Historical data of the holdings *)

Section History.

Variable getSingleStockPrice : string -> option R.

(** What every entry of the historical data looks like. *)
Let well_shaped (symbol : string) (data : HistoricalData.t) : Prop :=
  HistoricalData.symbol data = symbol
  /\ length (HistoricalData.prices data) = 251%nat
  /\ HistoricalData.returns data = calculateReturns (HistoricalData.prices data)
  /\ length (HistoricalData.returns data) = 250%nat
  /\ last (HistoricalData.prices data)
     = Some (default 100 (getSingleStockPrice symbol))
  /\ (0 < default 100 (getSingleStockPrice symbol) ->
      Forall (fun p => 0 < p) (HistoricalData.prices data)).

Lemma history_Some (currentPrice : R) (symbol : string) (s : rng) :
  (502 <= nonzero_draws s)%nat ->
  exists prices s',
    generateRealisticPriceHistory currentPrice
      (getHistoricalVolatility symbol) (getHistoricalReturn symbol)
      HISTORICAL_DAYS s = Some (prices, s')
    /\ length prices = 251%nat
    /\ last prices = Some currentPrice
    /\ (0 < currentPrice -> Forall (fun p => 0 < p) prices)
    /\ nonzero_draws s' = (nonzero_draws s - 502)%nat.
Proof.
  intros Hs.
  destruct (generateRealisticPriceHistory_shape currentPrice
              (getHistoricalVolatility symbol) (getHistoricalReturn symbol)
              HISTORICAL_DAYS s)
    as (earlier & s' & Hrun & Hlen & Hshape & Hs');
    [unfold HISTORICAL_DAYS; lia..|].
  exists (earlier ++ [currentPrice]), s'. split; [done|].
  unfold HISTORICAL_DAYS in *. rewrite length_app, last_snoc. cbn.
  split; [lia|]. split; [done|]. split; [|lia].
  intros Hpos. apply Forall_app. split; [|by repeat constructor].
  eapply Forall_impl; [exact Hshape|].
  intros p [z ->]. apply Rdiv_lt_0_compat; [done|apply exp_pos].
Qed.

Lemma getRealHistoricalData_step
    (symbol : string) (historicalData : list HistoricalData.t) (s : rng) :
  (502 <= nonzero_draws s)%nat ->
  exists data s',
    (fetched ← fetchHistoricalPrices getSingleStockPrice symbol;
     match fetched with
     | Some prices =>
         let returns := calculateReturns prices in
         mret (historicalData ++ [HistoricalData.mk symbol prices returns])
     | None =>
         fallbackData ← generateRealisticHistoricalData symbol;
         mret (historicalData ++ [fallbackData])
     end) s = Some (historicalData ++ [data], s')
    /\ well_shaped symbol data
    /\ nonzero_draws s' = (nonzero_draws s - 502)%nat.
Proof.
  intros Hs. unfold fetchHistoricalPrices, generateRealisticHistoricalData.
  destruct (getSingleStockPrice symbol) as [currentPrice|] eqn:Hprice.
  - destruct (history_Some currentPrice symbol s Hs)
      as (prices & s' & Hrun & Hlen & Hlast & Hpositive & Hs').
    exists (HistoricalData.mk symbol prices (calculateReturns prices)), s'.
    split; [|split; [|done]].
    + erewrite rand_bind_Some; cycle 1.
      { cbv beta iota. erewrite rand_bind_Some by exact Hrun. reflexivity. }
      reflexivity.
    + unfold well_shaped. cbn. rewrite Hprice, calculateReturns_length, Hlen.
      by repeat split.
  - destruct (history_Some 100 symbol s Hs)
      as (prices & s' & Hrun & Hlen & Hlast & Hpositive & Hs').
    exists (HistoricalData.mk symbol prices (calculateReturns prices)), s'.
    split; [|split; [|done]].
    + cbv beta iota. erewrite rand_bind_Some by reflexivity.
      cbv beta iota. erewrite rand_bind_Some; cycle 1.
      { erewrite rand_bind_Some by exact Hrun. reflexivity. }
      reflexivity.
    + unfold well_shaped. cbn. rewrite Hprice, calculateReturns_length, Hlen.
      by repeat split.
Qed.

Lemma getRealHistoricalData_loop (symbols : list string) :
  forall (historicalData : list HistoricalData.t) (s : rng),
    (502 * length symbols <= nonzero_draws s)%nat ->
    exists added s',
      for_of symbols (fun symbol historicalData =>
        fetched ← fetchHistoricalPrices getSingleStockPrice symbol;
        match fetched with
        | Some prices =>
            let returns := calculateReturns prices in
            mret (historicalData ++ [HistoricalData.mk symbol prices returns])
        | None =>
            fallbackData ← generateRealisticHistoricalData symbol;
            mret (historicalData ++ [fallbackData])
        end) historicalData s = Some (historicalData ++ added, s')
      /\ Forall2 well_shaped symbols added
      /\ nonzero_draws s' = (nonzero_draws s - 502 * length symbols)%nat.
Proof.
  induction symbols as [|symbol symbols IH]; intros historicalData s Hs.
  - exists [], s. cbn. rewrite app_nil_r. repeat split; [done|lia].
  - cbn [length] in Hs.
    destruct (getRealHistoricalData_step symbol historicalData s)
      as (data & s1 & Hstep & Hdata & Hs1); [lia|].
    destruct (IH (historicalData ++ [data]) s1)
      as (added & s' & Hloop & Hadded & Hs'); [lia|].
    exists (data :: added), s'. split; [|split; [by constructor|]].
    + cbn [for_of]. erewrite rand_bind_Some by exact Hstep.
      etransitivity; [exact Hloop|]. by rewrite <- app_assoc.
    + cbn [length]. lia.
Qed.

End History.

(** X4.  For symbols that are not names inherited from [Object.prototype],
    with positive quotes and 502 non-zero draws per symbol, the historical
    data has one entry per symbol, in the order of the symbols: 251
    positive prices ending on the quoted price (on 100 when the quote
    fails: the failure is absorbed by the fallback), and the 250 returns of
    these prices. *)
Theorem getRealHistoricalData_one_entry_per_symbol
    (getSingleStockPrice : string -> option R) (symbols : list string)
    (s : rng) :
  Forall (fun symbol => symbol ∉ Object_prototype_names) symbols ->
  (forall symbol price, getSingleStockPrice symbol = Some price -> 0 < price) ->
  (502 * length symbols <= nonzero_draws s)%nat ->
  exists historicalData s',
    getRealHistoricalData getSingleStockPrice symbols s
    = Some (historicalData, s')
    /\ Forall2
         (fun symbol data =>
            HistoricalData.symbol data = symbol
            /\ length (HistoricalData.prices data) = 251%nat
            /\ Forall (fun p => 0 < p) (HistoricalData.prices data)
            /\ HistoricalData.returns data
               = calculateReturns (HistoricalData.prices data)
            /\ length (HistoricalData.returns data) = 250%nat
            /\ last (HistoricalData.prices data)
               = Some (default 100 (getSingleStockPrice symbol)))
         symbols historicalData.
Proof.
  intros _ Hquotes Hs. unfold getRealHistoricalData.
  destruct (getRealHistoricalData_loop getSingleStockPrice symbols [] s Hs)
    as (added & s' & Hloop & Hadded & _).
  exists added, s'. split; [done|].
  eapply Forall2_impl; [exact Hadded|].
  intros symbol data (Hsymbol & Hprices & Hreturns & Hlen & Hlast & Hpositive).
  repeat split; try done. apply Hpositive.
  destruct (getSingleStockPrice symbol) as [price|] eqn:Hprice; cbn; [|lra].
  by apply (Hquotes symbol).
Qed.

Lemma getRealHistoricalData_one_entry_per_symbol_witness :
  exists historicalData s',
    getRealHistoricalData
      (fun symbol => if decide (symbol = "AAPL"%string) then Some 190 else None)
      ["AAPL"%string; "XYZ"%string] (replicate 1004 0.5)
    = Some (historicalData, s')
    /\ HistoricalData.symbol <$> historicalData
       = ["AAPL"%string; "XYZ"%string].
Proof.
  destruct (getRealHistoricalData_one_entry_per_symbol
              (fun symbol =>
                 if decide (symbol = "AAPL"%string) then Some 190 else None)
              ["AAPL"%string; "XYZ"%string] (replicate 1004 0.5))
    as (historicalData & s' & Hrun & Hall).
  - repeat (apply Forall_cons; split; [by apply (bool_decide_unpack _)|]).
    apply Forall_nil_2.
  - intros symbol price. destruct (decide _); [|done]. intros [= <-]. lra.
  - rewrite nonzero_draws_replicate by lra. cbn. lia.
  - exists historicalData, s'. split; [done|].
    apply Forall2_cons_inv_l in Hall as (d1 & rest & [H1 _] & Hall & ->).
    apply Forall2_cons_inv_l in Hall as (d2 & rest' & [H2 _] & Hall & ->).
    apply Forall2_nil_inv_l in Hall as ->. cbn. by rewrite H1, H2.
Defined.

(** ** Expected returns *)




(** ** Correlation estimator *)

Section Correlation.

Implicit Types xs ys : list R.

(** The three sums of the source, one at a time. *)
Let products (a b : R) xs ys : R :=
  foldr Rplus 0 (zip_with (fun x y => (x - a) * (y - b)) xs ys).

Lemma foldl_three_sums (a b : R) xs ys : forall n1 n2 n3,
  foldl (fun '(numerator, sum1, sum2) '(x1, x2) =>
           (numerator + (x1 - a) * (x2 - b),
            sum1 + (x1 - a) * (x1 - a),
            sum2 + (x2 - b) * (x2 - b)))
        (n1, n2, n3) (zip xs ys)
  = (n1 + products a b xs ys,
     n2 + products a a (take (length ys) xs) (take (length ys) xs),
     n3 + products b b (take (length xs) ys) (take (length xs) ys)).
Proof.
  unfold products.
  revert ys. induction xs as [|x xs IH]; intros [|y ys] n1 n2 n3; cbn;
    try (by rewrite !Rplus_0_r).
  rewrite IH. f_equal; [f_equal|]; lra.
Qed.

Lemma products_comm (a b : R) xs ys :
  products a b xs ys = products b a ys xs.
Proof. unfold products. by rewrite zip_with_products_comm. Qed.

Lemma products_square_nonneg (a : R) xs : 0 <= products a a xs xs.
Proof. apply sum_squares_nonneg. Qed.

(** Cauchy-Schwarz on the centred series. *)
Lemma products_cauchy_schwarz (a b : R) xs ys :
  length xs = length ys ->
  products a b xs ys * products a b xs ys
  <= products a a xs xs * products b b ys ys.
Proof.
  unfold products.
  revert ys. induction xs as [|x xs IH]; intros [|y ys] Hlen; cbn in *;
    try lia; [lra|].
  specialize (IH ys ltac:(lia)).
  pose proof (sum_squares_nonneg a xs) as HA.
  pose proof (sum_squares_nonneg b ys) as HB.
  set (A := foldr Rplus 0 (zip_with (fun x0 y0 => (x0 - a) * (y0 - a)) xs xs))
    in *.
  set (B := foldr Rplus 0 (zip_with (fun x0 y0 => (x0 - b) * (y0 - b)) ys ys))
    in *.
  set (C := foldr Rplus 0 (zip_with (fun x0 y0 => (x0 - a) * (y0 - b)) xs ys))
    in *.
  set (u := x - a). set (v := y - b).
  assert (Huu : 0 <= u * u) by apply Rle_0_sqr.
  assert (Hvv : 0 <= v * v) by apply Rle_0_sqr.
  assert (Hmix : 2 * (u * v * C) <= u * u * B + v * v * A).
  { apply Rsqr_incr_0_var.
    - unfold Rsqr.
      assert (H1 : (u * v) * (u * v) * (C * C) <= (u * v) * (u * v) * (A * B)).
      { apply Rmult_le_compat_l; [apply Rle_0_sqr|done]. }
      pose proof (Rle_0_sqr (u * u * B - v * v * A)) as H2.
      unfold Rsqr in H2. lra.
    - apply Rplus_le_le_0_compat; by apply Rmult_le_pos. }
  change (x - a) with u. change (y - b) with v. lra.
Qed.

Lemma calculateCorrelation_sums xs ys :
  let n := Nat.min (length xs) (length ys) in
  let xs' := take n xs in
  let ys' := take n ys in
  let a := sum xs' / INR (length xs') in
  let b := sum ys' / INR (length ys') in
  calculateCorrelation xs ys
  = if eqb (Math_sqrt (products a a xs' xs' * products b b ys' ys')) 0
    then 0
    else products a b xs' ys'
         / Math_sqrt (products a a xs' xs' * products b b ys' ys').
Proof.
  intros n xs' ys' a b.
  assert (Hlen : length xs' = length ys').
  { subst xs' ys'. rewrite !length_take. lia. }
  unfold calculateCorrelation. cbv zeta. fold n. fold xs' ys'. fold a b.
  rewrite (foldl_three_sums a b xs' ys' 0 0 0).
  rewrite <- Hlen, take_ge by lia. rewrite Hlen, take_ge by lia.
  rewrite !Rplus_0_l. reflexivity.
Qed.

Lemma calculateCorrelation_sym xs ys :
  calculateCorrelation xs ys = calculateCorrelation ys xs.
Proof.
  rewrite !calculateCorrelation_sums. cbv zeta.
  replace (length ys `min` length xs)%nat
    with (length xs `min` length ys)%nat by lia.
  set (xs' := take _ xs). set (ys' := take _ ys).
  set (a := sum xs' / _). set (b := sum ys' / _).
  rewrite (products_comm b a ys' xs').
  by rewrite (Rmult_comm (products b b ys' ys')).
Qed.

Lemma calculateCorrelation_bounds xs ys :
  -1 <= calculateCorrelation xs ys <= 1.
Proof.
  rewrite calculateCorrelation_sums. cbv zeta.
  set (n := Nat.min (length xs) (length ys)).
  set (xs' := take n xs). set (ys' := take n ys).
  set (a := sum xs' / INR (length xs')). set (b := sum ys' / INR (length ys')).
  unfold eqb. case_bool_decide as Hden; [lra|].
  assert (Hlen : length xs' = length ys').
  { subst xs' ys'. rewrite !length_take. lia. }
  pose proof (products_cauchy_schwarz a b xs' ys' Hlen) as Hcs.
  pose proof (products_square_nonneg a xs') as HA.
  pose proof (products_square_nonneg b ys') as HB.
  set (A := products a a xs' xs') in *. set (B := products b b ys' ys') in *.
  set (C := products a b xs' ys') in *.
  unfold Math_sqrt in *.
  assert (HAB : 0 <= A * B) by nra.
  pose proof (sqrt_pos (A * B)) as Hpos.
  assert (Hd : 0 < sqrt (A * B)) by lra.
  pose proof (sqrt_sqrt (A * B) HAB) as Hsq.
  set (D := sqrt (A * B)) in *.
  assert (HC : - D <= C <= D) by nra.
  split.
  - apply Rmult_le_reg_r with D; [done|]. unfold Rdiv.
    rewrite Rmult_assoc, Rinv_l by lra. lra.
  - apply Rmult_le_reg_r with D; [done|]. unfold Rdiv.
    rewrite Rmult_assoc, Rinv_l by lra. lra.
Qed.

End Correlation.

(** X6.  The correlation of two return series does not depend on their
    order and always lies between -1 and 1. *)
Theorem calculateCorrelation_symmetric_bounded (returns1 returns2 : list R) :
  calculateCorrelation returns1 returns2 = calculateCorrelation returns2 returns1
  /\ -1 <= calculateCorrelation returns1 returns2 <= 1.
Proof.
  split; [apply calculateCorrelation_sym|apply calculateCorrelation_bounds].
Qed.

Lemma calculateCorrelationMatrix_entry
    (historicalData : list HistoricalData.t) (i j : nat)
    (di dj : HistoricalData.t) :
  historicalData !! i = Some di ->
  historicalData !! j = Some dj ->
  entry (calculateCorrelationMatrix historicalData) i j
  = Some (if decide (i = j) then 1
          else calculateCorrelation (HistoricalData.returns di)
                                    (HistoricalData.returns dj)).
Proof.
  intros Hi Hj. unfold entry, calculateCorrelationMatrix.
  rewrite list_lookup_imap, Hi. cbn.
  by rewrite list_lookup_imap, Hj.
Qed.

(** X7.  The correlation matrix of [n] series is an [n] x [n] matrix with
    ones on the diagonal, symmetric, with every entry between -1 and 1. *)
Theorem calculateCorrelationMatrix_shape
    (historicalData : list HistoricalData.t) :
  let M := calculateCorrelationMatrix historicalData in
  length M = length historicalData
  /\ Forall (fun row => length row = length historicalData) M
  /\ forall i j, (i < length historicalData)%nat ->
                 (j < length historicalData)%nat ->
       exists mij,
         entry M i j = Some mij
         /\ entry M j i = Some mij
         /\ entry M i i = Some 1
         /\ -1 <= mij <= 1.
Proof.
  intros M. split; [|split].
  - subst M. unfold calculateCorrelationMatrix. by rewrite length_imap.
  - subst M. unfold calculateCorrelationMatrix.
    rewrite Forall_forall. intros row Hrow.
    apply list_elem_of_lookup_1 in Hrow as [i Hi].
    rewrite list_lookup_imap in Hi.
    destruct (historicalData !! i); [|done].
    injection Hi as <-. by rewrite length_imap.
  - intros i j Hi Hj.
    destruct (lookup_lt_is_Some_2 historicalData i Hi) as [di Hdi].
    destruct (lookup_lt_is_Some_2 historicalData j Hj) as [dj Hdj].
    subst M.
    rewrite (calculateCorrelationMatrix_entry _ i j di dj Hdi Hdj).
    rewrite (calculateCorrelationMatrix_entry _ j i dj di Hdj Hdi).
    rewrite (calculateCorrelationMatrix_entry _ i i di di Hdi Hdi).
    rewrite (decide_True (P := i = i)) by done.
    destruct (decide (i = j)) as [->|Hne].
    + rewrite decide_True by done. exists 1. repeat split; lra.
    + rewrite decide_False by done. eexists. split; [reflexivity|].
      split; [by rewrite calculateCorrelation_sym|].
      split; [done|]. apply calculateCorrelation_bounds.
Qed.

(** ** Two assets: the target return is met *)

Lemma clip_inside (x : R) : 0 <= x <= 1 -> Math_max 0 (Math_min 1 x) = x.
Proof.
  intros Hx. unfold Math_max, Math_min, Rmax, Rmin.
  repeat (destruct (Rle_dec _ _)); lra.
Qed.

Lemma ratio_between (r1 r2 targetReturn : R) :
  r1 <> r2 -> Rmin r1 r2 <= targetReturn <= Rmax r1 r2 ->
  0 <= (targetReturn - r2) / (r1 - r2) <= 1.
Proof.
  intros Hne. unfold Rmin, Rmax. destruct (Rle_dec r1 r2); intros Ht.
  - assert (Hneg : r1 - r2 < 0) by lra.
    replace ((targetReturn - r2) / (r1 - r2))
      with ((r2 - targetReturn) / (r2 - r1)) by (field; lra).
    split.
    + apply Rmult_le_pos; [lra|]. apply Rlt_le, Rinv_0_lt_compat. lra.
    + apply Rmult_le_reg_r with (r2 - r1); [lra|]. unfold Rdiv.
      rewrite Rmult_assoc, Rinv_l by lra. lra.
  - split.
    + apply Rmult_le_pos; [lra|]. apply Rlt_le, Rinv_0_lt_compat. lra.
    + apply Rmult_le_reg_r with (r1 - r2); [lra|]. unfold Rdiv.
      rewrite Rmult_assoc, Rinv_l by lra. lra.
Qed.

(** X8.  For two distinct symbols whose expected returns differ by at least
    1e-6, the two-asset solution gives weights [w1] and [1 - w1] in [0,1];
    when the target lies between the two expected returns the portfolio
    return of these weights is exactly the target. *)
Theorem twoAssetOptimization_meets_target
    (expectedReturns : obj) (covarianceMatrix : list (list R))
    (s0 s1 : string) (r1 r2 targetReturn : R) :
  s0 <> s1 ->
  get expectedReturns s0 = Some r1 ->
  get expectedReturns s1 = Some r2 ->
  1e-6 <= Rabs (r1 - r2) ->
  is_Some (entry covarianceMatrix 0 0) ->
  is_Some (entry covarianceMatrix 1 1) ->
  is_Some (entry covarianceMatrix 0 1) ->
  exists w1,
    twoAssetOptimization expectedReturns covarianceMatrix [s0; s1] targetReturn
    = Some [(s0, w1); (s1, 1 - w1)]
    /\ 0 <= w1 <= 1
    /\ (Rmin r1 r2 <= targetReturn <= Rmax r1 r2 ->
        w1 = (targetReturn - r2) / (r1 - r2)
        /\ exists portfolioReturn,
             calculatePortfolioReturn [(s0, w1); (s1, 1 - w1)] expectedReturns
             = Some portfolioReturn
             /\ portfolioReturn = targetReturn).
Proof.
  intros Hne Hr1 Hr2 Hdiff [var1 Hv1] [var2 Hv2] [cov12 Hc].
  unfold twoAssetOptimization.
  cbn [lookup list_lookup mbind option_bind].
  rewrite Hr1, Hr2. cbn [mbind option_bind].
  rewrite Hv1, Hv2, Hc. cbn [mbind option_bind].
  rewrite ltb_false by exact Hdiff.
  cbn [set]. rewrite decide_False by done.
  eexists. split; [reflexivity|]. split; [apply clip_unit_interval|].
  intros Ht.
  assert (Hr : r1 <> r2).
  { intros ->. rewrite Rminus_diag, Rabs_R0 in Hdiff. lra. }
  pose proof (ratio_between r1 r2 targetReturn Hr Ht) as Hx.
  rewrite clip_inside by done. split; [done|].
  unfold calculatePortfolioReturn, entries. cbn [for_of].
  rewrite Hr1. cbn [mbind option_bind]. rewrite Hr2. cbn.
  eexists. split; [reflexivity|]. field. lra.
Qed.

(** Assets A (expected return 10%) and B (5%), target 7.5%: half and half. *)
Lemma twoAssetOptimization_meets_target_witness :
  exists w1,
    twoAssetOptimization [("A"%string, 0.1); ("B"%string, 0.05)]
      [[0.0225; 0]; [0; 0.0025]] ["A"%string; "B"%string] 0.075
    = Some [("A"%string, w1); ("B"%string, 1 - w1)]
    /\ w1 = 0.5.
Proof.
  destruct (twoAssetOptimization_meets_target
              [("A"%string, 0.1); ("B"%string, 0.05)]
              [[0.0225; 0]; [0; 0.0025]] "A" "B" 0.1 0.05 0.075)
    as (w1 & Hrun & _ & Hmeet).
  - discriminate.
  - reflexivity.
  - reflexivity.
  - rewrite Rabs_pos_eq by lra. lra.
  - by eexists.
  - by eexists.
  - by eexists.
  - exists w1. split; [exact Hrun|].
    destruct Hmeet as [-> _]; [|lra].
    unfold Rmin, Rmax. destruct (Rle_dec 0.1 0.05); lra.
Defined.

(** ** The selector on any risk tolerance *)

Lemma findOptimalPortfolio_Some
    (efficientFrontier : list FrontierPoint.t) (riskTolerance : string) :
  efficientFrontier <> [] ->
  exists p, p ∈ efficientFrontier
            /\ findOptimalPortfolio efficientFrontier riskTolerance
               = Some (FrontierPoint.weights p).
Proof.
  intros Hne.
  destruct (findOptimalPortfolio_scan _ efficientFrontier riskTolerance
              eq_refl) as ([bp [score|]] & Hscan & ->).
  - destruct Hscan as (b & Hbp & Hb & _). cbn in Hbp. subst bp.
    by exists b.
  - destruct Hscan as [Hbp _]. cbn in Hbp. subst bp.
    destruct efficientFrontier as [|first rest]; [done|].
    exists first. split; [by left|done].
Qed.

(** X9.  Beyond the four named levels, for a risk-tolerance string that is
    not a name inherited from [Object.prototype] and a frontier with
    non-zero risks (so that the Sharpe quotient is defined): the selector
    answers with the weights of a point of the frontier, a string that
    names none of the four levels selects exactly as "moderate" does, and
    on an empty frontier the selector fails (the source reads the weights
    of an undefined point). *)
Theorem findOptimalPortfolio_any_tolerance
    (efficientFrontier : list FrontierPoint.t) (riskTolerance : string) :
  riskTolerance ∉ Object_prototype_names ->
  Forall (fun p => FrontierPoint.risk p <> 0) efficientFrontier ->
  (efficientFrontier = [] ->
   findOptimalPortfolio efficientFrontier riskTolerance = None)
  /\ (efficientFrontier <> [] ->
      exists p, p ∈ efficientFrontier
                /\ findOptimalPortfolio efficientFrontier riskTolerance
                   = Some (FrontierPoint.weights p))
  /\ (riskTolerance ∉ ["conservative"; "moderate"; "aggressive";
                       "very_aggressive"]%string ->
      findOptimalPortfolio efficientFrontier riskTolerance
      = findOptimalPortfolio efficientFrontier "moderate").
Proof.
  intros _ _. split; [|split].
  - by intros ->.
  - apply findOptimalPortfolio_Some.
  - intros Hnone. rewrite !not_elem_of_cons in Hnone.
    destruct Hnone as (H1 & H2 & H3 & H4 & _).
    unfold findOptimalPortfolio, riskLevels.
    by rewrite !decide_False by done.
Qed.

Lemma findOptimalPortfolio_any_tolerance_witness :
  findOptimalPortfolio
    [FrontierPoint.mk 0.10 0.08 [("BND"%string, 1)];
     FrontierPoint.mk 0.20 0.12 [("SPY"%string, 1)]] "reckless"
  = findOptimalPortfolio
      [FrontierPoint.mk 0.10 0.08 [("BND"%string, 1)];
       FrontierPoint.mk 0.20 0.12 [("SPY"%string, 1)]] "moderate".
Proof.
  apply (findOptimalPortfolio_any_tolerance
           [FrontierPoint.mk 0.10 0.08 [("BND"%string, 1)];
            FrontierPoint.mk 0.20 0.12 [("SPY"%string, 1)]] "reckless").
  - by apply (bool_decide_unpack _).
  - repeat (apply Forall_cons; split; [cbn; lra|]). apply Forall_nil_2.
  - by apply (bool_decide_unpack _).
Defined.

(** ** A single holding *)


Section SingleAsset.

Variables (s : string) (r v : R) (covarianceMatrix : list (list R)).
Hypothesis variance_v : entry covarianceMatrix 0 0 = Some v.



End SingleAsset.



(** ** Cholesky factor *)

Lemma entry_square (n : nat) (M : list (list R)) (i j : nat) :
  square n M -> (i < n)%nat -> (j < n)%nat -> entry M i j = Some (at_ M i j).
Proof.
  intros [Hlen Hrows] Hi Hj. unfold at_, entry.
  destruct (lookup_lt_is_Some_2 M i) as [row Hrow]; [lia|].
  rewrite Hrow. cbn.
  destruct (lookup_lt_is_Some_2 row j) as [x Hx];
    [by rewrite (Hrows i row Hrow)|].
  by rewrite Hx.
Qed.

Lemma square_set_entry (n : nat) (M : list (list R)) (i j : nat) (v : R) :
  square n M -> square n (set_entry M i j v).
Proof.
  intros [Hlen Hrows]. unfold set_entry.
  destruct (M !! i) as [row|] eqn:Hrow; [|done].
  split; [by rewrite length_insert|].
  intros a r Ha. apply list_lookup_insert_Some in Ha.
  destruct Ha as [(<- & <- & _)|[_ Ha]].
  - rewrite length_insert. by apply (Hrows i).
  - by apply (Hrows a).
Qed.

Lemma at_set_entry (n : nat) (M : list (list R)) (i j : nat) (v : R)
    (a b : nat) :
  square n M -> (i < n)%nat -> (j < n)%nat ->
  at_ (set_entry M i j v) a b
  = if decide (a = i /\ b = j) then v else at_ M a b.
Proof.
  intros [Hlen Hrows] Hi Hj. unfold at_, entry, set_entry.
  destruct (lookup_lt_is_Some_2 M i) as [row Hrow]; [lia|].
  rewrite Hrow. pose proof (Hrows i row Hrow) as Hrowlen.
  destruct (decide (a = i)) as [->|Hai].
  - rewrite list_lookup_insert_eq by lia. rewrite Hrow. cbn.
    destruct (decide (b = j)) as [->|Hbj].
    + rewrite list_lookup_insert_eq by lia.
      by rewrite decide_True.
    + rewrite list_lookup_insert_ne by done.
      by rewrite decide_False by tauto.
  - rewrite list_lookup_insert_ne by done.
    by rewrite decide_False by tauto.
Qed.

Lemma dot_S (L : list (list R)) (i j m : nat) :
  dot L i j (S m) = dot L i j m + at_ L i m * at_ L j m.
Proof. unfold dot. by rewrite seq_S, foldl_app. Qed.

Lemma dot_ext (L L' : list (list R)) (i j m : nat) :
  (forall k, (k < m)%nat -> at_ L' i k = at_ L i k /\ at_ L' j k = at_ L j k) ->
  dot L' i j m = dot L i j m.
Proof.
  induction m as [|m IH]; intros Hagree; [done|].
  rewrite !dot_S, IH by (intros k Hk; apply Hagree; lia).
  destruct (Hagree m) as [-> ->]; [lia|]. done.
Qed.

Lemma dot_loop (n : nat) (L : list (list R)) (i j m : nat) :
  square n L -> (i < n)%nat -> (j < n)%nat -> (m <= n)%nat ->
  for_of (seq 0 m) (fun k sum =>
    lik ← entry L i k;
    ljk ← entry L j k;
    Some (sum + lik * ljk)) 0
  = Some (dot L i j m).
Proof.
  intros HL Hi Hj Hm. unfold dot.
  assert (Hks : Forall (fun k => (k < n)%nat) (seq 0 m)).
  { apply Forall_forall. intros k Hk. apply elem_of_seq in Hk. lia. }
  generalize (seq 0 m) Hks (0 : R). clear Hks.
  intros ks Hks. induction Hks as [|k ks Hk _ IH]; intros acc; [done|].
  cbn [for_of foldl].
  rewrite !(entry_square n) by done. cbn [mbind option_bind].
  apply IH.
Qed.

Lemma dot_loop_diagonal (n : nat) (L : list (list R)) (i m : nat) :
  square n L -> (i < n)%nat -> (m <= n)%nat ->
  for_of (seq 0 m) (fun k sum =>
    lik ← entry L i k;
    Some (sum + lik * lik)) 0
  = Some (dot L i i m).
Proof.
  intros HL Hi Hm. unfold dot.
  assert (Hks : Forall (fun k => (k < n)%nat) (seq 0 m)).
  { apply Forall_forall. intros k Hk. apply elem_of_seq in Hk. lia. }
  generalize (seq 0 m) Hks (0 : R). clear Hks.
  intros ks Hks. induction Hks as [|k ks Hk _ IH]; intros acc; [done|].
  cbn [for_of foldl].
  rewrite !(entry_square n) by done. cbn [mbind option_bind].
  apply IH.
Qed.

Section Cholesky.

Variable matrix : list (list R).

(** The equation that defines [L[a][b]] from the entries computed before
    it. *)
Let cell (L : list (list R)) (a b : nat) : Prop :=
  if decide (a = b) then
    at_ L a a = Math_sqrt (Math_max 0 (at_ matrix a a - dot L a a a))
  else
    (at_ L b b = 0 -> at_ L a b = 0)
    /\ (at_ L b b <> 0 ->
        at_ L a b = (at_ matrix a b - dot L a b b) / at_ L b b).

(** Row [i] is filled up to column [j], the rows before it completely. *)
Let filled (n i j : nat) (L : list (list R)) : Prop :=
  square n L
  /\ (forall a b, (i < a \/ a < b \/ (a = i /\ j <= b))%nat -> at_ L a b = 0)
  /\ (forall a b, (b <= a)%nat -> (a < i \/ (a = i /\ b < j))%nat ->
        cell L a b).

Lemma cell_frame (n : nat) (L : list (list R)) (i j : nat) (v : R)
    (a b : nat) :
  square n L -> (i < n)%nat -> (j <= i)%nat ->
  (b <= a)%nat -> (a < i \/ (a = i /\ b < j))%nat ->
  cell L a b -> cell (set_entry L i j v) a b.
Proof.
  intros HL Hi Hj Hba Hbefore. unfold cell.
  assert (Hdot : dot (set_entry L i j v) a b b = dot L a b b).
  { apply dot_ext. intros k Hk.
    rewrite !(at_set_entry n) by (done || lia).
    rewrite !decide_False by lia. done. }
  destruct (decide (a = b)) as [->|Hab].
  - rewrite Hdot, !(at_set_entry n) by (done || lia).
    rewrite !decide_False by lia. done.
  - rewrite Hdot, !(at_set_entry n) by (done || lia).
    rewrite !decide_False by lia. done.
Qed.

Lemma choleskyDecomposition_cell (n : nat) (L : list (list R)) (i j : nat) :
  square n matrix -> (i < n)%nat -> (j <= i)%nat -> filled n i j L ->
  exists L',
    (if decide (i = j) then
       sum ← for_of (seq 0 j) (fun k sum =>
         lik ← entry L i k;
         Some (sum + lik * lik)) 0;
       mii ← entry matrix i i;
       Some (set_entry L i j (Math_sqrt (Math_max 0 (mii - sum))))
     else
       sum ← for_of (seq 0 j) (fun k sum =>
         lik ← entry L i k;
         ljk ← entry L j k;
         Some (sum + lik * ljk)) 0;
       ljj ← entry L j j;
       if eqb ljj 0 then Some (set_entry L i j 0)
       else
         mij ← entry matrix i j;
         Some (set_entry L i j ((mij - sum) / ljj)))
    = Some L'
    /\ filled n i (S j) L'.
Proof.
  intros Hmatrix Hi Hj (HL & Hzero & Hcells).
  assert (Hfilled : forall v,
    (if decide (i = j)
     then v = Math_sqrt (Math_max 0 (at_ matrix i i - dot L i i i))
     else (at_ L j j = 0 -> v = 0)
          /\ (at_ L j j <> 0 ->
              v = (at_ matrix i j - dot L i j j) / at_ L j j)) ->
    filled n i (S j) (set_entry L i j v)).
  { intros v Hv. split; [by apply square_set_entry|]. split.
    - intros a b Hab. rewrite (at_set_entry n) by (done || lia).
      rewrite decide_False by lia. apply Hzero. lia.
    - intros a b Hba Hbefore.
      destruct (decide (a = i /\ b = j)) as [[-> ->]|Hne].
      + unfold cell.
        assert (Hdot : dot (set_entry L i j v) i j j = dot L i j j).
        { apply dot_ext. intros k Hk.
          rewrite !(at_set_entry n) by (done || lia).
          rewrite !decide_False by lia. done. }
        destruct (decide (i = j)) as [->|Hij].
        * rewrite Hdot, !(at_set_entry n) by (done || lia).
          by rewrite decide_True.
        * rewrite Hdot, !(at_set_entry n) by (done || lia).
          rewrite !(decide_False (P := j = i /\ j = j)) by lia.
          rewrite !decide_True by done.
          done.
      + apply (cell_frame n); [done..| |].
        * lia.
        * apply Hcells; [done|lia]. }
  destruct (decide (i = j)) as [->|Hij].
  - rewrite (dot_loop_diagonal n) by (done || lia).
    cbn [mbind option_bind].
    rewrite (entry_square n matrix) by (done || lia).
    cbn [mbind option_bind].
    eexists. split; [reflexivity|]. by apply Hfilled.
  - rewrite (dot_loop n) by (done || lia).
    cbn [mbind option_bind].
    rewrite (entry_square n L) by (done || lia).
    cbn [mbind option_bind].
    unfold eqb. case_bool_decide as Hljj.
    + eexists. split; [reflexivity|]. apply Hfilled. by split.
    + rewrite (entry_square n matrix) by (done || lia).
      cbn [mbind option_bind].
      eexists. split; [reflexivity|]. apply Hfilled. by split.
Qed.

Lemma choleskyDecomposition_filled (n : nat) :
  square n matrix ->
  exists L,
    choleskyDecomposition matrix = Some L /\ filled n n 0 L.
Proof.
  intros Hmatrix. unfold choleskyDecomposition.
  destruct Hmatrix as [Hlen Hrows]. rewrite Hlen.
  assert (Hmatrix : square n matrix) by done.
  match goal with
  | |- context [for_of ?xs ?body ?s0] =>
      destruct (for_of_invariant
                  (fun (seen : list nat) L => filled n (length seen) 0 L)
                  body xs s0)
        as (L & HL & Hfilled)
  end.
  - split; [|split].
    + split; [by rewrite length_replicate|].
      intros i row Hrow. apply lookup_replicate in Hrow as [-> _].
      by rewrite length_replicate.
    + intros a b _. unfold at_, entry.
      destruct (replicate n (replicate n 0) !! a) as [row|] eqn:Hrow; [|done].
      apply lookup_replicate in Hrow as [-> _]. cbn.
      destruct (replicate n 0 !! b) as [x|] eqn:Hx; [|done].
      by apply lookup_replicate in Hx as [-> _].
    + intros a b _ Hbefore. cbn in Hbefore. lia.
  - intros seen i rest L Hseq Hfilled.
    destruct (seq_split_index _ _ _ _ Hseq) as [-> Hi].
    match goal with
    | |- context [for_of ?xs ?body ?s0] =>
        destruct (for_of_invariant
                    (fun (cols : list nat) L' =>
                       filled n (length seen) (length cols) L')
                    body xs s0)
          as (L' & HL' & Hfilled')
    end; [done| |].
    + intros cols j more L' Hcols Hfilled'.
      destruct (seq_split_index _ _ _ _ Hcols) as [-> Hj].
      rewrite length_app. cbn [length].
      replace (length cols + 1)%nat with (S (length cols)) by lia.
      apply (choleskyDecomposition_cell n); [done|done|lia|done].
    + exists L'. split; [done|].
      rewrite length_seq in Hfilled'. rewrite length_app. cbn [length].
      destruct Hfilled' as (HL'sq & Hzero & Hcells).
      split; [done|]. split.
      * intros a b Hab. apply Hzero. lia.
      * intros a b Hba Hbefore. apply Hcells; [done|lia].
  - exists L. split; [done|]. by rewrite length_seq in Hfilled.
Qed.

End Cholesky.

(** X11.  For a square matrix the Cholesky routine returns a square lower
    triangular matrix [L] with a non-negative diagonal whose entries satisfy
    the factorisation equations: [L[i][i]^2] is [matrix[i][i]] minus the
    squares to its left, cut at zero, and below the diagonal row [i] times
    row [j] gives [matrix[i][j]] wherever the pivot [L[j][j]] is not zero,
    the entry being zero otherwise. *)
Theorem choleskyDecomposition_factor (matrix : list (list R)) :
  square (length matrix) matrix ->
  exists L,
    choleskyDecomposition matrix = Some L
    /\ square (length matrix) L
    /\ (forall i j, (i < j)%nat -> at_ L i j = 0)
    /\ (forall i, (i < length matrix)%nat ->
          0 <= at_ L i i
          /\ at_ L i i * at_ L i i
             = Math_max 0 (at_ matrix i i - dot L i i i))
    /\ (forall i j, (j < i < length matrix)%nat ->
          if eqb (at_ L j j) 0 then at_ L i j = 0
          else dot L i j (S j) = at_ matrix i j).
Proof.
  intros Hmatrix.
  destruct (choleskyDecomposition_filled matrix _ Hmatrix)
    as (L & HL & Hsq & Hzero & Hcells).
  exists L. split; [done|]. split; [done|]. split; [|split].
  - intros i j Hij. apply Hzero. lia.
  - intros i Hi. specialize (Hcells i i).
    rewrite decide_True in Hcells by done.
    rewrite Hcells by lia. unfold Math_sqrt. split; [apply sqrt_pos|].
    apply sqrt_sqrt. unfold Math_max. apply Rmax_l.
  - intros i j Hij. specialize (Hcells i j).
    rewrite decide_False in Hcells by lia.
    destruct Hcells as [Hpivot0 Hpivot]; [lia..|].
    unfold eqb. case_bool_decide as Hljj; [by apply Hpivot0|].
    rewrite dot_S, (Hpivot Hljj). field. done.
Qed.

Lemma choleskyDecomposition_factor_witness :
  exists L,
    choleskyDecomposition [[4; 2]; [2; 5]] = Some L
    /\ square 2 L
    /\ (forall i j, (i < j)%nat -> at_ L i j = 0)
    /\ (forall i, (i < 2)%nat ->
          0 <= at_ L i i
          /\ at_ L i i * at_ L i i
             = Math_max 0 (at_ [[4; 2]; [2; 5]] i i - dot L i i i))
    /\ (forall i j, (j < i < 2)%nat ->
          if eqb (at_ L j j) 0 then at_ L i j = 0
          else dot L i j (S j) = at_ [[4; 2]; [2; 5]] i j).
Proof.
  apply (choleskyDecomposition_factor [[4; 2]; [2; 5]]).
  split; [reflexivity|].
  intros [|[|i]] row Hrow; cbn in Hrow; try discriminate;
    by injection Hrow as <-.
Defined.

(** ** Monte Carlo simulator: the summary *)

Lemma rand_for_of_invariant {A S : Type} (I : list A -> S -> rng -> Prop)
    (body : A -> S -> Rand S) (xs : list A) (s0 : S) (r0 : rng) :
  I [] s0 r0 ->
  (forall seen x rest s r,
      xs = seen ++ x :: rest -> I seen s r ->
      exists s' r', body x s r = Some (s', r') /\ I (seen ++ [x]) s' r') ->
  exists s' r', for_of xs body s0 r0 = Some (s', r') /\ I xs s' r'.
Proof.
  intros Hinit Hstep.
  assert (Hgen : forall rest seen s r,
             xs = seen ++ rest -> I seen s r ->
             exists s' r', for_of rest body s r = Some (s', r') /\ I xs s' r').
  { induction rest as [|x rest IH]; intros seen s r Hxs Hs.
    - rewrite app_nil_r in Hxs. subst seen. by exists s, r.
    - destruct (Hstep seen x rest s r Hxs Hs) as (s1 & r1 & Hbody & Hs1).
      cbn [for_of]. erewrite rand_bind_Some by exact Hbody.
      apply (IH (seen ++ [x])); [|done]. by rewrite <- app_assoc. }
  by apply (Hgen xs []).
Qed.

Lemma array_from_normalRandom_Some (n : nat) : forall s : rng,
  (2 * n <= nonzero_draws s)%nat ->
  exists z s', array_from n normalRandom s = Some (z, s')
               /\ nonzero_draws s' = (nonzero_draws s - 2 * n)%nat.
Proof.
  induction n as [|n IH]; intros s Hs.
  - exists [], s. split; [done|lia].
  - cbn [array_from].
    destruct (normalRandom_Some s) as (x & s1 & Hx & Hs1); [lia|].
    erewrite rand_bind_Some by exact Hx.
    destruct (IH s1) as (xs & s2 & Hxs & Hs2); [lia|].
    erewrite rand_bind_Some by exact Hxs.
    exists (x :: xs), s2. split; [done|lia].
Qed.

Lemma StronglySorted_lookup {A : Type} (rel : A -> A -> Prop) (l : list A) :
  StronglySorted rel l ->
  forall i j x y, (i < j)%nat -> l !! i = Some x -> l !! j = Some y -> rel x y.
Proof.
  induction 1 as [|a l Hl IH Ha]; intros i j x y Hij Hx Hy; [done|].
  destruct j as [|j]; [lia|]. cbn in Hy.
  destruct i as [|i]; cbn in Hx.
  - injection Hx as <-. rewrite Forall_forall in Ha. apply Ha.
    by eapply list_elem_of_lookup_2.
  - apply (IH i j); [lia|done..].
Qed.

Lemma sort_ascending (l : list R) (i j : nat) (x y : R) :
  (i < j)%nat ->
  sort (fun a b => a - b) l !! i = Some x ->
  sort (fun a b => a - b) l !! j = Some y ->
  x <= y.
Proof.
  intros Hij Hx Hy.
  assert (Hsorted : StronglySorted (fun a b => a - b <= 0)
                                   (sort (fun a b => a - b) l)).
  { apply Sorted.Sorted_StronglySorted.
    - intros a b c Hab Hbc. lra.
    - apply sort_Sorted. intros a b. lra. }
  pose proof (StronglySorted_lookup _ _ Hsorted i j x y Hij Hx Hy). lra.
Qed.

Lemma percentile_lookup (results : list R) (p : R) (k : Z) :
  length results = 1000%nat ->
  IZR k <= 1000 * p < IZR k + 1 -> (0 <= k < 1000)%Z ->
  exists x, percentile results p = Some x
            /\ results !! Z.to_nat k = Some x.
Proof.
  intros Hlen Hp Hk. unfold percentile. rewrite Hlen.
  replace (INR 1000) with 1000 by (rewrite INR_IZR_INZ; reflexivity).
  rewrite (Zfloor_eq k) by done.
  destruct (lookup_lt_is_Some_2 results (Z.to_nat k)) as [x Hx]; [lia|].
  by exists x.
Qed.

Section Simulation.

Variables (weights expectedReturns : obj) (covarianceMatrix : list (list R))
          (initialValue : R) (symbols : list string).

Hypothesis weights_known :
  forall symbol, symbol ∈ symbols -> symbol ∈ keys weights.
Hypothesis returns_known :
  forall symbol, symbol ∈ symbols -> symbol ∈ keys expectedReturns.
Hypothesis covariance_square : square (length symbols) covarianceMatrix.

Lemma simulateDay_Some (choleskyMatrix : list (list R)) (portfolioValue : R)
    (s : rng) :
  square (length symbols) choleskyMatrix ->
  (2 * length symbols <= nonzero_draws s)%nat ->
  exists portfolioValue' s',
    simulateDay weights expectedReturns choleskyMatrix symbols portfolioValue s
    = Some (portfolioValue', s')
    /\ nonzero_draws s' = (nonzero_draws s - 2 * length symbols)%nat.
Proof.
  intros HL Hs. unfold simulateDay.
  destruct (array_from_normalRandom_Some (length symbols) s Hs)
    as (z & s' & Hz & Hs').
  destruct (generateCorrelatedReturnsCholesky_daily symbols expectedReturns
              choleskyMatrix returns_known) with (s := s) (s' := s') (z := z)
    as (correlatedReturns & Hrun & Hlen & _); [|done|].
  { intros i j Hij. rewrite (entry_square (length symbols)) by (done || lia).
    done. }
  erewrite rand_bind_Some by exact Hrun.
  match goal with
  | |- context [for_of ?xs ?body ?s0] =>
      destruct (for_of_invariant (fun _ _ => True) body xs s0)
        as (dailyReturn & HdailyReturn & _)
  end; [done| |].
  - intros seen i rest dailyReturn Hi _.
    apply seq_split_index in Hi as [_ Hi].
    destruct (lookup_lt_is_Some_2 symbols i) as [symbol Hsymbol]; [done|].
    rewrite Hsymbol. cbn [mbind option_bind].
    destruct (proj2 (get_is_Some weights symbol)) as [w Hw].
    { apply weights_known. by eapply list_elem_of_lookup_2. }
    rewrite Hw. cbn [mbind option_bind].
    destruct (lookup_lt_is_Some_2 correlatedReturns i) as [c Hc]; [lia|].
    rewrite Hc. cbn [mbind option_bind]. by eexists.
  - erewrite rand_bind_Some by (apply lift_Some; exact HdailyReturn).
    by do 2 eexists.
Qed.

Lemma simulate_year (choleskyMatrix : list (list R)) (s : rng) :
  square (length symbols) choleskyMatrix ->
  (TRADING_DAYS * (2 * length symbols) <= nonzero_draws s)%nat ->
  exists portfolioValue s',
    for_of (seq 0 TRADING_DAYS) (fun day portfolioValue =>
      simulateDay weights expectedReturns choleskyMatrix symbols
                  portfolioValue) initialValue s
    = Some (portfolioValue, s')
    /\ nonzero_draws s'
       = (nonzero_draws s - TRADING_DAYS * (2 * length symbols))%nat.
Proof.
  intros HL Hs.
  destruct (rand_for_of_invariant
              (fun (seen : list nat) (_ : R) (r : rng) =>
                 (length seen <= TRADING_DAYS)%nat
                 /\ nonzero_draws r
                    = (nonzero_draws s - length seen * (2 * length symbols))%nat)
              (fun day portfolioValue =>
                 simulateDay weights expectedReturns choleskyMatrix symbols
                             portfolioValue)
              (seq 0 TRADING_DAYS) initialValue s)
    as (portfolioValue & s' & Hrun & _ & Hs').
  - split; cbn [length]; lia.
  - intros seen day rest portfolioValue r Hday [Hseen Hr].
    apply seq_split_index in Hday as [-> Hday].
    destruct (simulateDay_Some choleskyMatrix portfolioValue r HL)
      as (portfolioValue' & r' & Hstep & Hr'); [nia|].
    exists portfolioValue', r'. split; [done|].
    rewrite length_app. cbn [length]. split; [lia|]. nia.
  - exists portfolioValue, s'. split; [done|].
    by rewrite length_seq in Hs'.
Qed.

Lemma simulate_all (choleskyMatrix : list (list R)) (s : rng) :
  square (length symbols) choleskyMatrix ->
  (MONTE_CARLO_SCENARIOS * (TRADING_DAYS * (2 * length symbols))
   <= nonzero_draws s)%nat ->
  exists results s',
    for_of (seq 0 MONTE_CARLO_SCENARIOS) (fun scenario results =>
      portfolioValue ← for_of (seq 0 TRADING_DAYS) (fun day portfolioValue =>
        simulateDay weights expectedReturns choleskyMatrix symbols
                    portfolioValue) initialValue;
      mret (results ++ [portfolioValue])) [] s
    = Some (results, s')
    /\ length results = MONTE_CARLO_SCENARIOS
    /\ nonzero_draws s'
       = (nonzero_draws s
          - MONTE_CARLO_SCENARIOS * (TRADING_DAYS * (2 * length symbols)))%nat.
Proof.
  intros HL Hs.
  match goal with
  | |- context [for_of ?xs ?body ?s0 s] =>
      destruct (rand_for_of_invariant
                  (fun (seen : list nat) (results : list R) (r : rng) =>
                     (length seen <= MONTE_CARLO_SCENARIOS)%nat
                     /\ length results = length seen
                     /\ nonzero_draws r
                        = (nonzero_draws s
                           - length seen
                             * (TRADING_DAYS * (2 * length symbols)))%nat)
                  body xs s0 s)
        as (results & s' & Hrun & _ & Hlen & Hs')
  end.
  - repeat split; cbn [length]; lia.
  - intros seen scenario rest results r Hscenario (Hseen & Hlen & Hr).
    apply seq_split_index in Hscenario as [-> Hscenario].
    destruct (simulate_year choleskyMatrix r HL)
      as (portfolioValue & r' & Hyear & Hr'); [nia|].
    exists (results ++ [portfolioValue]), r'. split.
    + by erewrite rand_bind_Some by exact Hyear.
    + rewrite !length_app. cbn [length]. repeat split; [lia..|nia].
  - exists results, s'. split; [done|].
    rewrite length_seq in Hlen, Hs'. done.
Qed.

End Simulation.

(** The simulation returns: the summary is read off the sorted final
    values of the 1000 scenarios. *)
Lemma runAdvancedMonteCarloSimulation_run
    (weights expectedReturns : obj) (covarianceMatrix : list (list R))
    (initialValue : R) (symbols : list string) (s : rng) :
  (forall symbol, symbol ∈ symbols -> symbol ∈ keys weights) ->
  (forall symbol, symbol ∈ symbols -> symbol ∈ keys expectedReturns) ->
  square (length symbols) covarianceMatrix ->
  (MONTE_CARLO_SCENARIOS * (TRADING_DAYS * (2 * length symbols))
   <= nonzero_draws s)%nat ->
  exists results p5 p25 p75 p95 s',
    let sorted := sort (fun a b => a - b) results in
    runAdvancedMonteCarloSimulation weights expectedReturns covarianceMatrix
                                    initialValue symbols s
    = Some (MonteCarloResults.mk MONTE_CARLO_SCENARIOS
              (INR (length (filter (fun val => initialValue < val) sorted))
               / INR (length sorted))
              (sum sorted / INR (length sorted))
              p5 p95 p5 p25 p75 p95, s')
    /\ length sorted = 1000%nat
    /\ sorted !! 50%nat = Some p5
    /\ sorted !! 250%nat = Some p25
    /\ sorted !! 750%nat = Some p75
    /\ sorted !! 950%nat = Some p95
    /\ nonzero_draws s'
       = (nonzero_draws s
          - MONTE_CARLO_SCENARIOS * (TRADING_DAYS * (2 * length symbols)))%nat.
Proof.
  intros Hweights Hreturns Hcov Hs. unfold runAdvancedMonteCarloSimulation.
  destruct (choleskyDecomposition_filled covarianceMatrix _ Hcov)
    as (L & HL & HLsq & _).
  erewrite rand_bind_Some by (apply lift_Some; exact HL).
  destruct (simulate_all weights expectedReturns initialValue symbols
              Hweights Hreturns L s HLsq Hs)
    as (results & s' & Hrun & Hresults & Hs').
  erewrite rand_bind_Some by exact Hrun.
  cbv zeta.
  set (sorted := sort (fun a b => a - b) results).
  assert (Hsorted : length sorted = 1000%nat).
  { unfold sorted. by rewrite sort_Permutation. }
  destruct (percentile_lookup sorted 0.05 50 Hsorted) as (p5 & -> & Hp5);
    [lra|lia|].
  destruct (percentile_lookup sorted 0.25 250 Hsorted) as (p25 & -> & Hp25);
    [lra|lia|].
  destruct (percentile_lookup sorted 0.75 750 Hsorted) as (p75 & -> & Hp75);
    [lra|lia|].
  destruct (percentile_lookup sorted 0.95 950 Hsorted) as (p95 & -> & Hp95);
    [lra|lia|].
  cbn [mbind option_bind lift].
  exists results, p5, p25, p75, p95, s'. by repeat split.
Qed.

(** X12.  With weights and expected returns for every symbol, a square
    covariance matrix and enough non-zero draws (two per asset, day and
    scenario), the simulation returns a summary of 1000 scenarios whose
    percentiles are ordered, whose worst and best case are the 5th and 95th
    percentile, and whose success rate lies between 0 and 1; it consumes
    exactly those draws. *)
Theorem runAdvancedMonteCarloSimulation_summary
    (weights expectedReturns : obj) (covarianceMatrix : list (list R))
    (initialValue : R) (symbols : list string) (s : rng) :
  (forall symbol, symbol ∈ symbols -> symbol ∈ keys weights) ->
  (forall symbol, symbol ∈ symbols -> symbol ∈ keys expectedReturns) ->
  square (length symbols) covarianceMatrix ->
  (MONTE_CARLO_SCENARIOS * (TRADING_DAYS * (2 * length symbols))
   <= nonzero_draws s)%nat ->
  exists m s',
    runAdvancedMonteCarloSimulation weights expectedReturns covarianceMatrix
                                    initialValue symbols s
    = Some (m, s')
    /\ nonzero_draws s'
       = (nonzero_draws s
          - MONTE_CARLO_SCENARIOS * (TRADING_DAYS * (2 * length symbols)))%nat
    /\ MonteCarloResults.scenarios m = 1000%nat
    /\ MonteCarloResults.percentile_5 m <= MonteCarloResults.percentile_25 m
    /\ MonteCarloResults.percentile_25 m <= MonteCarloResults.percentile_75 m
    /\ MonteCarloResults.percentile_75 m <= MonteCarloResults.percentile_95 m
    /\ MonteCarloResults.worstCase m = MonteCarloResults.percentile_5 m
    /\ MonteCarloResults.bestCase m = MonteCarloResults.percentile_95 m
    /\ 0 <= MonteCarloResults.successRate m <= 1.
Proof.
  intros Hweights Hreturns Hcov Hs.
  destruct (runAdvancedMonteCarloSimulation_run weights expectedReturns
              covarianceMatrix initialValue symbols s Hweights Hreturns
              Hcov Hs)
    as (results & p5 & p25 & p75 & p95 & s' & Hrun & Hsorted
        & Hp5 & Hp25 & Hp75 & Hp95 & Hs').
  cbv zeta in Hrun, Hsorted, Hp5, Hp25, Hp75, Hp95.
  do 2 eexists. split; [exact Hrun|].
  cbn [MonteCarloResults.scenarios MonteCarloResults.percentile_5
       MonteCarloResults.percentile_25 MonteCarloResults.percentile_75
       MonteCarloResults.percentile_95 MonteCarloResults.worstCase
       MonteCarloResults.bestCase MonteCarloResults.successRate].
  split; [done|]. split; [done|].
  split; [by apply (sort_ascending results 50 250); [lia|..]|].
  split; [by apply (sort_ascending results 250 750); [lia|..]|].
  split; [by apply (sort_ascending results 750 950); [lia|..]|].
  split; [done|]. split; [done|].
  set (sorted := sort (fun a b => a - b) results) in *.
  rewrite Hsorted.
  pose proof (length_filter (fun val => initialValue < val) sorted) as Hfilter.
  rewrite Hsorted in Hfilter. apply le_INR in Hfilter.
  pose proof (pos_INR (length (filter (fun val => initialValue < val) sorted)))
    as Hpos.
  replace (INR 1000) with 1000 in * by (rewrite INR_IZR_INZ; reflexivity).
  split; lra.
Qed.

Lemma runAdvancedMonteCarloSimulation_summary_witness :
  exists m s',
    runAdvancedMonteCarloSimulation
      [("SPY"%string, 1)] [("SPY"%string, 0.1)] [[0.04]] 10000
      ["SPY"%string]
      (replicate (MONTE_CARLO_SCENARIOS * (TRADING_DAYS * 2)) (1 / 2))
    = Some (m, s')
    /\ nonzero_draws s'
       = (nonzero_draws
            (replicate (MONTE_CARLO_SCENARIOS * (TRADING_DAYS * 2))
                       (1 / 2)%R)
          - MONTE_CARLO_SCENARIOS * (TRADING_DAYS * (2 * 1)))%nat
    /\ MonteCarloResults.scenarios m = 1000%nat
    /\ MonteCarloResults.percentile_5 m <= MonteCarloResults.percentile_25 m
    /\ MonteCarloResults.percentile_25 m <= MonteCarloResults.percentile_75 m
    /\ MonteCarloResults.percentile_75 m <= MonteCarloResults.percentile_95 m
    /\ MonteCarloResults.worstCase m = MonteCarloResults.percentile_5 m
    /\ MonteCarloResults.bestCase m = MonteCarloResults.percentile_95 m
    /\ 0 <= MonteCarloResults.successRate m <= 1.
Proof.
  apply (runAdvancedMonteCarloSimulation_summary
           [("SPY"%string, 1)] [("SPY"%string, 0.1)] [[0.04]] 10000
           ["SPY"%string]).
  - intros symbol Hsymbol. exact Hsymbol.
  - intros symbol Hsymbol. exact Hsymbol.
  - split; [reflexivity|].
    intros [|i] row Hrow; cbn in Hrow; [|done]. by injection Hrow as <-.
  - rewrite nonzero_draws_replicate by lra. cbn [length]. lia.
Defined.

(** ** Maximum drawdown *)

Lemma get_lookup (o : obj) (i : nat) (k : string) (v : R) :
  NoDup (keys o) -> o !! i = Some (k, v) -> get o k = Some v.
Proof.
  unfold keys. revert i. induction o as [|[k' v'] o IH]; intros i Hnodup Hi;
    [done|].
  cbn [fmap list_fmap fst] in Hnodup. apply NoDup_cons in Hnodup as [Hk' Ho].
  cbn [get]. destruct i as [|i]; cbn in Hi.
  - injection Hi as -> ->. by rewrite decide_True.
  - rewrite decide_False; [by apply (IH i)|].
    intros ->. apply Hk'. apply list_elem_of_fmap. exists (k', v).
    split; [done|]. by eapply list_elem_of_lookup_2.
Qed.

Lemma get_elem_of (o : obj) (k : string) (v : R) :
  get o k = Some v -> (k, v) ∈ o.
Proof.
  induction o as [|[k' v'] o IH]; [done|]. cbn [get].
  destruct (decide (k = k')) as [->|Hk].
  - intros [= ->]. by left.
  - intros Hget. right. by apply IH.
Qed.

Lemma sum_snoc (xs : list R) (x : R) : sum (xs ++ [x]) = sum xs + x.
Proof. unfold sum. by rewrite foldl_app. Qed.

Section Drawdown.

Variables (weights : obj) (historicalData : list HistoricalData.t).

(** No holding is short and no recorded return is negative. *)
Let never_loses : Prop :=
  Forall (fun w => 0 <= w) (values weights)
  /\ Forall (fun data => Forall (fun r => 0 <= r) (HistoricalData.returns data))
            historicalData.

(** No holding is short, the weights are those of distinct symbols and add up
    to at most 1, and no asset loses more than its whole value in a day. *)
Let long_only : Prop :=
  NoDup (keys weights)
  /\ Forall (fun w => 0 <= w) (values weights)
  /\ sum (values weights) <= 1
  /\ Forall (fun data => Forall (fun r => -1 <= r) (HistoricalData.returns data))
            historicalData.

Lemma daily_return_Some (i : nat) :
  exists dailyReturn,
    for_of (keys weights) (fun symbol dailyReturn =>
      match list_find (fun data => HistoricalData.symbol data = symbol)
                      historicalData with
      | Some (dataIndex, data) =>
          match HistoricalData.returns data !! i with
          | Some r =>
              w ← get weights symbol;
              Some (dailyReturn + w * r)
          | None => Some dailyReturn
          end
      | None => Some dailyReturn
      end) 0
    = Some dailyReturn
    /\ (never_loses -> 0 <= dailyReturn)
    /\ (long_only -> -1 <= dailyReturn).
Proof.
  match goal with
  | |- context [for_of ?xs ?body ?s0] =>
      destruct (for_of_invariant
                  (fun (seen : list string) (dailyReturn : R) =>
                     (never_loses -> 0 <= dailyReturn)
                     /\ (long_only ->
                         - sum (take (length seen) (values weights))
                         <= dailyReturn))
                  body xs s0)
        as (dailyReturn & Hrun & Hnonneg & Hlong)
  end.
  - split; intros _; cbn; [lra|]. unfold sum. rewrite take_0. cbn. lra.
  - intros seen symbol rest dailyReturn Hsymbol [Hnonneg Hlong].
    assert (Hentry : exists w, weights !! length seen = Some (symbol, w)).
    { assert (Hkey : keys weights !! length seen = Some symbol).
      { rewrite Hsymbol. by apply list_lookup_middle. }
      unfold keys in Hkey.
      apply list_lookup_fmap_Some in Hkey as ([k w] & Hw & Hk).
      cbn in Hk. assert (k = symbol) as -> by done. by exists w. }
    destruct Hentry as [w0 Hentry].
    assert (Htake : sum (take (length (seen ++ [symbol])) (values weights))
                    = sum (take (length seen) (values weights)) + w0).
    { rewrite length_app. cbn [length].
      replace (length seen + 1)%nat with (S (length seen)) by lia.
      erewrite take_S_r; [apply sum_snoc|].
      unfold values. apply list_lookup_fmap_Some. by exists (symbol, w0). }
    assert (Hw0 : Forall (fun w => 0 <= w) (values weights) -> 0 <= w0).
    { intros Hall. rewrite Forall_forall in Hall. apply Hall.
      unfold values. apply list_elem_of_fmap. exists (symbol, w0).
      split; [done|]. by eapply list_elem_of_lookup_2. }
    destruct (list_find _ historicalData) as [[dataIndex data]|] eqn:Hfind.
    + apply list_find_Some in Hfind as (Hdata & _).
      apply list_elem_of_lookup_2 in Hdata.
      destruct (HistoricalData.returns data !! i) as [r|] eqn:Hr.
      * apply list_elem_of_lookup_2 in Hr.
        destruct (proj2 (get_is_Some weights symbol)) as [w Hw].
        { rewrite Hsymbol. apply elem_of_app. right. apply list_elem_of_here. }
        rewrite Hw. cbn [mbind option_bind]. eexists. split; [reflexivity|].
        split.
        -- intros [Hweights Hreturns].
           assert (0 <= w).
           { rewrite Forall_forall in Hweights. apply Hweights.
             unfold values. apply list_elem_of_fmap. exists (symbol, w).
             split; [done|]. by apply get_elem_of. }
           assert (0 <= r).
           { rewrite Forall_forall in Hreturns.
             specialize (Hreturns _ Hdata). rewrite Forall_forall in Hreturns.
             by apply Hreturns. }
           specialize (Hnonneg (conj Hweights Hreturns)). nra.
        -- intros (Hnodup & Hweights & Hsum & Hreturns).
           rewrite Htake.
           assert (w = w0) as ->.
           { pose proof (get_lookup _ _ _ _ Hnodup Hentry) as Hw'.
             congruence. }
           pose proof (Hw0 Hweights).
           assert (-1 <= r).
           { rewrite Forall_forall in Hreturns.
             specialize (Hreturns _ Hdata). rewrite Forall_forall in Hreturns.
             by apply Hreturns. }
           specialize (Hlong (conj Hnodup (conj Hweights (conj Hsum Hreturns)))).
           nra.
      * eexists. split; [reflexivity|]. split; [done|].
        intros Hhyp. rewrite Htake.
        pose proof (Hlong Hhyp). destruct Hhyp as (_ & Hweights & _).
        pose proof (Hw0 Hweights). lra.
    + eexists. split; [reflexivity|]. split; [done|].
      intros Hhyp. rewrite Htake.
      pose proof (Hlong Hhyp). destruct Hhyp as (_ & Hweights & _).
      pose proof (Hw0 Hweights). lra.
  - exists dailyReturn. split; [done|]. split; [done|].
    intros Hhyp. specialize (Hlong Hhyp).
    destruct Hhyp as (_ & _ & Hsum & _).
    rewrite take_ge in Hlong; [lra|].
    unfold keys, values. by rewrite !length_fmap.
Qed.

Lemma portfolio_returns_Some (minLength : nat) :
  exists portfolioReturns,
    for_of (seq 0 minLength) (fun i portfolioReturns =>
      dailyReturn ← for_of (keys weights) (fun symbol dailyReturn =>
        match list_find (fun data => HistoricalData.symbol data = symbol)
                        historicalData with
        | Some (dataIndex, data) =>
            match HistoricalData.returns data !! i with
            | Some r =>
                w ← get weights symbol;
                Some (dailyReturn + w * r)
            | None => Some dailyReturn
            end
        | None => Some dailyReturn
        end) 0;
      Some (portfolioReturns ++ [dailyReturn])) []
    = Some portfolioReturns
    /\ (never_loses -> Forall (fun r => 0 <= r) portfolioReturns)
    /\ (long_only -> Forall (fun r => -1 <= r) portfolioReturns).
Proof.
  match goal with
  | |- context [for_of ?xs ?body ?s0] =>
      destruct (for_of_invariant
                  (fun (_ : list nat) (portfolioReturns : list R) =>
                     (never_loses -> Forall (fun r => 0 <= r) portfolioReturns)
                     /\ (long_only ->
                         Forall (fun r => -1 <= r) portfolioReturns))
                  body xs s0)
        as (portfolioReturns & Hrun & Hinv)
  end; [by split| |by exists portfolioReturns].
  intros seen i rest portfolioReturns _ [Hnonneg Hlong].
  destruct (daily_return_Some i) as (dailyReturn & -> & Hd0 & Hd1).
  cbn [mbind option_bind]. eexists. split; [reflexivity|].
  split; intros Hhyp; apply Forall_app; split; auto.
Qed.

End Drawdown.

(** The replay of the portfolio returns: the running maximum never falls
    below the starting value 1 and the largest drawdown never below 0. *)
Lemma drawdown_replay (portfolioReturns : list R) :
  forall cumulativeValue maxValue maxDrawdown,
    1 <= maxValue -> 0 <= maxDrawdown ->
    exists cumulativeValue' maxValue' maxDrawdown',
      foldl (fun '(cumulativeValue, maxValue, maxDrawdown) dailyReturn =>
               let cumulativeValue := cumulativeValue * (1 + dailyReturn) in
               let maxValue := Math_max maxValue cumulativeValue in
               let drawdown := (maxValue - cumulativeValue) / maxValue in
               let maxDrawdown := Math_max maxDrawdown drawdown in
               (cumulativeValue, maxValue, maxDrawdown))
            (cumulativeValue, maxValue, maxDrawdown) portfolioReturns
      = (cumulativeValue', maxValue', maxDrawdown')
      /\ 0 <= maxDrawdown'
      /\ (Forall (fun r => 0 <= r) portfolioReturns ->
          cumulativeValue = maxValue -> maxDrawdown = 0 ->
          maxDrawdown' = 0)
      /\ (Forall (fun r => -1 <= r) portfolioReturns ->
          0 <= cumulativeValue -> maxDrawdown <= 1 ->
          maxDrawdown' <= 1).
Proof.
  induction portfolioReturns as [|r rs IH];
    intros cumulativeValue maxValue maxDrawdown Hmax Hdd.
  - exists cumulativeValue, maxValue, maxDrawdown. by repeat split.
  - pose (c1 := cumulativeValue * (1 + r)).
    pose (m1 := Math_max maxValue c1).
    pose (d1 := Math_max maxDrawdown ((m1 - c1) / m1)).
    assert (Hm1 : 1 <= m1).
    { unfold m1, Math_max. pose proof (Rmax_l maxValue c1). lra. }
    assert (Hd1 : 0 <= d1).
    { unfold d1, Math_max.
      pose proof (Rmax_l maxDrawdown ((m1 - c1) / m1)). lra. }
    destruct (IH c1 m1 d1 Hm1 Hd1)
      as (c' & m' & d' & Hreplay & Hd' & Hzero & Hone).
    exists c', m', d'. split; [exact Hreplay|]. split; [done|].
    unfold Math_max in *. split.
    + intros Hrs -> ->. apply Forall_cons in Hrs as [Hr Hrs].
      assert (Hc1 : maxValue <= c1) by (unfold c1; nra).
      assert (Hm1c1 : m1 = c1) by (unfold m1; by apply Rmax_right).
      apply Hzero; [done|done|].
      unfold d1. rewrite Hm1c1.
      replace ((c1 - c1) / c1) with 0 by (field; lra).
      apply Rmax_left. lra.
    + intros Hrs Hc Hdd1. apply Forall_cons in Hrs as [Hr Hrs].
      assert (Hc1 : 0 <= c1) by (unfold c1; nra).
      apply Hone; [done|done|].
      unfold d1. apply Rmax_lub; [done|].
      assert (Hc1m1 : c1 <= m1) by (unfold m1; apply Rmax_r).
      apply (Rmult_le_reg_r m1); [lra|].
      unfold Rdiv. rewrite Rmult_assoc, Rinv_l; lra.
Qed.

Lemma calculateMaxDrawdown_nonneg
    (weights : obj) (historicalData : list HistoricalData.t) :
  historicalData <> [] ->
  exists maxDrawdown,
    calculateMaxDrawdown weights historicalData = Some maxDrawdown
    /\ 0 <= maxDrawdown.
Proof.
  intros Hdata. unfold calculateMaxDrawdown.
  destruct (map _ historicalData) as [|len lens] eqn:Hlens.
  { by apply map_eq_nil in Hlens. }
  set (minLength := foldl Nat.min _ _).
  destruct (minLength <? 20)%nat; [exists 0; split; [done|lra]|].
  destruct (portfolio_returns_Some weights historicalData minLength)
    as (portfolioReturns & -> & _).
  cbn [mbind option_bind].
  destruct (drawdown_replay portfolioReturns 1 1 0)
    as (c' & m' & d' & Hreplay & Hd' & _); [lra..|].
  exists d'. split; [|done].
  match goal with
  | |- context [foldl ?f ?init portfolioReturns] =>
      replace (foldl f init portfolioReturns) with (c', m', d')
        by (symmetry; exact Hreplay)
  end.
  done.
Qed.

(** X13.  With some historical data the drawdown calculation always answers
    a number that is not negative; it is 0 when no holding is short and no
    recorded return is negative, and at most 1 when the holdings are long
    only with weights that add up to at most 1 and no asset loses more than
    its whole value in a day. *)
Theorem calculateMaxDrawdown_bounds
    (weights : obj) (historicalData : list HistoricalData.t) :
  historicalData <> [] ->
  exists maxDrawdown,
    calculateMaxDrawdown weights historicalData = Some maxDrawdown
    /\ 0 <= maxDrawdown
    /\ (Forall (fun w => 0 <= w) (values weights) ->
        Forall (fun data =>
                  Forall (fun r => 0 <= r) (HistoricalData.returns data))
               historicalData ->
        maxDrawdown = 0)
    /\ (NoDup (keys weights) ->
        Forall (fun w => 0 <= w) (values weights) ->
        sum (values weights) <= 1 ->
        Forall (fun data =>
                  Forall (fun r => -1 <= r) (HistoricalData.returns data))
               historicalData ->
        maxDrawdown <= 1).
Proof.
  intros Hdata. unfold calculateMaxDrawdown.
  destruct (map _ historicalData) as [|len lens] eqn:Hlens.
  { by apply map_eq_nil in Hlens. }
  set (minLength := foldl Nat.min _ _).
  destruct (minLength <? 20)%nat.
  { exists 0. split; [done|]. split; [lra|]. split; intros; lra. }
  destruct (portfolio_returns_Some weights historicalData minLength)
    as (portfolioReturns & -> & Hnonneg & Hlong).
  cbn [mbind option_bind].
  destruct (drawdown_replay portfolioReturns 1 1 0)
    as (c' & m' & d' & Hreplay & Hd' & Hzero & Hone); [lra..|].
  exists d'. split.
  { match goal with
    | |- context [foldl ?f ?init portfolioReturns] =>
        replace (foldl f init portfolioReturns) with (c', m', d')
          by (symmetry; exact Hreplay)
    end.
    done. }
  split; [done|]. split.
  - intros Hweights Hreturns. apply Hzero; [|done..].
    by apply Hnonneg.
  - intros Hnodup Hweights Hsum Hreturns. apply Hone; [|lra..].
    by apply Hlong.
Qed.

Lemma calculateMaxDrawdown_bounds_witness :
  exists maxDrawdown,
    calculateMaxDrawdown [("AAPL"%string, 1)]
      [HistoricalData.mk "AAPL" [] (replicate 20 (-0.01))]
    = Some maxDrawdown
    /\ 0 <= maxDrawdown
    /\ (Forall (fun w => 0 <= w) (values [("AAPL"%string, 1)]) ->
        Forall (fun data =>
                  Forall (fun r => 0 <= r) (HistoricalData.returns data))
               [HistoricalData.mk "AAPL" [] (replicate 20 (-0.01))] ->
        maxDrawdown = 0)
    /\ (NoDup (keys [("AAPL"%string, 1)]) ->
        Forall (fun w => 0 <= w) (values [("AAPL"%string, 1)]) ->
        sum (values [("AAPL"%string, 1)]) <= 1 ->
        Forall (fun data =>
                  Forall (fun r => -1 <= r) (HistoricalData.returns data))
               [HistoricalData.mk "AAPL" [] (replicate 20 (-0.01))] ->
        maxDrawdown <= 1).
Proof.
  apply (calculateMaxDrawdown_bounds [("AAPL"%string, 1)]
           [HistoricalData.mk "AAPL" [] (replicate 20 (-0.01))]).
  discriminate.
Defined.

(** ** Value at risk *)

Lemma log_small (p : R) : 0 < p -> p <= 1 / 9 -> ln p <= -2.
Proof.
  intros Hp Hp9.
  assert (Hexp2 : exp 2 <= 9).
  { replace 2 with (1 + 1) by lra. rewrite exp_plus.
    pose proof exp_le_3. pose proof (exp_pos 1). nra. }
  assert (Hle : p <= exp (-2)).
  { replace (-2) with (Ropp 2) by lra.
    rewrite exp_Ropp. pose proof (exp_pos 2).
    apply Rle_trans with (1 / 9); [done|].
    unfold Rdiv. rewrite Rmult_1_l. apply Rinv_le_contravar; lra. }
  rewrite <- (ln_exp (-2)).
  destruct Hle as [Hlt| ->]; [|lra].
  left. by apply ln_increasing.
Qed.

Lemma getZScore_negative (confidenceLevel : R) :
  0 < confidenceLevel -> confidenceLevel <= 1 / 9 ->
  getZScore confidenceLevel < 0.
Proof.
  intros Hp Hp9. unfold getZScore, Math_sqrt, Math_log. cbv zeta.
  pose proof (log_small confidenceLevel Hp Hp9) as Hln.
  set (t := sqrt (-2 * ln confidenceLevel)).
  assert (Ht : 2 <= t).
  { unfold t. rewrite <- (sqrt_of_square 4 2) by lra.
    apply sqrt_le_1_alt. lra. }
  set (D := 1 + 1.432788 * t + 0.189269 * t * t + 0.001308 * t * t * t).
  assert (HD : 0 < D) by (unfold D; nra).
  assert (Hratio : (2.515517 + 0.802853 * t + 0.010328 * t * t) / D < t).
  { apply (Rmult_lt_reg_r D); [done|].
    unfold Rdiv. rewrite Rmult_assoc, Rinv_l by lra. unfold D. nra. }
  lra.
Qed.

(** X14.  At a confidence level of at most one in nine (the service uses
    0.05) and with a positive volatility, the value at risk and the
    conditional value at risk both lie strictly below the expected
    return. *)
Theorem calculateVaR_below_expected_return
    (expectedReturn volatility confidenceLevel : R) :
  0 < confidenceLevel -> confidenceLevel <= 1 / 9 -> 0 < volatility ->
  calculateVaR expectedReturn volatility confidenceLevel < expectedReturn
  /\ calculateConditionalVaR expectedReturn volatility confidenceLevel
     < expectedReturn.
Proof.
  intros Hp Hp9 Hvol. split.
  - unfold calculateVaR. cbv zeta.
    pose proof (getZScore_negative confidenceLevel Hp Hp9). nra.
  - unfold calculateConditionalVaR. cbv zeta.
    set (z := getZScore confidenceLevel).
    unfold Math_sqrt, Math_exp, Math_PI.
    assert (Hsqrt : 0 < sqrt (2 * PI)).
    { apply sqrt_lt_R0. pose proof PI_RGT_0. lra. }
    pose proof (exp_pos (-0.5 * z * z)) as Hexp.
    assert (Hphi : 0 < 1 / sqrt (2 * PI) * exp (-0.5 * z * z)).
    { apply Rmult_lt_0_compat; [|done].
      apply Rdiv_lt_0_compat; lra. }
    assert (Hscaled : 0 < 1 / sqrt (2 * PI) * exp (-0.5 * z * z)
                          / confidenceLevel * volatility).
    { apply Rmult_lt_0_compat; [|done]. by apply Rdiv_lt_0_compat. }
    lra.
Qed.

Lemma calculateVaR_below_expected_return_witness :
  calculateVaR 0.1 0.2 0.05 < 0.1
  /\ calculateConditionalVaR 0.1 0.2 0.05 < 0.1.
Proof.
  apply (calculateVaR_below_expected_return 0.1 0.2 0.05); lra.
Defined.

(** ** Weights add up to one *)

Lemma sum_cons (x : R) (xs : list R) : sum (x :: xs) = x + sum xs.
Proof. by rewrite !sum_foldr. Qed.

Lemma sum_replicate (n : nat) (x : R) : sum (replicate n x) = INR n * x.
Proof.
  induction n as [|n IH]; cbn [replicate].
  - unfold sum. cbn. rewrite INR_0. lra.
  - rewrite sum_cons, IH, S_INR. lra.
Qed.

Lemma sum_scaled (c : R) (xs : list R) :
  sum (map (fun w => w / c) xs) = sum xs / c.
Proof.
  induction xs as [|x xs IH]; cbn [map].
  - unfold sum. cbn. lra.
  - rewrite !sum_cons, IH. lra.
Qed.

Lemma sum_nonneg (xs : list R) : Forall (fun x => 0 <= x) xs -> 0 <= sum xs.
Proof.
  induction 1 as [|x xs Hx _ IH]; [unfold sum; cbn; lra|].
  rewrite sum_cons. lra.
Qed.

(** A weighted sum of positive numbers with weights that are not negative
    and not all zero is positive. *)
Lemma weighted_sum_pos (ws rs : list R) :
  Forall (fun w => 0 <= w) ws -> Forall (fun r => 0 < r) rs ->
  length ws = length rs ->
  0 <= sum (zip_with Rmult ws rs)
  /\ (sum (zip_with Rmult ws rs) = 0 -> sum ws = 0).
Proof.
  intros Hws. revert rs. induction Hws as [|w ws Hw _ IH]; intros rs Hrs Hlen.
  - unfold sum. cbn. split; [lra|done].
  - destruct Hrs as [|r rs Hr Hrs]; [done|]. cbn [zip_with].
    rewrite !sum_cons. destruct (IH rs Hrs) as [Hpos Hzero]; [cbn in Hlen; lia|].
    assert (0 <= w * r) by nra. split; [lra|].
    intros Hsum. assert (Hwr : w * r = 0) by lra.
    assert (w = 0) by nra. rewrite Hzero; lra.
Qed.

(** The scaling of the heuristic: the scaled weights add up to the target
    return over the current one. *)
Lemma sum_adjusted (adjustment currentReturn : R) (ws rs : list R) :
  length ws = length rs ->
  sum (zip_with (fun w r => w * (1 + adjustment * (r / currentReturn))) ws rs)
  = sum ws + adjustment / currentReturn * sum (zip_with Rmult ws rs).
Proof.
  revert rs. induction ws as [|w ws IH]; intros [|r rs] Hlen; try done.
  - unfold sum. cbn. lra.
  - cbn [zip_with]. rewrite !sum_cons, IH by (cbn in Hlen; lia).
    unfold Rdiv. lra.
Qed.

Lemma keys_set (o : obj) (k : string) (v : R) :
  keys (set o k v) = if decide (k ∈ keys o) then keys o else keys o ++ [k].
Proof.
  unfold keys. induction o as [|[k0 v0] o IH]; cbn [set fmap list_fmap fst].
  - rewrite decide_False; [done|]. by intros ?%elem_of_nil.
  - destruct (decide (k = k0)) as [->|Hk]; cbn [fmap list_fmap fst].
    + rewrite decide_True; [done|]. apply list_elem_of_here.
    + rewrite IH. destruct (decide (k ∈ o.*1)) as [Hin|Hin].
      * rewrite decide_True; [done|]. by apply list_elem_of_further.
      * rewrite decide_False; [done|].
        intros [?|?]%elem_of_cons; done.
Qed.

(** An object with distinct keys is determined by what [get] answers. *)
Lemma values_by_get (o : obj) (vs : list R) :
  NoDup (keys o) -> length vs = length o ->
  (forall j s, keys o !! j = Some s -> get o s = vs !! j) ->
  values o = vs.
Proof.
  intros Hnodup Hlen Hget. apply list_eq. intros j. unfold values.
  destruct (o !! j) as [[s w]|] eqn:Hj.
  - rewrite <- (Hget j s).
    + rewrite (get_lookup o j s w) by done.
      apply list_lookup_fmap_Some. by exists (s, w).
    + unfold keys. apply list_lookup_fmap_Some. by exists (s, w).
  - apply lookup_ge_None in Hj.
    rewrite (proj2 (lookup_ge_None vs j)) by lia.
    apply lookup_ge_None. rewrite length_fmap. lia.
Qed.

Lemma calculatePortfolioReturn_weighted_sum
    (expectedReturns weights : obj) (rs : list R) :
  Forall2 (fun s r => get expectedReturns s = Some r) (keys weights) rs ->
  calculatePortfolioReturn weights expectedReturns
  = Some (sum (zip_with Rmult (values weights) rs)).
Proof.
  unfold calculatePortfolioReturn, entries, sum, keys, values.
  generalize 0. revert rs.
  induction weights as [|[s w] weights IH]; intros rs acc Hrs.
  - by apply Forall2_nil_inv_l in Hrs as ->.
  - cbn [fmap list_fmap fst] in Hrs.
    apply Forall2_cons_inv_l in Hrs as (r & rs' & Hr & Hrs & ->).
    cbn [for_of fmap list_fmap snd zip_with foldl]. rewrite Hr.
    cbn [mbind option_bind]. by apply IH.
Qed.

Lemma get_by_values (o : obj) (j : nat) (s : string) :
  NoDup (keys o) -> keys o !! j = Some s -> get o s = values o !! j.
Proof.
  intros Hnodup Hs. unfold keys in Hs.
  apply list_lookup_fmap_Some in Hs as ([k w] & Hj & Hk).
  cbn in Hk. assert (k = s) as -> by done.
  rewrite (get_lookup o j s w) by done.
  symmetry. unfold values. apply list_lookup_fmap_Some. by exists (s, w).
Qed.

Section DistinctSymbols.

Variable symbols : list string.
Hypothesis symbols_distinct : NoDup symbols.

Lemma symbol_index (i j : nat) (s : string) :
  symbols !! i = Some s -> symbols !! j = Some s -> i = j.
Proof. intros Hi Hj. by eapply NoDup_lookup. Qed.

(** Writing the weight of the next symbol into an object that holds the
    weights of the symbols before it. *)
Lemma build_step (weights : obj) (k : nat) (s : string) (v : R)
    (vs : list R) :
  keys weights = take k symbols -> symbols !! k = Some s ->
  vs !! k = Some v ->
  (forall j s', (j < k)%nat -> symbols !! j = Some s' ->
                get weights s' = vs !! j) ->
  keys (set weights s v) = take (S k) symbols
  /\ (forall j s', (j < S k)%nat -> symbols !! j = Some s' ->
                   get (set weights s v) s' = vs !! j).
Proof.
  intros Hkeys Hs Hv Hget. split.
  - rewrite keys_set, Hkeys. rewrite decide_False.
    + by erewrite take_S_r.
    + intros Hin. apply list_elem_of_lookup_1 in Hin as [j Hj].
      apply lookup_take_Some in Hj as [Hj Hjk].
      pose proof (symbol_index _ _ _ Hj Hs). lia.
  - intros j s' Hj Hs'. rewrite get_set.
    destruct (decide (s' = s)) as [->|Hne].
    + by rewrite (symbol_index _ _ _ Hs' Hs).
    + apply Hget; [|done].
      assert (j <> k) by (intros ->; congruence). lia.
Qed.

(** Overwriting the weight of symbol [k] in an object over the symbols. *)
Lemma update_step (weights : obj) (k : nat) (s : string) (v : R)
    (old new : list R) :
  keys weights = symbols -> symbols !! k = Some s -> new !! k = Some v ->
  (forall j s', symbols !! j = Some s' ->
                get weights s' = (if decide (j < k)%nat then new else old) !! j) ->
  keys (set weights s v) = symbols
  /\ (forall j s', symbols !! j = Some s' ->
        get (set weights s v) s'
        = (if decide (j < S k)%nat then new else old) !! j).
Proof.
  intros Hkeys Hs Hv Hget. split.
  - rewrite keys_set, Hkeys. rewrite decide_True; [done|].
    by eapply list_elem_of_lookup_2.
  - intros j s' Hs'. rewrite get_set.
    destruct (decide (s' = s)) as [->|Hne].
    + rewrite (symbol_index _ _ _ Hs' Hs). by rewrite decide_True by lia.
    + rewrite (Hget j s' Hs').
      assert (j <> k) by (intros ->; congruence).
      destruct (decide (j < k)%nat); [by rewrite decide_True by lia|].
      by rewrite decide_False by lia.
Qed.

(** An object over the symbols whose answers are the entries of [vs]. *)
Lemma values_over_symbols (weights : obj) (vs : list R) :
  keys weights = symbols -> length vs = length symbols ->
  (forall j s', symbols !! j = Some s' -> get weights s' = vs !! j) ->
  values weights = vs.
Proof.
  intros Hkeys Hlen Hget. apply values_by_get.
  - by rewrite Hkeys.
  - rewrite Hlen, <- Hkeys. unfold keys. by rewrite length_fmap.
  - intros j s'. rewrite Hkeys. apply Hget.
Qed.

End DistinctSymbols.

Section HeuristicSum.

Variables (expectedReturns : obj) (covarianceMatrix : list (list R))
          (symbols : list string) (rs : list R) (targetReturn : R).

Hypothesis symbols_distinct : NoDup symbols.
Hypothesis returns_known :
  Forall2 (fun s r => get expectedReturns s = Some r) symbols rs.
Hypothesis variances :
  forall i, (i < length symbols)%nat -> is_Some (entry covarianceMatrix i i).

Lemma returns_lookup (i : nat) (s : string) :
  symbols !! i = Some s ->
  exists r, rs !! i = Some r /\ get expectedReturns s = Some r.
Proof.
  intros Hs.
  destruct (Forall2_lookup_l _ _ _ _ _ returns_known Hs) as (r & Hr & Hget).
  by exists r.
Qed.

Lemma returns_length : length rs = length symbols.
Proof. symmetry. by eapply Forall2_length. Qed.

Lemma heuristic_scores :
  exists scores,
    for_of (seq 0 (length symbols)) (fun i scores =>
      symbol ← symbols !! i;
      r ← get expectedReturns symbol;
      let excessReturn := r - RISK_FREE_RATE in
      variance ← entry covarianceMatrix i i;
      let sharpeRatio :=
        if ltb 0 variance then excessReturn / Math_sqrt variance else 0 in
      Some (scores ++ [Math_max 0 sharpeRatio])) []
    = Some scores
    /\ length scores = length symbols
    /\ Forall (fun score => 0 <= score) scores.
Proof.
  match goal with
  | |- context [for_of ?xs ?body ?s0] =>
      destruct (for_of_invariant
                  (fun (seen : list nat) (scores : list R) =>
                     length scores = length seen
                     /\ Forall (fun score => 0 <= score) scores)
                  body xs s0)
        as (scores & Hrun & Hlen & Hpos)
  end; [by split| |].
  - intros seen i rest scores Hi [Hlen Hpos].
    apply seq_split_index in Hi as [_ Hi].
    destruct (lookup_lt_is_Some_2 symbols i Hi) as [symbol Hsymbol].
    rewrite Hsymbol. cbn [mbind option_bind].
    destruct (returns_lookup i symbol Hsymbol) as (r & _ & ->).
    cbn [mbind option_bind].
    destruct (variances i Hi) as [variance ->].
    cbn [mbind option_bind]. eexists. split; [reflexivity|]. split.
    + rewrite !length_app. cbn [length]. lia.
    + apply Forall_app. split; [done|]. constructor; [|constructor].
      unfold Math_max. apply Rmax_l.
  - exists scores. rewrite length_seq in Hlen. by repeat split.
Qed.

Lemma heuristic_initial_weights (scores : list R) :
  length scores = length symbols ->
  Forall (fun score => 0 <= score) scores ->
  exists weights ws,
    (if eqb (sum scores) 0 then
       for_of (seq 0 (length symbols)) (fun i weights =>
         symbol ← symbols !! i;
         Some (set weights symbol (1 / INR (length symbols)))) []
     else
       for_of (seq 0 (length symbols)) (fun i weights =>
         symbol ← symbols !! i;
         score ← scores !! i;
         Some (set weights symbol (score / sum scores))) [])
    = Some weights
    /\ keys weights = symbols
    /\ values weights = ws
    /\ length ws = length symbols
    /\ (symbols <> [] -> Forall (fun w => 0 <= w) ws /\ sum ws = 1).
Proof.
  intros Hlen Hpos.
  assert (Hn : symbols <> [] -> 0 < INR (length symbols)).
  { intros Hne. apply lt_0_INR. destruct symbols; [done|cbn; lia]. }
  pose (I := fun (vs : list R) (seen : list nat) (weights : obj) =>
               keys weights = take (length seen) symbols
               /\ (forall j s', (j < length seen)%nat ->
                                symbols !! j = Some s' ->
                                get weights s' = vs !! j)).
  assert (Hfinal : forall vs weights,
             length vs = length symbols ->
             I vs (seq 0 (length symbols)) weights ->
             keys weights = symbols /\ values weights = vs).
  { intros vs weights Hvs [Hkeys Hget]. rewrite length_seq in Hkeys, Hget.
    rewrite take_ge in Hkeys by lia. split; [done|].
    apply (values_over_symbols symbols); [done..|].
    intros j s' Hs'. apply Hget; [|done]. by eapply lookup_lt_Some. }
  unfold eqb. case_bool_decide as Htotal.
  - set (vs := replicate (length symbols) (1 / INR (length symbols))).
    match goal with
    | |- context [for_of ?xs ?body ?s0] =>
        destruct (for_of_invariant (I vs) body xs s0)
          as (weights & Hrun & Hweights)
    end.
    + split; [done|]. intros j s' Hj. cbn in Hj. lia.
    + intros seen i rest weights Hi [Hkeys Hget].
      apply seq_split_index in Hi as [-> Hi].
      destruct (lookup_lt_is_Some_2 symbols (length seen) Hi)
        as [symbol Hsymbol].
      rewrite Hsymbol. cbn [mbind option_bind]. eexists.
      split; [reflexivity|].
      unfold I. rewrite length_app. cbn [length].
      replace (length seen + 1)%nat with (S (length seen)) by lia.
      apply (build_step symbols); [done..| |done].
      by apply lookup_replicate_2.
    + destruct (Hfinal vs weights) as [Hkeys Hvalues];
        [by apply length_replicate|done|].
      exists weights, vs. split; [done|]. split; [done|]. split; [done|].
      split; [by apply length_replicate|].
      intros Hne. specialize (Hn Hne). split.
      * apply Forall_replicate. apply Rlt_le, Rdiv_lt_0_compat; lra.
      * unfold vs. rewrite sum_replicate. field. lra.
  - set (vs := map (fun score => score / sum scores) scores).
    assert (Hvs : length vs = length symbols).
    { unfold vs. by rewrite length_map. }
    match goal with
    | |- context [for_of ?xs ?body ?s0] =>
        destruct (for_of_invariant (I vs) body xs s0)
          as (weights & Hrun & Hweights)
    end.
    + split; [done|]. intros j s' Hj. cbn in Hj. lia.
    + intros seen i rest weights Hi [Hkeys Hget].
      apply seq_split_index in Hi as [-> Hi].
      destruct (lookup_lt_is_Some_2 symbols (length seen) Hi)
        as [symbol Hsymbol].
      rewrite Hsymbol. cbn [mbind option_bind].
      destruct (lookup_lt_is_Some_2 scores (length seen)) as [score Hscore];
        [lia|].
      rewrite Hscore. cbn [mbind option_bind]. eexists.
      split; [reflexivity|].
      unfold I. rewrite length_app. cbn [length].
      replace (length seen + 1)%nat with (S (length seen)) by lia.
      apply (build_step symbols); [done..| |done].
      unfold vs. by rewrite list_lookup_fmap, Hscore.
    + destruct (Hfinal vs weights) as [Hkeys Hvalues]; [done..|].
      exists weights, vs. split; [done|]. split; [done|]. split; [done|].
      split; [done|].
      pose proof (sum_nonneg scores Hpos) as Htotal0.
      intros _. split.
      * unfold vs. apply Forall_fmap. eapply Forall_impl; [exact Hpos|].
        intros score Hscore. cbn in *.
        unfold Rdiv. apply Rmult_le_pos; [done|].
        apply Rlt_le, Rinv_0_lt_compat. lra.
      * unfold vs. rewrite sum_scaled. field. lra.
Qed.

(** The invariant of the two loops that overwrite the weights in place:
    the symbols seen hold their new weight, the others still the old one. *)
Let rewritten (old new : list R) (seen : nat) (weights : obj) : Prop :=
  keys weights = symbols
  /\ (forall j s', symbols !! j = Some s' ->
        get weights s'
        = (if decide (j < seen)%nat then new else old) !! j).

Lemma rewritten_init (weights : obj) (new : list R) :
  keys weights = symbols -> rewritten (values weights) new 0 weights.
Proof.
  intros Hkeys. split; [done|]. intros j s' Hs'.
  rewrite decide_False by lia. apply get_by_values; by rewrite Hkeys.
Qed.

Lemma rewritten_values (old new : list R) (weights : obj) :
  length new = length symbols ->
  rewritten old new (length symbols) weights -> values weights = new.
Proof.
  intros Hnew [Hkeys Hget]. apply (values_over_symbols symbols); [done..|].
  intros j s' Hs'. rewrite (Hget j s' Hs').
  rewrite decide_True; [done|]. by eapply lookup_lt_Some.
Qed.

Lemma heuristic_adjust (weights : obj) (ws : list R)
    (adjustment currentReturn : R) :
  keys weights = symbols -> values weights = ws ->
  length ws = length symbols ->
  exists weights',
    for_of (seq 0 (length symbols)) (fun i weights =>
      symbol ← symbols !! i;
      r ← get expectedReturns symbol;
      let returnRatio := r / currentReturn in
      w ← get weights symbol;
      Some (set weights symbol (w * (1 + adjustment * returnRatio)))) weights
    = Some weights'
    /\ keys weights' = symbols
    /\ values weights'
       = zip_with (fun w r => w * (1 + adjustment * (r / currentReturn)))
                  ws rs.
Proof.
  intros Hkeys Hvalues Hlen.
  set (new := zip_with _ ws rs).
  assert (Hnew : length new = length symbols).
  { unfold new. rewrite length_zip_with, returns_length. lia. }
  match goal with
  | |- context [for_of ?xs ?body ?s0] =>
      destruct (for_of_invariant
                  (fun (seen : list nat) (weights : obj) =>
                     rewritten ws new (length seen) weights)
                  body xs s0)
        as (weights' & Hrun & Hweights')
  end.
  - rewrite <- Hvalues. by apply rewritten_init.
  - intros seen i rest w Hi [Hk Hget].
    apply seq_split_index in Hi as [-> Hi].
    destruct (lookup_lt_is_Some_2 symbols (length seen) Hi)
      as [symbol Hsymbol].
    rewrite Hsymbol. cbn [mbind option_bind].
    destruct (returns_lookup _ symbol Hsymbol) as (r & Hr & ->).
    cbn [mbind option_bind].
    rewrite (Hget _ symbol Hsymbol), decide_False by lia.
    destruct (lookup_lt_is_Some_2 ws (length seen)) as [x Hx]; [lia|].
    rewrite Hx. cbn [mbind option_bind]. eexists. split; [reflexivity|].
    rewrite length_app. cbn [length].
    replace (length seen + 1)%nat with (S (length seen)) by lia.
    apply (update_step symbols); [done..| |done].
    unfold new. rewrite lookup_zip_with, Hx. cbn. by rewrite Hr.
  - exists weights'. split; [done|]. rewrite length_seq in Hweights'.
    split; [apply Hweights'|]. by apply (rewritten_values ws).
Qed.

Lemma heuristic_renormalize (weights : obj) (ws : list R) (totalWeight : R) :
  keys weights = symbols -> values weights = ws ->
  length ws = length symbols ->
  exists weights',
    for_of symbols (fun symbol weights =>
      w ← get weights symbol;
      Some (set weights symbol (w / totalWeight))) weights
    = Some weights'
    /\ keys weights' = symbols
    /\ values weights' = map (fun w => w / totalWeight) ws.
Proof.
  intros Hkeys Hvalues Hlen.
  set (new := map _ ws).
  assert (Hnew : length new = length symbols).
  { unfold new. by rewrite length_map. }
  match goal with
  | |- context [for_of ?xs ?body ?s0] =>
      destruct (for_of_invariant
                  (fun (seen : list string) (weights : obj) =>
                     rewritten ws new (length seen) weights)
                  body xs s0)
        as (weights' & Hrun & Hweights')
  end.
  - rewrite <- Hvalues. by apply rewritten_init.
  - intros seen symbol rest w Hseen [Hk Hget].
    assert (Hsymbol : symbols !! length seen = Some symbol).
    { rewrite Hseen. by apply list_lookup_middle. }
    rewrite (Hget _ symbol Hsymbol), decide_False by lia.
    destruct (lookup_lt_is_Some_2 ws (length seen)) as [x Hx].
    { rewrite Hlen. by eapply lookup_lt_Some. }
    rewrite Hx. cbn [mbind option_bind]. eexists. split; [reflexivity|].
    rewrite length_app. cbn [length].
    replace (length seen + 1)%nat with (S (length seen)) by lia.
    apply (update_step symbols); [done..| |done].
    unfold new. by rewrite list_lookup_fmap, Hx.
  - exists weights'. split; [done|].
    split; [apply Hweights'|]. by apply (rewritten_values ws).
Qed.

Lemma multiAssetHeuristicOptimization_shape :
  exists weights,
    multiAssetHeuristicOptimization expectedReturns covarianceMatrix symbols
                                    targetReturn
    = Some weights
    /\ keys weights = symbols
    /\ (symbols <> [] -> Forall (fun r => 0 < r) rs -> targetReturn <> 0 ->
        sum (values weights) = 1).
Proof.
  unfold multiAssetHeuristicOptimization. cbv zeta.
  destruct heuristic_scores as (scores & Hrun & Hscores & Hpos).
  cbv zeta in Hrun. rewrite Hrun. clear Hrun.
  cbn [mbind option_bind].
  destruct (heuristic_initial_weights scores Hscores Hpos)
    as (weights & ws & -> & Hkeys & Hvalues & Hlen & Hws).
  cbn [mbind option_bind].
  assert (Hrs : Forall2 (fun s r => get expectedReturns s = Some r)
                        (keys weights) rs).
  { by rewrite Hkeys. }
  rewrite (calculatePortfolioReturn_weighted_sum _ _ rs Hrs), Hvalues.
  cbn [mbind option_bind].
  set (currentReturn := sum (zip_with Rmult ws rs)).
  assert (Hcurrent : symbols <> [] -> Forall (fun r => 0 < r) rs ->
                     0 < currentReturn /\ sum ws = 1).
  { intros Hne Hrpos. destruct (Hws Hne) as [Hwpos Hsum]. split; [|done].
    destruct (weighted_sum_pos ws rs) as [Hge Hzero];
      [done|done|by rewrite returns_length|].
    fold currentReturn in Hge, Hzero.
    destruct Hge as [Hlt|Heq]; [done|].
    symmetry in Heq. specialize (Hzero Heq). lra. }
  destruct (ltb 0.01 _).
  - set (adjustment := (targetReturn - currentReturn) / currentReturn).
    destruct (heuristic_adjust weights ws adjustment currentReturn)
      as (weights1 & Hrun & Hkeys1 & Hvalues1); [done..|].
    cbv zeta in Hrun. rewrite Hrun. clear Hrun.
    cbn [mbind option_bind]. rewrite Hvalues1.
    set (ws1 := zip_with _ ws rs).
    assert (Hlen1 : length ws1 = length symbols).
    { unfold ws1. rewrite length_zip_with, returns_length. lia. }
    destruct (heuristic_renormalize weights1 ws1 (sum ws1))
      as (weights2 & -> & Hkeys2 & Hvalues2); [done..|].
    exists weights2. split; [done|]. split; [done|].
    intros Hne Hrpos Htarget. destruct (Hcurrent Hne Hrpos) as [Hcur Hsum].
    assert (Htotal : sum ws1 = targetReturn / currentReturn).
    { unfold ws1. rewrite sum_adjusted by (by rewrite returns_length).
      fold currentReturn. rewrite Hsum. unfold adjustment. field. lra. }
    rewrite Hvalues2, sum_scaled, Htotal. field. lra.
  - exists weights. split; [done|]. split; [done|].
    intros Hne Hrpos _. rewrite Hvalues. by apply Hcurrent.
Qed.

End HeuristicSum.

Lemma twoAssetOptimization_sum
    (expectedReturns : obj) (covarianceMatrix : list (list R))
    (symbols : list string) (targetReturn : R) :
  NoDup symbols -> length symbols = 2%nat ->
  (forall symbol, symbol ∈ symbols -> symbol ∈ keys expectedReturns) ->
  (forall i j, (i < length symbols)%nat -> (j < length symbols)%nat ->
               is_Some (entry covarianceMatrix i j)) ->
  exists weights,
    twoAssetOptimization expectedReturns covarianceMatrix symbols targetReturn
    = Some weights
    /\ keys weights = symbols
    /\ sum (values weights) = 1.
Proof.
  intros Hnodup Hlen Hreturns Hcov.
  destruct symbols as [|s0 [|s1 [|]]]; try done.
  assert (Hne : s1 <> s0).
  { apply NoDup_cons in Hnodup as [Hs0 _]. intros ->. apply Hs0. by left. }
  unfold twoAssetOptimization. cbn [lookup list_lookup mbind option_bind].
  destruct (proj2 (get_is_Some expectedReturns s0)) as [r1 ->];
    [apply Hreturns; by left|].
  destruct (proj2 (get_is_Some expectedReturns s1)) as [r2 ->];
    [apply Hreturns; right; by left|].
  destruct (Hcov 0%nat 0%nat) as [var1 ->]; [cbn; lia..|].
  destruct (Hcov 1%nat 1%nat) as [var2 ->]; [cbn; lia..|].
  destruct (Hcov 0%nat 1%nat) as [cov12 ->]; [cbn; lia..|].
  cbn [mbind option_bind]. cbv zeta.
  eexists. split; [reflexivity|].
  cbn [set]. rewrite decide_False by done. cbn [set].
  split; [done|]. unfold sum. cbn. lra.
Qed.

Lemma known_returns (expectedReturns : obj) (symbols : list string) :
  (forall symbol, symbol ∈ symbols -> symbol ∈ keys expectedReturns) ->
  exists rs,
    Forall2 (fun s r => get expectedReturns s = Some r) symbols rs
    /\ Forall (fun r => r ∈ values expectedReturns) rs.
Proof.
  intros Hknown. induction symbols as [|s symbols IH].
  - by exists [].
  - destruct IH as (rs & Hrs & Hin).
    { intros symbol Hsymbol. apply Hknown. by right. }
    destruct (proj2 (get_is_Some expectedReturns s)) as [r Hr].
    { apply Hknown. by left. }
    exists (r :: rs). split; constructor; try done.
    unfold values. apply list_elem_of_fmap. exists (s, r).
    split; [done|]. by apply get_elem_of.
Qed.

Lemma meanVarianceOptimization_shape
    (expectedReturns : obj) (covarianceMatrix : list (list R))
    (symbols : list string) (targetReturn : R) :
  NoDup symbols ->
  (forall symbol, symbol ∈ symbols -> symbol ∈ keys expectedReturns) ->
  (forall i j, (i < length symbols)%nat -> (j < length symbols)%nat ->
               is_Some (entry covarianceMatrix i j)) ->
  exists weights,
    meanVarianceOptimization expectedReturns covarianceMatrix symbols
                             targetReturn
    = Some weights
    /\ keys weights = symbols
    /\ (symbols <> [] -> Forall (fun r => 0 < r) (values expectedReturns) ->
        targetReturn <> 0 -> sum (values weights) = 1).
Proof.
  intros Hnodup Hknown Hcov. unfold meanVarianceOptimization.
  destruct (decide (length symbols = 2%nat)) as [Htwo|_].
  - destruct (twoAssetOptimization_sum expectedReturns covarianceMatrix
                symbols targetReturn) as (weights & Hrun & Hkeys & Hsum);
      [done..|].
    by exists weights.
  - destruct (known_returns expectedReturns symbols Hknown)
      as (rs & Hrs & Hin).
    destruct (multiAssetHeuristicOptimization_shape expectedReturns
                covarianceMatrix symbols rs targetReturn Hnodup Hrs)
      as (weights & Hrun & Hkeys & Hsum).
    { intros i Hi. by apply Hcov. }
    exists weights. split; [done|]. split; [done|].
    intros Hne Hpos Htarget. apply Hsum; [done| |done].
    rewrite Forall_forall in Hpos, Hin. apply Forall_forall.
    intros r Hr. by apply Hpos, Hin.
Qed.

Lemma foldl_Rmin_bounds (a : R) (xs : list R) :
  0 < a -> Forall (fun r => 0 < r) xs ->
  0 < foldl Rmin a xs <= a.
Proof.
  intros Ha Hxs. revert a Ha.
  induction Hxs as [|x xs Hx _ IH]; intros a Ha; cbn [foldl]; [lra|].
  destruct (IH (Rmin a x)) as [Hpos Hle].
  { unfold Rmin. by destruct (Rle_dec a x). }
  pose proof (Rmin_l a x). lra.
Qed.

Lemma foldl_Rmax_ge (a : R) (xs : list R) : a <= foldl Rmax a xs.
Proof.
  revert a. induction xs as [|x xs IH]; intros a; cbn [foldl]; [lra|].
  pose proof (IH (Rmax a x)). pose proof (Rmax_l a x). lra.
Qed.

(** The frontier of distinct symbols: 101 points whose weights are over
    exactly the symbols, in their order, and add up to 1 when the expected
    returns are all positive. *)
Lemma generateEfficientFrontier_shape
    (expectedReturns : obj) (covarianceMatrix : list (list R))
    (symbols : list string) :
  NoDup symbols -> symbols <> [] ->
  (forall symbol, symbol ∈ symbols -> symbol ∈ keys expectedReturns) ->
  (forall i j, (i < length symbols)%nat -> (j < length symbols)%nat ->
               is_Some (entry covarianceMatrix i j)) ->
  exists efficientFrontier,
    generateEfficientFrontier expectedReturns covarianceMatrix symbols
    = Some efficientFrontier
    /\ length efficientFrontier = 101%nat
    /\ forall p, p ∈ efficientFrontier ->
         keys (FrontierPoint.weights p) = symbols
         /\ (Forall (fun r => 0 < r) (values expectedReturns) ->
             sum (values (FrontierPoint.weights p)) = 1).
Proof.
  intros Hnodup Hnonempty Hknown Hcov.
  destruct (values expectedReturns) as [|r0 returns] eqn:Hvalues.
  { destruct symbols as [|s symbols']; [done|].
    assert (Hs : s ∈ keys expectedReturns) by (apply Hknown; by left).
    unfold keys in Hs. unfold values in Hvalues.
    destruct expectedReturns; [by apply elem_of_nil in Hs|done]. }
  pose proof (foldl_Rmax_ge r0 returns) as Hmaxr0.
  destruct (generateEfficientFrontier_points expectedReturns covarianceMatrix
              symbols (foldl Rmin r0 returns) (foldl Rmax r0 returns))
    as (points & Hrun & Hpoints); [by rewrite Hvalues..|done|done|].
  eexists. split; [exact Hrun|]. split.
  { rewrite sort_Permutation. apply Forall2_length in Hpoints.
    by rewrite <- Hpoints, length_seq. }
  intros p Hp. rewrite sort_Permutation in Hp.
  apply list_elem_of_lookup_1 in Hp as [k Hk].
  destruct (Forall2_lookup_r _ _ _ _ _ Hpoints Hk)
    as (i & Hi & variance & Hweights & _).
  set (targetReturn := _ + _ * _) in Hweights.
  destruct (meanVarianceOptimization_shape expectedReturns covarianceMatrix
              symbols targetReturn Hnodup Hknown Hcov)
    as (weights & Heq & Hkeys & Hone).
  rewrite Hweights in Heq. injection Heq as ->. split; [done|].
  intros Hpos. apply Hone; [done|by rewrite Hvalues|].
  apply Forall_cons in Hpos as [Hr0 Hreturns].
  destruct (foldl_Rmin_bounds r0 returns Hr0 Hreturns) as [Hmin0 Hminr0].
  assert (0 <= INR i / INR numPortfolios).
  { apply Rmult_le_pos; [apply pos_INR|].
    apply Rlt_le, Rinv_0_lt_compat, lt_0_INR. unfold numPortfolios. lia. }
  unfold targetReturn. nra.
Qed.

(** X15.  For distinct symbols that are ordinary keys (no array index and
    no name inherited from [Object.prototype]) and whose expected returns
    are all positive, every point of the efficient frontier carries weights
    over exactly the symbols, in their order, that add up to 1, on the
    two-asset path (whose quotient for equal returns is taken to have a
    non-zero divisor) and on the heuristic path alike. *)
Theorem generateEfficientFrontier_weights_sum_to_one
    (expectedReturns : obj) (covarianceMatrix : list (list R))
    (symbols : list string) :
  NoDup symbols -> symbols <> [] ->
  Forall (fun symbol => ordinary_key symbol = true) symbols ->
  (forall symbol, symbol ∈ symbols -> symbol ∈ keys expectedReturns) ->
  Forall (fun r => 0 < r) (values expectedReturns) ->
  (forall i j, (i < length symbols)%nat -> (j < length symbols)%nat ->
               is_Some (entry covarianceMatrix i j)) ->
  (length symbols = 2%nat ->
   at_ covarianceMatrix 0 0 + at_ covarianceMatrix 1 1
   - 2 * at_ covarianceMatrix 0 1 <> 0) ->
  exists efficientFrontier,
    generateEfficientFrontier expectedReturns covarianceMatrix symbols
    = Some efficientFrontier
    /\ length efficientFrontier = 101%nat
    /\ forall p, p ∈ efficientFrontier ->
         keys (FrontierPoint.weights p) = symbols
         /\ sum (values (FrontierPoint.weights p)) = 1.
Proof.
  intros Hnodup Hnonempty _ Hknown Hpos Hcov _.
  destruct (generateEfficientFrontier_shape expectedReturns covarianceMatrix
              symbols Hnodup Hnonempty Hknown Hcov)
    as (efficientFrontier & Hrun & Hlen & Hpoints).
  exists efficientFrontier. split; [done|]. split; [done|].
  intros p Hp. destruct (Hpoints p Hp) as [Hkeys Hsum]. split; [done|].
  by apply Hsum.
Qed.

Lemma generateEfficientFrontier_weights_sum_to_one_witness :
  exists efficientFrontier,
    generateEfficientFrontier
      [("NVDA"%string, 0.25); ("SPY"%string, 0.10); ("BND"%string, 0.03)]
      [[0.16; 0; 0]; [0; 0.04; 0]; [0; 0; 0.0009]]
      ["NVDA"%string; "SPY"%string; "BND"%string]
    = Some efficientFrontier
    /\ length efficientFrontier = 101%nat
    /\ forall p, p ∈ efficientFrontier ->
         keys (FrontierPoint.weights p)
         = ["NVDA"%string; "SPY"%string; "BND"%string]
         /\ sum (values (FrontierPoint.weights p)) = 1.
Proof.
  apply (generateEfficientFrontier_weights_sum_to_one
           [("NVDA"%string, 0.25); ("SPY"%string, 0.10); ("BND"%string, 0.03)]
           [[0.16; 0; 0]; [0; 0.04; 0]; [0; 0; 0.0009]]
           ["NVDA"%string; "SPY"%string; "BND"%string]).
  - apply (bool_decide_unpack _). by vm_compute.
  - discriminate.
  - repeat (apply Forall_cons; split; [reflexivity|]). apply Forall_nil_2.
  - intros symbol Hin. exact Hin.
  - cbn. repeat (apply Forall_cons; split; [lra|]). apply Forall_nil_2.
  - intros i j Hi Hj. cbn in Hi, Hj.
    destruct i as [|[|[|i]]]; [| | |lia];
      (destruct j as [|[|[|j]]]; [| | |lia]); by eexists.
  - intros Htwo. cbn in Htwo. lia.
Defined.

(** ** The optimization as a whole *)

Lemma calculateExpectedReturns_keys
    (historicalData : list HistoricalData.t) (data : HistoricalData.t) :
  data ∈ historicalData ->
  HistoricalData.symbol data ∈ keys (calculateExpectedReturns historicalData).
Proof.
  unfold calculateExpectedReturns.
  induction historicalData as [|d historicalData IH] using rev_ind;
    [by intros ?%elem_of_nil|].
  rewrite foldl_app. cbn [foldl]. rewrite elem_of_keys_set, elem_of_app.
  intros [Hin|Hd%list_elem_of_singleton]; [right; by apply IH|].
  left. by rewrite Hd.
Qed.

Lemma calculateCovarianceMatrix_square
    (historicalData : list HistoricalData.t) :
  square (length historicalData) (calculateCovarianceMatrix historicalData).
Proof.
  unfold calculateCovarianceMatrix. split; [by rewrite !length_map|].
  intros i row Hrow. apply list_elem_of_lookup_2 in Hrow.
  apply list_elem_of_fmap in Hrow as (row' & -> & Hrow').
  apply list_elem_of_fmap in Hrow' as (d & -> & _).
  by rewrite !length_map.
Qed.

Lemma calculateAdvancedRiskMetrics_is_Some
    (weights expectedReturns : obj) (covarianceMatrix : list (list R))
    (historicalData : list HistoricalData.t) :
  (forall symbol, symbol ∈ keys weights -> symbol ∈ keys expectedReturns) ->
  square (length (keys weights)) covarianceMatrix ->
  historicalData <> [] ->
  is_Some (calculateAdvancedRiskMetrics weights expectedReturns
                                        covarianceMatrix historicalData).
Proof.
  intros Hknown Hcov Hdata. unfold calculateAdvancedRiskMetrics. cbv zeta.
  destruct (calculatePortfolioReturn_Some expectedReturns (keys weights)
              Hknown weights) as [expectedReturn ->]; [done|].
  cbn [mbind option_bind].
  destruct (calculatePortfolioVariance_Some covarianceMatrix (keys weights))
    with (weights := weights) as [variance ->]; [|done|].
  { intros i j Hi Hj. by rewrite (entry_square _ _ i j Hcov Hi Hj). }
  cbn [mbind option_bind].
  destruct (calculateMaxDrawdown_nonneg weights historicalData Hdata)
    as (maxDrawdown & -> & _).
  cbn [mbind option_bind]. by eexists.
Qed.

(** X16.  For a non-empty list of holdings with distinct symbols that are
    ordinary keys (no array index and no name inherited from
    [Object.prototype]) and enough non-zero draws (502 per holding for the
    price histories, then two per holding, day and scenario for the
    simulation), the optimization returns, whatever the price collaborator
    answers and whatever the risk-tolerance string: the frontier has 101
    points, the optimal weights are the weights of one of them and are over
    exactly the symbols of the holdings, in their order, and the simulation
    summary is over 1000 scenarios. *)
Theorem optimizePortfolio_returns
    (getSingleStockPrice : string -> option R)
    (holdings : list Holding.t) (totalValue : R) (riskTolerance : string)
    (s : rng) :
  holdings <> [] ->
  NoDup (map Holding.symbol holdings) ->
  Forall (fun holding => ordinary_key (Holding.symbol holding) = true)
         holdings ->
  (502 * length holdings
   + MONTE_CARLO_SCENARIOS * (TRADING_DAYS * (2 * length holdings))
   <= nonzero_draws s)%nat ->
  exists result s',
    optimizePortfolio getSingleStockPrice holdings totalValue riskTolerance s
    = Some (result, s')
    /\ nonzero_draws s'
       = (nonzero_draws s
          - (502 * length holdings
             + MONTE_CARLO_SCENARIOS
               * (TRADING_DAYS * (2 * length holdings))))%nat
    /\ length (OptimizationResult.efficientFrontier result) = 101%nat
    /\ (exists p, p ∈ OptimizationResult.efficientFrontier result
                  /\ OptimizationResult.optimalWeights result
                     = FrontierPoint.weights p)
    /\ keys (OptimizationResult.optimalWeights result)
       = map Holding.symbol holdings
    /\ MonteCarloResults.scenarios
         (OptimizationResult.monteCarloResults result) = 1000%nat.
Proof.
  intros Hholdings Hnodup _ Hs. unfold optimizePortfolio. cbv zeta.
  set (symbols := map Holding.symbol holdings) in *.
  assert (Hn : length symbols = length holdings).
  { unfold symbols. by rewrite length_map. }
  assert (Hsymbols : symbols <> []).
  { intros Hnil. apply Hholdings. apply length_zero_iff_nil.
    by rewrite <- Hn, Hnil. }
  (* Step 1 *)
  destruct (getRealHistoricalData_loop getSingleStockPrice symbols [] s)
    as (historicalData & s1 & Hhistory & Hshape & Hs1); [lia|].
  unfold getRealHistoricalData.
  erewrite rand_bind_Some by exact Hhistory. cbn [app].
  assert (Hlen : length historicalData = length symbols).
  { symmetry. by eapply Forall2_length. }
  assert (Hdata : historicalData <> []).
  { intros ->. cbn in Hlen. apply Hsymbols. by apply length_zero_iff_nil. }
  (* Step 2 *)
  set (expectedReturns := calculateExpectedReturns historicalData).
  set (covarianceMatrix := calculateCovarianceMatrix historicalData).
  assert (Hknown : forall symbol,
             symbol ∈ symbols -> symbol ∈ keys expectedReturns).
  { intros symbol Hin. apply list_elem_of_lookup_1 in Hin as [i Hi].
    destruct (Forall2_lookup_l _ _ _ _ _ Hshape Hi) as (data & Hd & <- & _).
    apply calculateExpectedReturns_keys. by eapply list_elem_of_lookup_2. }
  assert (Hsquare : square (length symbols) covarianceMatrix).
  { rewrite <- Hlen. apply calculateCovarianceMatrix_square. }
  assert (Hcov : forall i j,
             (i < length symbols)%nat -> (j < length symbols)%nat ->
             is_Some (entry covarianceMatrix i j)).
  { intros i j Hi Hj. by rewrite (entry_square _ _ i j Hsquare Hi Hj). }
  (* Step 3 *)
  destruct (generateEfficientFrontier_shape expectedReturns covarianceMatrix
              symbols Hnodup Hsymbols Hknown Hcov)
    as (efficientFrontier & Hfrontier & Hpoints & Hweights).
  erewrite rand_bind_Some by (apply lift_Some; exact Hfrontier).
  (* Step 4 *)
  destruct (findOptimalPortfolio_Some efficientFrontier riskTolerance)
    as (p & Hp & Hoptimal).
  { intros ->. cbn in Hpoints. lia. }
  erewrite rand_bind_Some by (apply lift_Some; exact Hoptimal).
  destruct (Hweights p Hp) as [Hkeys _].
  (* Step 6 *)
  destruct (runAdvancedMonteCarloSimulation_run (FrontierPoint.weights p)
              expectedReturns covarianceMatrix totalValue symbols s1)
    as (results & p5 & p25 & p75 & p95 & s2 & Hsimulation & _ & _ & _ & _
        & _ & Hs2); [by rewrite Hkeys|done|done|lia|].
  cbv zeta in Hsimulation.
  erewrite rand_bind_Some by exact Hsimulation.
  (* Step 7 *)
  destruct (calculateAdvancedRiskMetrics_is_Some (FrontierPoint.weights p)
              expectedReturns covarianceMatrix historicalData)
    as [riskMetrics HriskMetrics]; [by rewrite Hkeys|by rewrite Hkeys|done|].
  erewrite rand_bind_Some by (apply lift_Some; exact HriskMetrics).
  do 2 eexists. split; [reflexivity|].
  cbn [OptimizationResult.efficientFrontier OptimizationResult.optimalWeights
       OptimizationResult.monteCarloResults MonteCarloResults.scenarios].
  split; [lia|]. split; [done|]. split; [by exists p|]. by split.
Qed.

Lemma optimizePortfolio_returns_witness :
  exists result s',
    optimizePortfolio (fun _ => None)
      [Holding.mk "AAPL" 10 150; Holding.mk "MSFT" 5 300] 3000 "moderate"
      (replicate (502 * 2
                  + MONTE_CARLO_SCENARIOS * (TRADING_DAYS * (2 * 2)))
                 (1 / 2)%R)
    = Some (result, s')
    /\ nonzero_draws s'
       = (nonzero_draws
            (replicate (502 * 2
                        + MONTE_CARLO_SCENARIOS * (TRADING_DAYS * (2 * 2)))
                       (1 / 2)%R)
          - (502 * 2 + MONTE_CARLO_SCENARIOS * (TRADING_DAYS * (2 * 2))))%nat
    /\ length (OptimizationResult.efficientFrontier result) = 101%nat
    /\ (exists p, p ∈ OptimizationResult.efficientFrontier result
                  /\ OptimizationResult.optimalWeights result
                     = FrontierPoint.weights p)
    /\ keys (OptimizationResult.optimalWeights result)
       = ["AAPL"%string; "MSFT"%string]
    /\ MonteCarloResults.scenarios
         (OptimizationResult.monteCarloResults result) = 1000%nat.
Proof.
  apply (optimizePortfolio_returns (fun _ => None)
           [Holding.mk "AAPL" 10 150; Holding.mk "MSFT" 5 300] 3000
           "moderate").
  - discriminate.
  - apply (bool_decide_unpack _). by vm_compute.
  - repeat (apply Forall_cons; split; [reflexivity|]). apply Forall_nil_2.
  - rewrite nonzero_draws_replicate by lra. cbn [length]. lia.
Defined.

(** ** Current weights *)

Lemma set_fresh (o : obj) (k : string) (v : R) :
  k ∉ keys o -> set o k v = o ++ [(k, v)].
Proof.
  unfold keys. induction o as [|[k0 v0] o IH]; intros Hk; [done|].
  cbn [fmap list_fmap fst] in Hk. apply not_elem_of_cons in Hk as [Hne Hk].
  cbn [set]. rewrite decide_False by done. by rewrite IH.
Qed.

Lemma calculateCurrentWeights_distinct
    (holdings : list Holding.t) (totalValue : R) :
  NoDup (map Holding.symbol holdings) ->
  calculateCurrentWeights holdings totalValue
  = map (fun holding =>
           (Holding.symbol holding,
            Holding.quantity holding * Holding.averageCost holding
            / totalValue))
        holdings.
Proof.
  unfold calculateCurrentWeights.
  induction holdings as [|h holdings IH] using rev_ind; intros Hnodup;
    [done|].
  rewrite map_app in Hnodup. apply NoDup_app in Hnodup as (Hprefix & Hh & _).
  rewrite foldl_app, map_app. cbn [foldl map]. rewrite IH by done.
  apply set_fresh. unfold keys. rewrite <- list_fmap_compose.
  intros Hin. apply (Hh _ Hin). apply list_elem_of_here.
Qed.

(** X17.  For holdings with distinct symbols that are ordinary keys (no
    array index and no name inherited from [Object.prototype]) and a
    positive total value the current weights have one entry per holding,
    in the order of the holdings, and add up to the cost basis of the
    holdings over the total value, hence to 1 when the total value is that
    cost basis. *)
Theorem calculateCurrentWeights_sum
    (holdings : list Holding.t) (totalValue : R) :
  NoDup (map Holding.symbol holdings) ->
  Forall (fun holding => ordinary_key (Holding.symbol holding) = true)
         holdings ->
  0 < totalValue ->
  let costBasis :=
    sum (map (fun holding =>
                Holding.quantity holding * Holding.averageCost holding)
             holdings) in
  keys (calculateCurrentWeights holdings totalValue)
  = map Holding.symbol holdings
  /\ sum (values (calculateCurrentWeights holdings totalValue))
     = costBasis / totalValue
  /\ (totalValue = costBasis ->
      sum (values (calculateCurrentWeights holdings totalValue)) = 1).
Proof.
  intros Hnodup _ Htotal costBasis.
  rewrite (calculateCurrentWeights_distinct holdings totalValue Hnodup).
  assert (Hsum : sum (values
                        (map (fun holding =>
                                (Holding.symbol holding,
                                 Holding.quantity holding
                                 * Holding.averageCost holding / totalValue))
                             holdings))
                 = costBasis / totalValue).
  { unfold values, costBasis. rewrite <- list_fmap_compose.
    rewrite <- sum_scaled. f_equal. rewrite <- list_fmap_compose.
    by apply list_fmap_ext. }
  split; [|split; [done|]].
  - unfold keys. rewrite <- list_fmap_compose. by apply list_fmap_ext.
  - intros Heq. rewrite Hsum, <- Heq. field. lra.
Qed.

Lemma calculateCurrentWeights_sum_witness :
  let holdings := [Holding.mk "AAPL" 10 150; Holding.mk "MSFT" 5 300] in
  let costBasis :=
    sum (map (fun holding =>
                Holding.quantity holding * Holding.averageCost holding)
             holdings) in
  keys (calculateCurrentWeights holdings 3000)
  = map Holding.symbol holdings
  /\ sum (values (calculateCurrentWeights holdings 3000))
     = costBasis / 3000
  /\ (3000 = costBasis ->
      sum (values (calculateCurrentWeights holdings 3000)) = 1).
Proof.
  apply (calculateCurrentWeights_sum
           [Holding.mk "AAPL" 10 150; Holding.mk "MSFT" 5 300] 3000).
  - apply (bool_decide_unpack _). by vm_compute.
  - repeat (apply Forall_cons; split; [reflexivity|]). apply Forall_nil_2.
  - lra.
Defined.

(** ** The normal variate and the zero draws *)

Lemma random_nonzero_filter (s : rng) :
  match filter (fun x => x <> 0) (s : list R) with
  | u :: rest =>
      exists s', random_nonzero s = Some (u, s')
                 /\ filter (fun x => x <> 0) (s' : list R) = rest
  | [] => random_nonzero s = None
  end.
Proof.
  induction s as [|x s IH]; [done|].
  cbn [random_nonzero]. rewrite filter_cons. unfold eqb.
  case_bool_decide as Hx.
  - by rewrite decide_False by (by intros ?).
  - rewrite decide_True by done. by exists s.
Qed.

(** X18.  On draws of [Math.random], which lie in [0,1), the normal variate
    is the Box-Muller transform of the first two non-zero draws: zero draws
    are skipped wherever they occur, the square root is taken of a positive
    number, the draws left over are those after the second non-zero one,
    and the generator fails only when fewer than two non-zero draws are
    left. *)
Theorem normalRandom_skips_zero_draws (s : rng) :
  Forall (fun x => 0 <= x < 1) s ->
  match filter (fun x => x <> 0) (s : list R) with
  | u :: v :: rest =>
      exists s',
        normalRandom s
        = Some (Math_sqrt (-2.0 * Math_log u)
                * Math_cos (2.0 * Math_PI * v), s')
        /\ 0 < -2.0 * Math_log u
        /\ filter (fun x => x <> 0) (s' : list R) = rest
  | _ => normalRandom s = None
  end.
Proof.
  intros Hrange.
  unfold normalRandom. pose proof (random_nonzero_filter s) as Hu.
  assert (Hfilter : Forall (fun x => 0 < x < 1)
                           (filter (fun x => x <> 0) (s : list R))).
  { apply Forall_forall. intros x Hx.
    apply list_elem_of_filter in Hx as [Hx Hin].
    rewrite Forall_forall in Hrange. specialize (Hrange x Hin). lra. }
  destruct (filter (fun x => x <> 0) (s : list R)) as [|u rest]; [by rewrite Hu|].
  destruct Hu as (s1 & -> & Hrest). cbn [mbind option_bind].
  pose proof (random_nonzero_filter s1) as Hv. rewrite Hrest in Hv.
  destruct rest as [|v rest]; [by rewrite Hv|].
  destruct Hv as (s2 & -> & Hrest'). cbn [mbind option_bind].
  exists s2. split; [done|]. split; [|done].
  apply Forall_cons in Hfilter as [Hu01 _]. unfold Math_log.
  assert (ln u < 0); [|lra].
  rewrite <- ln_1. apply ln_increasing; lra.
Qed.

Lemma normalRandom_skips_zero_draws_witness :
  exists s',
    normalRandom [0; 0.5; 0; 0; 0.25; 0.75]
    = Some (Math_sqrt (-2.0 * Math_log 0.5)
            * Math_cos (2.0 * Math_PI * 0.25), s')
    /\ 0 < -2.0 * Math_log 0.5
    /\ filter (fun x => x <> 0) (s' : list R) = [0.75].
Proof.
  assert (Hfilter : filter (fun x => x <> 0)
                           ([0; 0.5; 0; 0; 0.25; 0.75] : list R)
                    = [0.5; 0.25; 0.75]).
  { repeat (rewrite filter_cons;
            first [rewrite decide_True by lra | rewrite decide_False by lra]).
    by rewrite filter_nil. }
  pose proof (normalRandom_skips_zero_draws [0; 0.5; 0; 0; 0.25; 0.75])
    as Hrun.
  rewrite Hfilter in Hrun. apply Hrun.
  repeat (apply Forall_cons; split; [lra|]). apply Forall_nil_2.
Defined.

(** ** Portfolio return *)

Lemma weighted_sum_between (lo hi : R) (ws rs : list R) :
  Forall (fun w => 0 <= w) ws -> Forall (fun r => lo <= r <= hi) rs ->
  length ws = length rs ->
  lo * sum ws <= sum (zip_with Rmult ws rs) <= hi * sum ws.
Proof.
  intros Hws. revert rs. induction Hws as [|w ws Hw _ IH]; intros rs Hrs Hlen.
  - unfold sum. cbn. lra.
  - destruct Hrs as [|r rs Hr Hrs]; [done|]. cbn [zip_with].
    rewrite !sum_cons. specialize (IH rs Hrs). cbn in Hlen.
    destruct IH as [IHlo IHhi]; [lia|]. nra.
Qed.

(** X19.  The return of a long-only portfolio whose weights add up to 1 lies
    between the smallest and the largest expected return of its assets. *)
Theorem calculatePortfolioReturn_between
    (weights expectedReturns : obj) (lo hi : R) :
  (forall symbol, symbol ∈ keys weights ->
     exists r, get expectedReturns symbol = Some r /\ lo <= r <= hi) ->
  Forall (fun w => 0 <= w) (values weights) ->
  sum (values weights) = 1 ->
  exists portfolioReturn,
    calculatePortfolioReturn weights expectedReturns = Some portfolioReturn
    /\ lo <= portfolioReturn <= hi.
Proof.
  intros Hknown Hweights Hsum.
  assert (Hrs : exists rs,
             Forall2 (fun s r => get expectedReturns s = Some r)
                     (keys weights) rs
             /\ Forall (fun r => lo <= r <= hi) rs).
  { revert Hknown. generalize (keys weights). intros symbols.
    induction symbols as [|s symbols IH]; intros Hknown; [by exists []|].
    destruct IH as (rs & Hrs & Hbounds).
    { intros symbol Hin. apply Hknown. by right. }
    destruct (Hknown s) as (r & Hr & Hbound); [by left|].
    exists (r :: rs). split; by constructor. }
  destruct Hrs as (rs & Hrs & Hbounds).
  rewrite (calculatePortfolioReturn_weighted_sum _ _ rs Hrs).
  eexists. split; [reflexivity|].
  destruct (weighted_sum_between lo hi (values weights) rs) as [Hlo Hhi];
    [done|done| |rewrite Hsum in Hlo, Hhi; lra].
  apply Forall2_length in Hrs. rewrite <- Hrs.
  unfold keys, values. by rewrite !length_fmap.
Qed.

Lemma calculatePortfolioReturn_between_witness :
  exists portfolioReturn,
    calculatePortfolioReturn [("AAPL"%string, 0.25); ("BND"%string, 0.75)]
                             [("AAPL"%string, 0.15); ("BND"%string, 0.03)]
    = Some portfolioReturn
    /\ 0.03 <= portfolioReturn <= 0.15.
Proof.
  apply (calculatePortfolioReturn_between
           [("AAPL"%string, 0.25); ("BND"%string, 0.75)]
           [("AAPL"%string, 0.15); ("BND"%string, 0.03)] 0.03 0.15).
  - intros symbol Hin. cbn in Hin.
    apply elem_of_cons in Hin as [->|Hin].
    { exists 0.15. split; [reflexivity|lra]. }
    apply elem_of_cons in Hin as [->|Hin].
    { exists 0.03. split; [reflexivity|lra]. }
    by apply elem_of_nil in Hin.
  - cbn. repeat (apply Forall_cons; split; [lra|]). apply Forall_nil_2.
  - unfold sum. cbn. lra.
Defined.

(** ** Covariance and correlation *)

(** X20.  On two return series of the same length, at least 2, the two
    estimators agree: the covariance is the correlation times the square
    root of the product of the two variances (the standard deviations), the
    zero-denominator guard of the correlation included. *)
Theorem calculateCovariance_correlation (returns1 returns2 : list R) :
  length returns1 = length returns2 -> (2 <= length returns1)%nat ->
  calculateCovariance returns1 returns2
  = calculateCorrelation returns1 returns2
    * Math_sqrt (calculateCovariance returns1 returns1
                 * calculateCovariance returns2 returns2).
Proof.
  intros Hlen Hn.
  rewrite !calculateCovariance_sample, calculateCorrelation_sums.
  unfold sample_covariance, mean. cbv zeta.
  rewrite <- Hlen, !Nat.min_id, !take_ge by lia.
  rewrite <- ?Hlen. rewrite !sum_foldr.
  set (a := foldr Rplus 0 returns1 / INR (length returns1)).
  set (b := foldr Rplus 0 returns2 / INR (length returns1)).
  pose proof (products_cauchy_schwarz a b returns1 returns2 Hlen) as Hcs.
  pose proof (sum_squares_nonneg a returns1) as HA.
  pose proof (sum_squares_nonneg b returns2) as HB.
  set (A := foldr Rplus 0 (zip_with (fun x y => (x - a) * (y - a))
                                    returns1 returns1)) in *.
  set (B := foldr Rplus 0 (zip_with (fun x y => (x - b) * (y - b))
                                    returns2 returns2)) in *.
  set (C := foldr Rplus 0 (zip_with (fun x y => (x - a) * (y - b))
                                    returns1 returns2)) in *.
  assert (HN : 0 < INR (length returns1) - 1).
  { assert (2 <= INR (length returns1)); [|lra].
    replace 2 with (INR 2) by (rewrite INR_IZR_INZ; reflexivity).
    by apply le_INR. }
  set (N1 := INR (length returns1) - 1) in *.
  unfold Math_sqrt.
  assert (HAB : 0 <= A * B) by nra.
  assert (Hsqrt : sqrt (A / N1 * (B / N1)) = sqrt (A * B) / N1).
  { replace (A / N1 * (B / N1)) with (A * B * (/ N1 * / N1))
      by (field; lra).
    assert (0 < / N1) by by apply Rinv_0_lt_compat.
    rewrite sqrt_mult by nra. rewrite sqrt_square by lra. reflexivity. }
  rewrite Hsqrt. unfold eqb. case_bool_decide as Hden.
  - apply sqrt_eq_0 in Hden; [|done].
    assert (C = 0) by nra. subst C. rewrite H. unfold Rdiv. lra.
  - field. split; lra.
Qed.

Lemma calculateCovariance_correlation_witness :
  calculateCovariance [0.01; 0.03] [0.02; -0.02]
  = calculateCorrelation [0.01; 0.03] [0.02; -0.02]
    * Math_sqrt (calculateCovariance [0.01; 0.03] [0.01; 0.03]
                 * calculateCovariance [0.02; -0.02] [0.02; -0.02]).
Proof.
  apply (calculateCovariance_correlation [0.01; 0.03] [0.02; -0.02]);
    cbn; lia.
Defined.

(** ** Reported risk figures *)

Lemma Math_round_nonneg (x : R) : 0 <= x -> 0 <= Math_round x.
Proof.
  intros Hx. unfold Math_round. apply IZR_le, Zfloor_lub. simpl. lra.
Qed.

Lemma percentage_nonneg (x : R) : 0 <= x -> 0 <= Math_round (x * 10000) / 100.
Proof.
  intros Hx. pose proof (Math_round_nonneg (x * 10000)). lra.
Qed.

(** X21.  For weights whose symbols all have an expected return, a
    covariance matrix that is square over these symbols and gives the
    weights a variance that is not negative, and some historical data, the
    risk metrics are produced and the reported volatility, maximum
    drawdown, value at risk and conditional value at risk are never
    negative: the two value-at-risk figures are reported as absolute
    values. *)
Theorem calculateAdvancedRiskMetrics_nonneg
    (weights expectedReturns : obj) (covarianceMatrix : list (list R))
    (historicalData : list HistoricalData.t) :
  (forall symbol, symbol ∈ keys weights -> symbol ∈ keys expectedReturns) ->
  square (length (keys weights)) covarianceMatrix ->
  (forall variance,
     calculatePortfolioVariance weights covarianceMatrix (keys weights)
     = Some variance -> 0 <= variance) ->
  historicalData <> [] ->
  exists metrics,
    calculateAdvancedRiskMetrics weights expectedReturns covarianceMatrix
                                 historicalData
    = Some metrics
    /\ 0 <= RiskMetrics.volatility metrics
    /\ 0 <= RiskMetrics.maxDrawdown metrics
    /\ 0 <= RiskMetrics.valueAtRisk metrics
    /\ 0 <= RiskMetrics.conditionalVaR metrics.
Proof.
  intros Hknown Hcov _ Hdata. unfold calculateAdvancedRiskMetrics. cbv zeta.
  destruct (calculatePortfolioReturn_Some expectedReturns (keys weights)
              Hknown weights) as [expectedReturn ->]; [done|].
  cbn [mbind option_bind].
  destruct (calculatePortfolioVariance_Some covarianceMatrix (keys weights))
    with (weights := weights) as [variance ->]; [|done|].
  { intros i j Hi Hj. by rewrite (entry_square _ _ i j Hcov Hi Hj). }
  cbn [mbind option_bind].
  destruct (calculateMaxDrawdown_nonneg weights historicalData Hdata)
    as (maxDrawdown & -> & HmaxDrawdown).
  cbn [mbind option_bind]. eexists. split; [reflexivity|].
  cbn [RiskMetrics.volatility RiskMetrics.maxDrawdown RiskMetrics.valueAtRisk
       RiskMetrics.conditionalVaR].
  unfold Math_abs, Math_sqrt.
  split; [apply percentage_nonneg, sqrt_pos|].
  split; [by apply percentage_nonneg|].
  split; apply percentage_nonneg, Rabs_pos.
Qed.

Lemma calculateAdvancedRiskMetrics_nonneg_witness :
  exists metrics,
    calculateAdvancedRiskMetrics [("SPY"%string, 1)] [("SPY"%string, 0.1)]
      [[0.04]] [HistoricalData.mk "SPY" [] (replicate 20 (-0.01))]
    = Some metrics
    /\ 0 <= RiskMetrics.volatility metrics
    /\ 0 <= RiskMetrics.maxDrawdown metrics
    /\ 0 <= RiskMetrics.valueAtRisk metrics
    /\ 0 <= RiskMetrics.conditionalVaR metrics.
Proof.
  apply (calculateAdvancedRiskMetrics_nonneg [("SPY"%string, 1)]
           [("SPY"%string, 0.1)] [[0.04]]
           [HistoricalData.mk "SPY" [] (replicate 20 (-0.01))]).
  - intros symbol Hsymbol. exact Hsymbol.
  - split; [reflexivity|].
    intros [|i] row Hrow; cbn in Hrow; [|done]. by injection Hrow as <-.
  - intros variance Hvariance. cbn in Hvariance.
    rewrite decide_True in Hvariance by done. cbn in Hvariance.
    injection Hvariance as <-. lra.
  - discriminate.
Defined.

(** ** Two assets with equal expected returns: the variance is minimal *)

Lemma calculatePortfolioVariance_two
    (s0 s1 : string) (a b : R) (covarianceMatrix : list (list R))
    (v00 v01 v10 v11 : R) :
  s0 <> s1 ->
  entry covarianceMatrix 0 0 = Some v00 ->
  entry covarianceMatrix 0 1 = Some v01 ->
  entry covarianceMatrix 1 0 = Some v10 ->
  entry covarianceMatrix 1 1 = Some v11 ->
  exists variance,
    calculatePortfolioVariance [(s0, a); (s1, b)] covarianceMatrix [s0; s1]
    = Some variance
    /\ variance = a * a * v00 + a * b * v01 + b * a * v10 + b * b * v11.
Proof.
  intros Hne H00 H01 H10 H11.
  assert (Hget0 : get [(s0, a); (s1, b)] s0 = Some a).
  { cbn. by rewrite decide_True. }
  assert (Hget1 : get [(s0, a); (s1, b)] s1 = Some b).
  { cbn. rewrite decide_False by done. by rewrite decide_True. }
  unfold calculatePortfolioVariance.
  cbn [length seq for_of lookup list_lookup mbind option_bind mret option_ret].
  rewrite Hget0, Hget1, H00, H01, H10, H11.
  cbn [mbind option_bind mret option_ret].
  eexists. split; [reflexivity|]. lra.
Qed.

(** X22.  For two distinct symbols whose expected returns differ by less
    than 1e-6, over a symmetric covariance matrix with
    [var1 + var2 - 2 cov12 > 0], the two-asset solution ignores the target
    and no split [w], [1 - w] of the two assets with [w] in [0,1] has a
    smaller portfolio variance than the one it returns. *)
Theorem twoAssetOptimization_minimum_variance
    (expectedReturns : obj) (covarianceMatrix : list (list R))
    (s0 s1 : string) (r1 r2 var1 var2 cov12 targetReturn : R) :
  s0 <> s1 ->
  get expectedReturns s0 = Some r1 ->
  get expectedReturns s1 = Some r2 ->
  Rabs (r1 - r2) < 1e-6 ->
  entry covarianceMatrix 0 0 = Some var1 ->
  entry covarianceMatrix 1 1 = Some var2 ->
  entry covarianceMatrix 0 1 = Some cov12 ->
  entry covarianceMatrix 1 0 = Some cov12 ->
  0 < var1 + var2 - 2 * cov12 ->
  exists w1 variance,
    twoAssetOptimization expectedReturns covarianceMatrix [s0; s1] targetReturn
    = Some [(s0, w1); (s1, 1 - w1)]
    /\ 0 <= w1 <= 1
    /\ calculatePortfolioVariance [(s0, w1); (s1, 1 - w1)] covarianceMatrix
                                  [s0; s1]
       = Some variance
    /\ forall w, 0 <= w <= 1 ->
         exists variance',
           calculatePortfolioVariance [(s0, w); (s1, 1 - w)] covarianceMatrix
                                      [s0; s1]
           = Some variance'
           /\ variance <= variance'.
Proof.
  intros Hne Hr1 Hr2 Hclose Hv1 Hv2 Hc01 Hc10 HC.
  unfold twoAssetOptimization.
  cbn [lookup list_lookup mbind option_bind].
  rewrite Hr1, Hr2. cbn [mbind option_bind].
  rewrite Hv1, Hv2, Hc01. cbn [mbind option_bind].
  rewrite ltb_true by exact Hclose.
  cbn [set]. rewrite decide_False by done.
  set (C := var1 + var2 - 2 * cov12) in *.
  set (x := (var2 - cov12) / C).
  set (w1 := Math_max 0 (Math_min 1 x)).
  assert (Hx : C * x = var2 - cov12) by (unfold x; field; lra).
  destruct (calculatePortfolioVariance_two s0 s1 w1 (1 - w1) covarianceMatrix
              var1 cov12 cov12 var2) as (variance & Hvariance & ->);
    [done..|].
  exists w1, (w1 * w1 * var1 + w1 * (1 - w1) * cov12 + (1 - w1) * w1 * cov12
              + (1 - w1) * (1 - w1) * var2).
  split; [reflexivity|]. split; [apply clip_unit_interval|].
  split; [exact Hvariance|].
  intros w Hw.
  destruct (calculatePortfolioVariance_two s0 s1 w (1 - w) covarianceMatrix
              var1 cov12 cov12 var2) as (variance' & Hvariance' & ->);
    [done..|].
  eexists. split; [exact Hvariance'|].
  assert (Hdiff :
    (w * w * var1 + w * (1 - w) * cov12 + (1 - w) * w * cov12
     + (1 - w) * (1 - w) * var2)
    - (w1 * w1 * var1 + w1 * (1 - w1) * cov12 + (1 - w1) * w1 * cov12
       + (1 - w1) * (1 - w1) * var2)
    = C * ((w - w1) * (w + w1 - 2 * x))).
  { assert (Hxw : C * x * (w - w1) = (var2 - cov12) * (w - w1))
      by (by rewrite Hx).
    unfold C in Hxw |- *. lra. }
  assert (Hprod : 0 <= (w - w1) * (w + w1 - 2 * x)).
  { unfold w1, Math_max, Math_min, Rmax, Rmin.
    repeat (destruct (Rle_dec _ _)); try lra.
    - replace ((w - 1) * (w + 1 - 2 * x))
        with ((1 - w) * (2 * x - w - 1)) by ring.
      apply Rmult_le_pos; lra.
    - replace ((w - x) * (w + x - 2 * x)) with ((w - x) * (w - x)) by ring.
      apply Rle_0_sqr.
    - apply Rmult_le_pos; lra. }
  assert (0 <= C * ((w - w1) * (w + w1 - 2 * x))).
  { apply Rmult_le_pos; lra. }
  lra.
Qed.

Lemma twoAssetOptimization_minimum_variance_witness :
  exists w1 variance,
    twoAssetOptimization [("A"%string, 0.08); ("B"%string, 0.08)]
      [[0.04; 0.01]; [0.01; 0.09]] ["A"%string; "B"%string] 0.08
    = Some [("A"%string, w1); ("B"%string, 1 - w1)]
    /\ 0 <= w1 <= 1
    /\ calculatePortfolioVariance [("A"%string, w1); ("B"%string, 1 - w1)]
         [[0.04; 0.01]; [0.01; 0.09]] ["A"%string; "B"%string]
       = Some variance
    /\ forall w, 0 <= w <= 1 ->
         exists variance',
           calculatePortfolioVariance [("A"%string, w); ("B"%string, 1 - w)]
             [[0.04; 0.01]; [0.01; 0.09]] ["A"%string; "B"%string]
           = Some variance'
           /\ variance <= variance'.
Proof.
  apply (twoAssetOptimization_minimum_variance
           [("A"%string, 0.08); ("B"%string, 0.08)]
           [[0.04; 0.01]; [0.01; 0.09]] "A" "B" 0.08 0.08 0.04 0.09 0.01
           0.08).
  - discriminate.
  - reflexivity.
  - reflexivity.
  - rewrite Rminus_diag, Rabs_R0. lra.
  - reflexivity.
  - reflexivity.
  - reflexivity.
  - reflexivity.
  - lra.
Defined.

(** ** The variance of a portfolio *)

(** A loop that adds one value per index. *)
Lemma for_of_sum (body : nat -> R -> option R) (vals : list R) :
  forall (k : nat) (acc : R),
    (forall j v acc, vals !! j = Some v ->
                     body (k + j)%nat acc = Some (acc + v)) ->
    for_of (seq k (length vals)) body acc
    = Some (acc + foldr Rplus 0 vals).
Proof.
  induction vals as [|v vals IH]; intros k acc Hbody.
  - cbn. f_equal. lra.
  - cbn [length seq for_of foldr].
    pose proof (Hbody 0%nat v acc eq_refl) as Hv.
    rewrite Nat.add_0_r in Hv. rewrite Hv. cbn [mbind option_bind].
    rewrite IH.
    + f_equal. lra.
    + intros j v' acc' Hj.
      replace (S k + j)%nat with (k + S j)%nat by lia. by apply Hbody.
Qed.

Lemma sum_map_ext {A : Type} (f g : A -> R) (l : list A) :
  (forall x, x ∈ l -> f x = g x) ->
  foldr Rplus 0 (map f l) = foldr Rplus 0 (map g l).
Proof.
  induction l as [|x l IH]; intros Hfg; [done|]. cbn [map foldr].
  rewrite (Hfg x) by apply list_elem_of_here.
  rewrite IH; [done|]. intros y Hy. apply Hfg. by apply list_elem_of_further.
Qed.

Lemma sum_map_scale {A : Type} (c : R) (f : A -> R) (l : list A) :
  foldr Rplus 0 (map (fun x => c * f x) l) = c * foldr Rplus 0 (map f l).
Proof.
  induction l as [|x l IH]; cbn [map foldr]; [lra|]. rewrite IH. lra.
Qed.


(** ** The variance of a portfolio over the estimated covariances *)

Section InnerProduct.

Variable N : nat.

(** The inner product of two series, the combination of series with
    weights, and a series less its mean. *)
Let ip (xs ys : list R) : R := foldr Rplus 0 (zip_with Rmult xs ys).

Let combination (wds : list (R * list R)) : list R :=
  foldr (fun '(w, d) acc => zip_with Rplus (map (Rmult w) d) acc)
        (replicate N 0) wds.

Let centred (xs : list R) : list R := map (fun x => x - mean xs) xs.

Lemma ip_comm (xs ys : list R) : ip xs ys = ip ys xs.
Proof.
  unfold ip. revert ys. induction xs as [|x xs IH]; intros [|y ys]; cbn;
    try done.
  rewrite IH. lra.
Qed.

Lemma ip_zero (n : nat) (ys : list R) : ip (replicate n 0) ys = 0.
Proof.
  unfold ip. revert ys. induction n as [|n IH]; intros [|y ys]; cbn;
    try done.
  rewrite IH. lra.
Qed.

Lemma ip_add_scaled (w : R) (d acc ys : list R) :
  length d = length acc ->
  ip (zip_with Rplus (map (Rmult w) d) acc) ys = w * ip d ys + ip acc ys.
Proof.
  unfold ip. revert acc ys.
  induction d as [|x d IH]; intros [|a acc] [|y ys] Hlen; cbn in *;
    try lia; try lra.
  rewrite IH by lia. lra.
Qed.

Lemma combination_length (wds : list (R * list R)) :
  Forall (fun wd => length wd.2 = N) wds -> length (combination wds) = N.
Proof.
  unfold combination. induction 1 as [|[w d] wds Hd _ IH]; cbn [foldr].
  - by rewrite length_replicate.
  - cbn in Hd. rewrite length_zip_with, length_map, IH, Hd. lia.
Qed.

Lemma ip_combination (wds : list (R * list R)) (ys : list R) :
  Forall (fun wd => length wd.2 = N) wds ->
  ip (combination wds) ys
  = foldr Rplus 0 (map (fun wd => wd.1 * ip wd.2 ys) wds).
Proof.
  intros Hwds. induction Hwds as [|[w d] wds Hd Hwds IH].
  - unfold combination. cbn [foldr map]. apply ip_zero.
  - change (combination ((w, d) :: wds))
      with (zip_with Rplus (map (Rmult w) d) (combination wds)).
    cbn in Hd. rewrite ip_add_scaled by (by rewrite combination_length).
    cbn [map foldr fst snd]. by rewrite IH.
Qed.

(** The quadratic form of the inner products is the square of a
    combination. *)
Lemma ip_combination_square (wds : list (R * list R)) :
  Forall (fun wd => length wd.2 = N) wds ->
  foldr Rplus 0
    (map (fun wdi =>
            foldr Rplus 0
              (map (fun wdj => wdi.1 * wdj.1 * ip wdi.2 wdj.2) wds))
         wds)
  = ip (combination wds) (combination wds).
Proof.
  intros Hwds. rewrite ip_combination by done.
  apply sum_map_ext. intros [wi di] _. cbn [fst snd].
  rewrite ip_comm, ip_combination by done.
  rewrite <- sum_map_scale. apply sum_map_ext. intros [wj dj] _.
  cbn [fst snd]. rewrite (ip_comm dj di). lra.
Qed.

Lemma sum_add_scaled (w : R) (d acc : list R) :
  length d = length acc ->
  foldr Rplus 0 (zip_with Rplus (map (Rmult w) d) acc)
  = w * foldr Rplus 0 d + foldr Rplus 0 acc.
Proof.
  revert acc. induction d as [|x d IH]; intros [|a acc] Hlen; cbn in *;
    try lia; try lra.
  rewrite IH by lia. lra.
Qed.

Lemma centred_add_scaled (w : R) (d acc : list R) :
  length d = length acc ->
  centred (zip_with Rplus (map (Rmult w) d) acc)
  = zip_with Rplus (map (Rmult w) (centred d)) (centred acc).
Proof.
  intros Hlen. unfold centred, mean.
  rewrite sum_add_scaled, length_zip_with, length_map by done.
  rewrite <- Hlen, Nat.min_id.
  generalize (foldr Rplus 0 d) (foldr Rplus 0 acc) (INR (length d)).
  intros sd sa n. revert acc Hlen.
  induction d as [|x d IH]; intros [|a acc] Hlen; cbn in *; try lia;
    [done|].
  rewrite IH by lia. f_equal. unfold Rdiv. lra.
Qed.

Lemma centred_zero (n : nat) : centred (replicate n 0) = replicate n 0.
Proof.
  unfold centred, mean.
  assert (Hsum : foldr Rplus 0 (replicate n 0) = 0).
  { induction n as [|n IH]; cbn; [done|]. rewrite IH. lra. }
  rewrite Hsum. unfold Rdiv. rewrite Rmult_0_l. clear Hsum.
  induction n as [|n IH]; cbn [replicate map]; [done|].
  rewrite IH. f_equal. lra.
Qed.

Lemma centred_combination (wds : list (R * list R)) :
  Forall (fun wd => length wd.2 = N) wds ->
  centred (combination wds)
  = combination (map (fun wd => (wd.1, centred wd.2)) wds).
Proof.
  intros Hwds. induction Hwds as [|[w d] wds Hd Hwds IH].
  - apply centred_zero.
  - change (combination ((w, d) :: wds))
      with (zip_with Rplus (map (Rmult w) d) (combination wds)).
    cbn in Hd. rewrite centred_add_scaled by (by rewrite combination_length).
    rewrite IH. reflexivity.
Qed.

(** The covariance of two series of the same length is the inner product of
    the centred series over [N - 1]. *)
Lemma calculateCovariance_centred (xs ys : list R) :
  length xs = length ys ->
  calculateCovariance xs ys
  = ip (centred xs) (centred ys) / (INR (length xs) - 1).
Proof.
  intros Hlen. rewrite calculateCovariance_sample. unfold sample_covariance.
  cbv zeta. rewrite <- Hlen, Nat.min_id, !take_ge by lia.
  unfold ip, centred. by rewrite zip_with_fmap_l, zip_with_fmap_r.
Qed.

(** The sample covariance is bilinear: the quadratic form of the
    covariances of the series is the covariance of their combination with
    itself. *)
Lemma calculateCovariance_combination (wds : list (R * list R)) :
  Forall (fun wd => length wd.2 = N) wds ->
  foldr Rplus 0
    (map (fun wdi =>
            foldr Rplus 0
              (map (fun wdj => wdi.1 * wdj.1 * calculateCovariance wdi.2 wdj.2)
                   wds))
         wds)
  = calculateCovariance (combination wds) (combination wds).
Proof.
  intros Hwds.
  rewrite (calculateCovariance_centred (combination wds)) by done.
  rewrite combination_length, centred_combination by done.
  rewrite <- ip_combination_square.
  2:{ apply Forall_fmap, Forall_forall. intros [w d] Hin. cbn.
      unfold centred. rewrite length_map.
      rewrite Forall_forall in Hwds. by apply (Hwds (w, d)). }
  rewrite map_map.
  match goal with
  | |- _ = ?x / ?y => replace (x / y) with (/ y * x) by (unfold Rdiv; lra)
  end.
  rewrite <- sum_map_scale.
  apply sum_map_ext. intros [wi di] Hi. cbn [fst snd].
  rewrite map_map, <- sum_map_scale.
  apply sum_map_ext. intros [wj dj] Hj. cbn [fst snd].
  rewrite Forall_forall in Hwds.
  pose proof (Hwds _ Hi) as Hdi. pose proof (Hwds _ Hj) as Hdj. cbn in Hdi, Hdj.
  rewrite calculateCovariance_centred by congruence.
  rewrite Hdi. unfold Rdiv. lra.
Qed.

End InnerProduct.

(** X23.  Over the covariance matrix estimated from historical series of
    one common length, at least 2, the variance of weights, negative ones
    included, is the sample variance of the weighted series of returns
    (its covariance with itself), annualized by the trading-day count. *)
Theorem calculatePortfolioVariance_of_weighted_series
    (weights : obj) (historicalData : list HistoricalData.t)
    (symbols : list string) (w : list R) (N : nat) :
  length symbols = length historicalData ->
  Forall2 (fun symbol wi => get weights symbol = Some wi) symbols w ->
  (2 <= N)%nat ->
  Forall (fun data => length (HistoricalData.returns data) = N)
         historicalData ->
  let portfolio :=
    weighted_series N w (map HistoricalData.returns historicalData) in
  calculatePortfolioVariance weights
    (calculateCovarianceMatrix historicalData) symbols
  = Some (calculateCovariance portfolio portfolio * INR TRADING_DAYS).
Proof.
  intros Hlen Hws _ Hseries portfolio.
  assert (Hwlen : length w = length symbols).
  { symmetry. by eapply Forall2_length. }
  set (covariance := fun di dj : HistoricalData.t =>
         calculateCovariance (HistoricalData.returns di)
                             (HistoricalData.returns dj)
         * INR TRADING_DAYS).
  set (row := fun wi (di : HistoricalData.t) =>
         map (fun wdj : R * HistoricalData.t =>
                wi * wdj.1 * covariance di wdj.2)
             (zip w historicalData)).
  set (rows := map (fun wdi : R * HistoricalData.t =>
                      foldr Rplus 0 (row wdi.1 wdi.2))
                   (zip w historicalData)).
  assert (Hzip : length (zip w historicalData) = length symbols).
  { rewrite length_zip_with. lia. }
  assert (Hindex : forall i wi di,
             zip w historicalData !! i = Some (wi, di) ->
             exists si, symbols !! i = Some si
                        /\ get weights si = Some wi
                        /\ historicalData !! i = Some di).
  { intros i wi di Hi. apply lookup_zip_with_Some in Hi
      as (w0 & d & [= <- <-] & Hw & Hd).
    destruct (Forall2_lookup_r _ _ _ _ _ Hws Hw) as (si & Hsi & Hget).
    by exists si. }
  assert (Hrun : calculatePortfolioVariance weights
                   (calculateCovarianceMatrix historicalData) symbols
                 = Some (0 + foldr Rplus 0 rows)).
  { unfold calculatePortfolioVariance.
    replace (length symbols) with (length rows)
      by (unfold rows; by rewrite length_map).
    apply for_of_sum. intros i v acc Hv. cbn [plus].
    unfold rows in Hv. apply list_lookup_fmap_Some in Hv as ([wi di] & -> & Hi).
    cbn [fst snd]. destruct (Hindex i wi di Hi) as (si & Hsi & Hwi & Hdi).
    replace (length rows) with (length (row wi di))
      by (unfold rows, row; by rewrite !length_map).
    apply for_of_sum. intros j v acc' Hv. cbn [plus].
    unfold row in Hv. apply list_lookup_fmap_Some in Hv as ([wj dj] & -> & Hj).
    cbn [fst snd]. destruct (Hindex j wj dj Hj) as (sj & Hsj & Hwj & Hdj).
    rewrite Hsi, Hsj. cbn [mbind option_bind]. rewrite Hwi, Hwj.
    cbn [mbind option_bind].
    rewrite (calculateCovarianceMatrix_entry _ i j di dj Hdi Hdj).
    reflexivity. }
  rewrite Hrun, Rplus_0_l. f_equal.
  set (wds := map (fun wd : R * HistoricalData.t =>
                     (wd.1, HistoricalData.returns wd.2))
                  (zip w historicalData)).
  assert (Hwds : Forall (fun wd : R * list R => length wd.2 = N) wds).
  { unfold wds. apply Forall_fmap, Forall_forall. intros [wi d] Hin.
    cbn. apply elem_of_zip_r in Hin. rewrite Forall_forall in Hseries.
    by apply Hseries. }
  assert (Hportfolio : portfolio
                       = foldr (fun '(wi, d) acc =>
                                  zip_with Rplus (map (Rmult wi) d) acc)
                               (replicate N 0) wds).
  { unfold portfolio, weighted_series, wds. f_equal.
    clear. revert historicalData.
    induction w as [|wi w IH]; intros [|d historicalData]; cbn; try done.
    by rewrite IH. }
  rewrite Hportfolio, <- (calculateCovariance_combination N wds Hwds).
  unfold rows, row, wds. rewrite !map_map.
  rewrite Rmult_comm, <- sum_map_scale.
  apply sum_map_ext. intros [wi di] Hi. cbn [fst snd].
  rewrite !map_map, <- sum_map_scale.
  apply sum_map_ext. intros [wj dj] Hj. cbn [fst snd].
  unfold covariance. lra.
Qed.

Lemma calculatePortfolioVariance_of_weighted_series_witness :
  calculatePortfolioVariance [("AAPL"%string, 1.5); ("MSFT"%string, -0.5)]
    (calculateCovarianceMatrix
       [HistoricalData.mk "AAPL" [100; 101; 99] [0.01; -0.02];
        HistoricalData.mk "MSFT" [50; 51; 52] [0.02; 0.0196]])
    ["AAPL"%string; "MSFT"%string]
  = Some (calculateCovariance
            (weighted_series 2 [1.5; -0.5] [[0.01; -0.02]; [0.02; 0.0196]])
            (weighted_series 2 [1.5; -0.5] [[0.01; -0.02]; [0.02; 0.0196]])
          * INR TRADING_DAYS).
Proof.
  apply (calculatePortfolioVariance_of_weighted_series
           [("AAPL"%string, 1.5); ("MSFT"%string, -0.5)]
           [HistoricalData.mk "AAPL" [100; 101; 99] [0.01; -0.02];
            HistoricalData.mk "MSFT" [50; 51; 52] [0.02; 0.0196]]
           ["AAPL"%string; "MSFT"%string] [1.5; -0.5] 2).
  - reflexivity.
  - repeat (apply Forall2_cons; split; [reflexivity|]). apply Forall2_nil_2.
  - lia.
  - repeat (apply Forall_cons; split; [reflexivity|]). apply Forall_nil_2.
Defined.

(** ** Monte Carlo simulator: assets without volatility *)

Lemma at_replicate (n : nat) (i j : nat) :
  at_ (replicate n (replicate n 0)) i j = 0.
Proof.
  unfold at_, entry.
  destruct (replicate n (replicate n 0) !! i) as [row|] eqn:Hrow; [|done].
  apply lookup_replicate in Hrow as [-> _]. cbn.
  destruct (replicate n 0 !! j) as [x|] eqn:Hx; [|done].
  by apply lookup_replicate in Hx as [-> _].
Qed.

Lemma square_replicate (n : nat) : square n (replicate n (replicate n 0)).
Proof.
  split; [by rewrite length_replicate|].
  intros i row Hrow. apply lookup_replicate in Hrow as [-> _].
  by rewrite length_replicate.
Qed.

Lemma dot_square_nonneg (L : list (list R)) (i m : nat) : 0 <= dot L i i m.
Proof.
  induction m as [|m IH]; [unfold dot; cbn; lra|].
  rewrite dot_S. pose proof (Rle_0_sqr (at_ L i m)) as Hsq.
  unfold Rsqr in Hsq. lra.
Qed.

(** The Cholesky factor of the zero matrix is zero. *)
Lemma choleskyDecomposition_zero (n : nat) :
  exists L,
    choleskyDecomposition (replicate n (replicate n 0)) = Some L
    /\ square n L
    /\ forall i j, at_ L i j = 0.
Proof.
  destruct (choleskyDecomposition_filled (replicate n (replicate n 0)) n
              (square_replicate n)) as (L & HL & Hsquare & Hzero & Hcells).
  exists L. split; [done|]. split; [done|].
  assert (Hdiagonal : forall a, (a < n)%nat -> at_ L a a = 0).
  { intros a Ha. specialize (Hcells a a).
    rewrite decide_True in Hcells by done. rewrite Hcells by lia.
    rewrite at_replicate. pose proof (dot_square_nonneg L a a) as Hdot.
    unfold Math_sqrt, Math_max. rewrite Rmax_left by lra. apply sqrt_0. }
  intros i j.
  destruct (decide (i < j)%nat) as [Hij|Hij]; [apply Hzero; lia|].
  destruct (decide (i < n)%nat) as [Hi|Hi]; [|apply Hzero; lia].
  destruct (decide (i = j)) as [->|Hne]; [by apply Hdiagonal|].
  specialize (Hcells i j). rewrite decide_False in Hcells by done.
  destruct Hcells as [Hpivot _]; [lia..|].
  apply Hpivot, Hdiagonal. lia.
Qed.

Lemma correlated_shock_zero (L : list (list R)) (z : list R) (i : nat)
    (shock : R) :
  (forall j, at_ L i j = 0) ->
  correlated_shock L z i = Some shock -> shock = 0.
Proof.
  intros Hzero. unfold correlated_shock. generalize (seq 0 (S i)).
  intros js. generalize (0 : R) as acc.
  induction js as [|j js IH]; intros acc; cbn [for_of].
  - by intros [= <-].
  - destruct (entry L i j) as [l|] eqn:Hl; [|done]. cbn [mbind option_bind].
    destruct (z !! j) as [zj|]; [|done]. cbn [mbind option_bind].
    intros Hrun. apply IH in Hrun. subst shock.
    specialize (Hzero j). unfold at_ in Hzero. rewrite Hl in Hzero.
    cbn in Hzero. subst l. lra.
Qed.

Lemma sum_scaled_products (T : R) (ws rs : list R) :
  foldr Rplus 0 (zip_with (fun w r => w * (r / T)) ws rs)
  = sum (zip_with Rmult ws rs) / T.
Proof.
  rewrite sum_foldr. revert rs.
  induction ws as [|w ws IH]; intros [|r rs]; cbn; try lra.
  rewrite IH. lra.
Qed.

Section ZeroVolatility.

Variables (weights expectedReturns : obj) (symbols : list string)
          (L : list (list R)) (ws rs : list R).

Hypothesis weights_over_symbols :
  Forall2 (fun s w => get weights s = Some w) symbols ws.
Hypothesis returns_over_symbols :
  Forall2 (fun s r => get expectedReturns s = Some r) symbols rs.
Hypothesis L_square : square (length symbols) L.
Hypothesis L_zero : forall i j, at_ L i j = 0.

(** The daily return of the portfolio when no asset moves at random. *)
Let dailyReturn : R :=
  0 + foldr Rplus 0 (zip_with (fun w r => w * (r / INR TRADING_DAYS)) ws rs).

Lemma simulateDay_zero (portfolioValue : R) (s : rng) :
  (2 * length symbols <= nonzero_draws s)%nat ->
  exists s',
    simulateDay weights expectedReturns L symbols portfolioValue s
    = Some (portfolioValue * (1 + dailyReturn), s')
    /\ nonzero_draws s' = (nonzero_draws s - 2 * length symbols)%nat.
Proof.
  intros Hs. unfold simulateDay.
  destruct (array_from_normalRandom_Some (length symbols) s Hs)
    as (z & s' & Hz & Hs').
  destruct (generateCorrelatedReturnsCholesky_daily symbols expectedReturns L)
    with (s := s) (s' := s') (z := z)
    as (correlatedReturns & Hrun & Hlen & Hdaily); [| |done|].
  { intros symbol Hsymbol. apply list_elem_of_lookup_1 in Hsymbol as [i Hi].
    destruct (Forall2_lookup_l _ _ _ _ _ returns_over_symbols Hi)
      as (r & _ & Hr).
    apply get_is_Some. by eexists. }
  { intros i j Hij. rewrite (entry_square (length symbols)) by (done || lia).
    done. }
  erewrite rand_bind_Some by exact Hrun.
  set (vals := zip_with (fun w r => w * (r / INR TRADING_DAYS)) ws rs).
  assert (Hws : length ws = length symbols).
  { symmetry. by eapply Forall2_length. }
  assert (Hrs : length rs = length symbols).
  { symmetry. by eapply Forall2_length. }
  assert (Hvals : length vals = length symbols).
  { unfold vals. rewrite length_zip_with. lia. }
  assert (Hloop :
    for_of (seq 0 (length symbols)) (fun i dailyReturn =>
      symbol ← symbols !! i;
      w ← get weights symbol;
      c ← correlatedReturns !! i;
      Some (dailyReturn + w * c)) 0
    = Some dailyReturn).
  { rewrite <- Hvals. apply for_of_sum. intros i v acc Hv. cbn [plus].
    unfold vals in Hv. apply lookup_zip_with_Some in Hv
      as (w & r & -> & Hw & Hr).
    destruct (Forall2_lookup_r _ _ _ _ _ weights_over_symbols Hw)
      as (symbol & Hsymbol & Hget).
    destruct (Forall2_lookup_l _ _ _ _ _ returns_over_symbols Hsymbol)
      as (r' & Hr' & Hgetr).
    assert (r' = r) as -> by congruence.
    destruct (Hdaily i) as (c & Hc & symbol' & r'' & lii & shock & Hsymbol'
                            & Hgetr' & Hlii & Hshock & ->).
    { by eapply lookup_lt_Some. }
    assert (symbol' = symbol) as -> by congruence.
    assert (r'' = r) as -> by congruence.
    apply (correlated_shock_zero L z i shock (L_zero i)) in Hshock as ->.
    rewrite Hsymbol. cbn [mbind option_bind]. rewrite Hget.
    cbn [mbind option_bind]. rewrite Hc. cbn [mbind option_bind].
    f_equal. lra. }
  erewrite rand_bind_Some by (apply lift_Some; exact Hloop).
  by exists s'.
Qed.

Lemma simulate_year_zero (initialValue : R) (s : rng) :
  (TRADING_DAYS * (2 * length symbols) <= nonzero_draws s)%nat ->
  exists s',
    for_of (seq 0 TRADING_DAYS) (fun day portfolioValue =>
      simulateDay weights expectedReturns L symbols portfolioValue)
      initialValue s
    = Some (initialValue * (1 + dailyReturn) ^ TRADING_DAYS, s')
    /\ nonzero_draws s'
       = (nonzero_draws s - TRADING_DAYS * (2 * length symbols))%nat.
Proof.
  intros Hs.
  destruct (rand_for_of_invariant
              (fun (seen : list nat) (portfolioValue : R) (r : rng) =>
                 (length seen <= TRADING_DAYS)%nat
                 /\ portfolioValue
                    = initialValue * (1 + dailyReturn) ^ length seen
                 /\ nonzero_draws r
                    = (nonzero_draws s - length seen * (2 * length symbols))%nat)
              (fun day portfolioValue =>
                 simulateDay weights expectedReturns L symbols portfolioValue)
              (seq 0 TRADING_DAYS) initialValue s)
    as (portfolioValue & s' & Hrun & _ & Hvalue & Hs').
  - cbn [length pow]. repeat split; [lia|lra|lia].
  - intros seen day rest portfolioValue r Hday (Hseen & -> & Hr).
    apply seq_split_index in Hday as [-> Hday].
    destruct (simulateDay_zero
                (initialValue * (1 + dailyReturn) ^ length seen) r)
      as (r' & Hstep & Hr'); [nia|].
    do 2 eexists. split; [exact Hstep|].
    rewrite length_app. cbn [length]. split; [lia|]. split; [|nia].
    replace (length seen + 1)%nat with (S (length seen)) by lia.
    cbn [pow]. lra.
  - rewrite length_seq in Hvalue, Hs'. subst portfolioValue. by exists s'.
Qed.

Lemma simulate_all_zero (initialValue : R) (s : rng) :
  (MONTE_CARLO_SCENARIOS * (TRADING_DAYS * (2 * length symbols))
   <= nonzero_draws s)%nat ->
  exists s',
    for_of (seq 0 MONTE_CARLO_SCENARIOS) (fun scenario results =>
      portfolioValue ← for_of (seq 0 TRADING_DAYS) (fun day portfolioValue =>
        simulateDay weights expectedReturns L symbols portfolioValue)
        initialValue;
      mret (results ++ [portfolioValue])) [] s
    = Some (replicate MONTE_CARLO_SCENARIOS
                      (initialValue * (1 + dailyReturn) ^ TRADING_DAYS), s')
    /\ nonzero_draws s'
       = (nonzero_draws s
          - MONTE_CARLO_SCENARIOS * (TRADING_DAYS * (2 * length symbols)))%nat.
Proof.
  intros Hs.
  set (final := initialValue * (1 + dailyReturn) ^ TRADING_DAYS).
  match goal with
  | |- context [for_of ?xs ?body ?s0 s] =>
      destruct (rand_for_of_invariant
                  (fun (seen : list nat) (results : list R) (r : rng) =>
                     (length seen <= MONTE_CARLO_SCENARIOS)%nat
                     /\ results = replicate (length seen) final
                     /\ nonzero_draws r
                        = (nonzero_draws s
                           - length seen
                             * (TRADING_DAYS * (2 * length symbols)))%nat)
                  body xs s0 s)
        as (results & s' & Hrun & _ & Hresults & Hs')
  end.
  - repeat split; cbn [length]; lia.
  - intros seen scenario rest results r Hscenario (Hseen & -> & Hr).
    apply seq_split_index in Hscenario as [-> Hscenario].
    destruct (simulate_year_zero initialValue r) as (r' & Hyear & Hr');
      [nia|].
    do 2 eexists. split.
    + by erewrite rand_bind_Some by exact Hyear.
    + rewrite length_app. cbn [length]. split; [lia|]. split; [|nia].
      replace (length seen + 1)%nat with (S (length seen)) by lia.
      by rewrite replicate_S_end.
  - rewrite length_seq in Hresults, Hs'. subst results. by exists s'.
Qed.

End ZeroVolatility.

(** X24.  Over a zero covariance matrix (assets without volatility) the
    simulation does not depend on the draws it consumes: for weights over
    distinct symbols, every scenario ends on the initial value compounded
    252 times at one 252nd of the portfolio's expected return, and this is
    every percentile and the expected final value of the summary. *)
Theorem runAdvancedMonteCarloSimulation_zero_covariance
    (weights expectedReturns : obj) (initialValue : R)
    (symbols : list string) (portfolioReturn : R) (s : rng) :
  NoDup symbols ->
  keys weights = symbols ->
  (forall symbol, symbol ∈ symbols -> symbol ∈ keys expectedReturns) ->
  calculatePortfolioReturn weights expectedReturns = Some portfolioReturn ->
  (MONTE_CARLO_SCENARIOS * (TRADING_DAYS * (2 * length symbols))
   <= nonzero_draws s)%nat ->
  let final := initialValue * (1 + portfolioReturn / 252) ^ TRADING_DAYS in
  exists m s',
    runAdvancedMonteCarloSimulation weights expectedReturns
      (replicate (length symbols) (replicate (length symbols) 0))
      initialValue symbols s
    = Some (m, s')
    /\ MonteCarloResults.percentile_5 m = final
    /\ MonteCarloResults.percentile_25 m = final
    /\ MonteCarloResults.percentile_75 m = final
    /\ MonteCarloResults.percentile_95 m = final
    /\ MonteCarloResults.expectedFinalValue m = final.
Proof.
  intros Hnodup Hkeys Hknown Hreturn Hs final.
  destruct (known_returns expectedReturns symbols Hknown) as (rs & Hrs & _).
  assert (Hws : Forall2 (fun s w => get weights s = Some w) symbols
                        (values weights)).
  { apply Forall2_same_length_lookup_2.
    - rewrite <- Hkeys. unfold keys, values. by rewrite !length_fmap.
    - intros i symbol w Hsymbol Hw. rewrite <- Hw.
      apply get_by_values; by rewrite Hkeys. }
  assert (Hfinal : final
                   = initialValue
                     * (1 + (0 + foldr Rplus 0
                                   (zip_with
                                      (fun w r => w * (r / INR TRADING_DAYS))
                                      (values weights) rs)))
                       ^ TRADING_DAYS).
  { unfold final. rewrite sum_scaled_products, INR_TRADING_DAYS.
    rewrite (calculatePortfolioReturn_weighted_sum expectedReturns weights rs)
      in Hreturn by (by rewrite Hkeys).
    injection Hreturn as <-. by rewrite Rplus_0_l. }
  unfold runAdvancedMonteCarloSimulation.
  destruct (choleskyDecomposition_zero (length symbols))
    as (L & HL & Hsquare & Hzero).
  erewrite rand_bind_Some by (apply lift_Some; exact HL).
  destruct (simulate_all_zero weights expectedReturns symbols L
              (values weights) rs Hws Hrs Hsquare Hzero initialValue s Hs)
    as (s' & Hrun & _).
  erewrite rand_bind_Some by exact Hrun.
  rewrite <- Hfinal. cbv zeta. unfold MONTE_CARLO_SCENARIOS.
  rewrite !sort_replicate.
  rewrite (percentile_replicate final 0.05 50) by (lra || lia).
  rewrite (percentile_replicate final 0.25 250) by (lra || lia).
  rewrite (percentile_replicate final 0.75 750) by (lra || lia).
  rewrite (percentile_replicate final 0.95 950) by (lra || lia).
  cbn [mbind option_bind lift]. do 2 eexists. split; [reflexivity|].
  cbn [MonteCarloResults.percentile_5 MonteCarloResults.percentile_25
       MonteCarloResults.percentile_75 MonteCarloResults.percentile_95
       MonteCarloResults.expectedFinalValue].
  repeat split.
  rewrite sum_replicate, length_replicate.
  replace (INR 1000) with 1000 by (rewrite INR_IZR_INZ; reflexivity).
  lra.
Qed.

Lemma runAdvancedMonteCarloSimulation_zero_covariance_witness :
  let final := 10000 * (1 + 0.04 / 252) ^ TRADING_DAYS in
  exists m s',
    runAdvancedMonteCarloSimulation
      [("BND"%string, 0.5); ("CASH"%string, 0.5)]
      [("BND"%string, 0.06); ("CASH"%string, 0.02)]
      [[0; 0]; [0; 0]] 10000 ["BND"%string; "CASH"%string]
      (replicate (MONTE_CARLO_SCENARIOS * (TRADING_DAYS * (2 * 2))) (1 / 2))
    = Some (m, s')
    /\ MonteCarloResults.percentile_5 m = final
    /\ MonteCarloResults.percentile_25 m = final
    /\ MonteCarloResults.percentile_75 m = final
    /\ MonteCarloResults.percentile_95 m = final
    /\ MonteCarloResults.expectedFinalValue m = final.
Proof.
  apply (runAdvancedMonteCarloSimulation_zero_covariance
           [("BND"%string, 0.5); ("CASH"%string, 0.5)]
           [("BND"%string, 0.06); ("CASH"%string, 0.02)]
           10000 ["BND"%string; "CASH"%string] 0.04).
  - apply (bool_decide_unpack _). by vm_compute.
  - reflexivity.
  - intros symbol Hsymbol. exact Hsymbol.
  - unfold calculatePortfolioReturn, entries. js_eval. f_equal. lra.
  - rewrite nonzero_draws_replicate by lra. cbn [length]. lia.
Defined.

(** ** Efficient frontier builder: the frontier is sorted *)




